(** * progress64: reader/writer lock and ring buffer

    A shallow embedding of [src/p64_rwlock.c] and [src/p64_ringbuf.c], and
    of the lock benchmark [src/benchmarks/bm_lock.c] that calls the lock.
    Machine integers are [Z] with the wrap-around written out; atomic
    operations are single steps of a step function; the interleavings of
    the lock are the schedules of a small thread pool. *)

From Stdlib Require Import ZArith Lia Bool List String.
From stdpp Require Import base option list gmap.

Local Open Scope Z_scope.

(* ===================================================================== *)
(** * Part I: the model                                                    *)
(* ===================================================================== *)

(** ** Machine arithmetic and atomics shared by both files *)
Module Arch.

(** Value of an expression of type [uint32_t]. *)
Definition u32 (x : Z) : Z := x mod 2 ^ 32.

(** The conversion [(int)x] of a 32-bit value (two's complement). *)
Definition to_int (x : Z) : Z :=
  let y := u32 x in if y <? 2 ^ 31 then y else y - 2 ^ 32.

(** [__atomic_compare_exchange_n(ptr, &expected, desired, weak, ..)] on a
    cell holding [mem].  A weak exchange may fail although the values
    agree; [spurious] is the scheduler's choice for this attempt (always
    [false] for a strong exchange).  The result is the success flag, the
    new cell content and the new value of [expected]. *)
Definition cas (spurious : bool) (mem expected desired : Z) : bool * Z * Z :=
  if negb spurious && (mem =? expected)
  then (true, desired, expected)
  else (false, mem, mem).

End Arch.

(** ** src/p64_rwlock.c *)
Module RWLock.
Import Arch.

Definition RWLOCK_WRITER : Z := Z.shiftl 1 31.
Definition RWLOCK_READERS : Z := u32 (Z.lnot RWLOCK_WRITER).

(** [p64_rwlock_init]: [*lock = 0]. *)
Definition p64_rwlock_init : Z := 0.

(** One poll of [wait_for_no(lock, mask, mo)]: the value loaded is
    returned once no bit of [mask] is set in it; [None] is another turn
    of the spin loop. *)
Definition wait_for_no (l mask : Z) : option Z :=
  if Z.land l mask =? 0 then Some l else None.

(** Where a thread stands.  Each constructor is a point between two
    atomic accesses of the lock word; [l] is the local variable of the
    acquire loops. *)
Inductive pc : Type :=
| Idle
| RdWait              (* acquire_rd: in wait_for_no(RWLOCK_WRITER) *)
| RdCas (l : Z)       (* acquire_rd: about to CAS l -> l + 1 *)
| RdHeld              (* returned from acquire_rd *)
| WrWait              (* acquire_wr: in wait_for_no(RWLOCK_WRITER) *)
| WrCas (l : Z)       (* acquire_wr: about to CAS l -> l | WRITER *)
| WrDrain             (* acquire_wr: in wait_for_no(RWLOCK_READERS) *)
| WrHeld              (* returned from acquire_wr *)
| WrStore.            (* release_wr: passed the check, about to store 0 *)

(** Result of one atomic step: the thread goes on, or the process
    aborts (the lock word keeps the value written before [abort()]). *)
Inductive outcome : Type :=
| Next (p : pc) (w : Z)
| Abort (w : Z).

(** [p64_rwlock_acquire_rd], one atomic access at a time. *)
Definition p64_rwlock_acquire_rd (spurious : bool) (p : pc) (w : Z) : outcome :=
  match p with
  | RdCas l =>
      let '(ok, w', _) := cas spurious w l (u32 (l + 1)) in
      Next (if ok then RdHeld else RdWait) w'
  | _ =>
      match wait_for_no w RWLOCK_WRITER with
      | Some l => Next (RdCas l) w
      | None => Next RdWait w
      end
  end.

(** [p64_rwlock_release_rd]: one fetch-and-subtract, then the check on
    the value fetched. *)
Definition p64_rwlock_release_rd (w : Z) : outcome :=
  let prevl := w in
  let w' := u32 (w - 1) in
  if negb (Z.land prevl RWLOCK_WRITER =? 0) || (prevl =? 0)
  then Abort w'
  else Next Idle w'.

(** [p64_rwlock_acquire_wr], one atomic access at a time. *)
Definition p64_rwlock_acquire_wr (spurious : bool) (p : pc) (w : Z) : outcome :=
  match p with
  | WrCas l =>
      let '(ok, w', _) := cas spurious w l (Z.lor l RWLOCK_WRITER) in
      Next (if ok then WrDrain else WrWait) w'
  | WrDrain =>
      match wait_for_no w RWLOCK_READERS with
      | Some _ => Next WrHeld w
      | None => Next WrDrain w
      end
  | _ =>
      match wait_for_no w RWLOCK_WRITER with
      | Some l => Next (WrCas l) w
      | None => Next WrWait w
      end
  end.

(** [p64_rwlock_release_wr]: the check of [*lock], then the store. *)
Definition p64_rwlock_release_wr (p : pc) (w : Z) : outcome :=
  match p with
  | WrStore => Next Idle 0
  | _ => if negb (w =? RWLOCK_WRITER) then Abort w else Next WrStore w
  end.

(** What the scheduler lets a thread do: enter one of the two acquire
    functions from outside the lock, or run its next atomic access.  A
    thread that holds the lock runs the matching release. *)
Inductive action : Type :=
| CallAcquireRd
| CallAcquireWr
| Run (spurious : bool).

Definition thread_step (a : action) (p : pc) (w : Z) : option outcome :=
  match p, a with
  | Idle, CallAcquireRd => Some (Next RdWait w)
  | Idle, CallAcquireWr => Some (Next WrWait w)
  | (RdWait | RdCas _), Run sp => Some (p64_rwlock_acquire_rd sp p w)
  | RdHeld, Run _ => Some (p64_rwlock_release_rd w)
  | (WrWait | WrCas _ | WrDrain), Run sp => Some (p64_rwlock_acquire_wr sp p w)
  | (WrHeld | WrStore), Run _ => Some (p64_rwlock_release_wr p w)
  | _, _ => None
  end.

(** The lock word, the threads using it, and whether [abort()] ran. *)
Record state : Type := State {
  word : Z;
  threads : list pc;
  aborted : bool
}.

Definition init (n : nat) : state :=
  {| word := p64_rwlock_init; threads := replicate n Idle; aborted := false |}.

Definition step (i : nat) (a : action) (s : state) : option state :=
  if aborted s then None else
  match threads s !! i with
  | None => None
  | Some p =>
      match thread_step a p (word s) with
      | None => None
      | Some (Next p' w') =>
          Some {| word := w'; threads := <[i := p']> (threads s); aborted := false |}
      | Some (Abort w') =>
          Some {| word := w'; threads := <[i := Idle]> (threads s); aborted := true |}
      end
  end.

Fixpoint run (sched : list (nat * action)) (s : state) : option state :=
  match sched with
  | [] => Some s
  | (i, a) :: rest =>
      match step i a s with
      | Some s' => run rest s'
      | None => None
      end
  end.

(** States some interleaving of [n] threads reaches from the initial lock. *)
Definition reachable (n : nat) (s : state) : Prop :=
  exists sched, run sched (init n) = Some s.

(** [p64_rwlock_acquire_rd] run alone on a lock word: the poll and the
    exchange with nobody in between.  [None]: the caller keeps spinning. *)
Definition acquire_rd_alone (w : Z) : option Z :=
  match p64_rwlock_acquire_rd false RdWait w with
  | Next (RdCas l) w1 =>
      match p64_rwlock_acquire_rd false (RdCas l) w1 with
      | Next RdHeld w2 => Some w2
      | _ => None
      end
  | _ => None
  end.

(** The two fields of the lock word. *)
Definition writer_bit (w : Z) : bool := negb (Z.land w RWLOCK_WRITER =? 0).
Definition readers (w : Z) : Z := Z.land w RWLOCK_READERS.

(** The word invariant in the words of the specification: the writer
    bit set with no reader counted, or the writer bit clear. *)
Definition writer_xor_readers (w : Z) : Prop :=
  (writer_bit w = true /\ readers w = 0) \/ writer_bit w = false.

(** Thread classes counted by the invariant. *)
Definition holds_rd (p : pc) : bool :=
  match p with RdHeld => true | _ => false end.
Definition holds_wr (p : pc) : bool :=
  match p with WrHeld | WrStore => true | _ => false end.
Definition draining (p : pc) : bool :=
  match p with WrDrain => true | _ => false end.
Definition flagged (p : pc) : bool := draining p || holds_wr p.

Fixpoint cnt (f : pc -> bool) (l : list pc) : Z :=
  match l with
  | [] => 0
  | p :: l' => (if f p then 1 else 0) + cnt f l'
  end.

Definition local_ok (p : pc) : Prop :=
  match p with
  | RdCas l | WrCas l => 0 <= l < 2 ^ 31
  | _ => True
  end.

Record Inv (s : state) : Prop := {
  inv_word : word s = RWLOCK_WRITER * cnt flagged (threads s) + cnt holds_rd (threads s);
  inv_one : cnt flagged (threads s) <= 1;
  inv_excl : 1 <= cnt holds_wr (threads s) -> cnt holds_rd (threads s) = 0;
  inv_local : Forall local_ok (threads s)
}.

(** A reader holds the lock and a writer has announced itself: the
    schedule every use of the lock by a reader and a writer can produce. *)
Definition reader_then_writer : list (nat * action) :=
  [(0%nat, CallAcquireRd); (0%nat, Run false); (0%nat, Run false);
   (1%nat, CallAcquireWr); (1%nat, Run false); (1%nat, Run false)].


(** [p64_rwlock_acquire_wr] run alone on a lock word: the poll, the
    exchange and the poll for the readers to leave, with nobody in
    between.  [None]: the caller keeps spinning. *)
Definition acquire_wr_alone (w : Z) : option Z :=
  match p64_rwlock_acquire_wr false WrWait w with
  | Next (WrCas l) w1 =>
      match p64_rwlock_acquire_wr false (WrCas l) w1 with
      | Next WrDrain w2 =>
          match p64_rwlock_acquire_wr false WrDrain w2 with
          | Next WrHeld w3 => Some w3
          | _ => None
          end
      | _ => None
      end
  | _ => None
  end.

(** A writer takes the free lock: the call and its three accesses. *)
Definition writer_alone : list (nat * action) :=
  [(0%nat, CallAcquireWr); (0%nat, Run false); (0%nat, Run false); (0%nat, Run false)].

End RWLock.

(** ** src/p64_ringbuf.c *)
Module Ringbuf.
Import Arch.

(** *** What the file takes from headers that are not among the sources *)

(** The flag values of [p64_ringbuf.h].  The code only combines and
    tests them, so they stay parameters. *)
Class ringbuf_flags : Type := {
  P64_RINGBUF_F_SPENQ : Z;
  P64_RINGBUF_F_MPENQ : Z;
  P64_RINGBUF_F_SCDEQ : Z;
  P64_RINGBUF_F_MCDEQ : Z;
  P64_RINGBUF_F_NBENQ : Z;
  P64_RINGBUF_F_NBDEQ : Z;
  P64_RINGBUF_F_LFDEQ : Z
}.

(** Modelled from the spec: [MIN] of [common.h], which is not among the
    sources; the acquire computes "actual = min(N, capacity + head - tail)". *)
Definition MIN (a b : Z) : Z := if a <? b then a else b.

(** Modelled from the spec: [ROUNDUP_POW2] of [common.h], which is not
    among the sources; "allocated ring size = next power of two >= nelems". *)
Definition ROUNDUP_POW2 (x : Z) : Z := if x <=? 1 then 1 else 2 ^ Z.log2_up x.

(** *** Constants and handle decoding *)

Definition SUPPORTED_FLAGS `{ringbuf_flags} : Z :=
  Z.lor (Z.lor (Z.lor (Z.lor (Z.lor (Z.lor
    P64_RINGBUF_F_SPENQ P64_RINGBUF_F_MPENQ)
    P64_RINGBUF_F_SCDEQ) P64_RINGBUF_F_MCDEQ)
    P64_RINGBUF_F_NBENQ) P64_RINGBUF_F_NBDEQ)
    P64_RINGBUF_F_LFDEQ.

Definition FLAG_BLK : Z := 1.
Definition FLAG_LOCKFREE : Z := 2.
Definition FLAG_NONBLK : Z := 4.
Definition FLAG_MASK : Z := 7.

Definition PROD_FLAGS (rb : Z) : Z := Z.land rb FLAG_MASK.
Definition CONS_FLAGS (rb : Z) : Z := Z.land (Z.shiftr rb 3) FLAG_MASK.
Definition RB (rb : Z) : Z := Z.land rb (Z.lnot 63).

Definition MAXELEMS : Z := 4294967295.
Definition PENDMAX : Z := 32.
Definition NULL : Z := 0.

(** *** The structures *)

Record idxpair : Type := { cur : Z; pend : Z }.

Record endpoint : Type := {
  head : idxpair;     (* tail for consumer *)
  tail : Z;           (* head for consumer *)
  capacity : Z
}.

(** [ring] is the flexible array [void *ring[]], a slot value per index. *)
Record p64_ringbuf : Type := {
  prod : endpoint;
  prod_mask : Z;
  cons : endpoint;
  cons_mask : Z;
  ring : Z -> Z
}.

Record p64_ringbuf_result : Type := { index : Z; actual : Z; mask : Z }.

(** A [struct endpoint *] into the ring buffer: [&rb->prod] or [&rb->cons].
    The cells [&ep->head], [&ep->head.cur] and [&ep->tail] are named by
    the endpoint they sit in. *)
Inductive side : Type := Prod | Cons.

Definition endpoint_of (sd : side) (o : p64_ringbuf) : endpoint :=
  match sd with Prod => prod o | Cons => cons o end.

(** The 32-bit word read at [rb + 1]: the mask right after the endpoint. *)
Definition mask_after (sd : side) (o : p64_ringbuf) : Z :=
  match sd with Prod => prod_mask o | Cons => cons_mask o end.

Definition set_endpoint (sd : side) (e : endpoint) (o : p64_ringbuf) : p64_ringbuf :=
  match sd with
  | Prod => {| prod := e; prod_mask := prod_mask o; cons := cons o;
               cons_mask := cons_mask o; ring := ring o |}
  | Cons => {| prod := prod o; prod_mask := prod_mask o; cons := e;
               cons_mask := cons_mask o; ring := ring o |}
  end.

Definition set_head (sd : side) (h : idxpair) (o : p64_ringbuf) : p64_ringbuf :=
  let e := endpoint_of sd o in
  set_endpoint sd {| head := h; tail := tail e; capacity := capacity e |} o.

Definition set_cur (sd : side) (c : Z) (o : p64_ringbuf) : p64_ringbuf :=
  set_head sd {| cur := c; pend := pend (head (endpoint_of sd o)) |} o.

Definition set_tail (sd : side) (t : Z) (o : p64_ringbuf) : p64_ringbuf :=
  let e := endpoint_of sd o in
  set_endpoint sd {| head := head e; tail := t; capacity := capacity e |} o.

Definition set_ring (r : Z -> Z) (o : p64_ringbuf) : p64_ringbuf :=
  {| prod := prod o; prod_mask := prod_mask o; cons := cons o;
     cons_mask := cons_mask o; ring := r |}.

(** The 64-bit view of a [struct idxpair] ([cur] in the low half). *)
Definition LOWER (x : Z) : Z := u32 x.
Definition TOLOWER (x : Z) : Z := u32 x.
Definition UPPER (x : Z) : Z := u32 (Z.shiftr x 32).
Definition TOUPPER (x : Z) : Z := Z.shiftl x 32.

Definition load64 (p : idxpair) : Z := Z.lor (TOLOWER (cur p)) (TOUPPER (pend p)).
Definition store64 (x : Z) : idxpair := {| cur := LOWER x; pend := UPPER x |}.

(** [__builtin_ctzl] on a non-zero 64-bit value. *)
Fixpoint ctz_from (fuel : nat) (k : Z) (x : Z) : Z :=
  match fuel with
  | O => k
  | S fuel' => if Z.testbit x k then k else ctz_from fuel' (k + 1) x
  end.

Definition builtin_ctzl (x : Z) : Z := ctz_from 64 0 x.

(** *** Slot arrays and the copy loops *)

Definition upd (a : Z -> Z) (i v : Z) : Z -> Z :=
  fun j => if j =? i then v else a j.

(** [for (i = 0; i < num; i++) dst[i] = src[i]], with [dst] and [src]
    given as an array and the offset of the pointer into it. *)
Fixpoint copy_from (todo : nat) (i : Z) (dst : Z -> Z) (doff : Z)
    (src : Z -> Z) (soff : Z) : Z -> Z :=
  match todo with
  | O => dst
  | S todo' =>
      copy_from todo' (i + 1) (upd dst (doff + i) (src (soff + i))) doff src soff
  end.

Definition copy_voidptr (dst : Z -> Z) (doff : Z) (src : Z -> Z) (soff : Z)
    (num : Z) : Z -> Z :=
  copy_from (Z.to_nat num) 0 dst doff src soff.

(** [write_slots]; [None] is a failed [assert]. *)
Definition write_slots (rbring : Z -> Z) (ev : Z -> Z) (r : p64_ringbuf_result)
    : option (Z -> Z) :=
  let ring0 := Z.land (index r) (mask r) in
  if actual r <=? 1 then Some (upd rbring ring0 (ev 0))
  else
    let seg0 := u32 (u32 (mask r + 1) - ring0) in
    if actual r <=? seg0 then
      if u32 (ring0 + seg0) <=? u32 (mask r + 1)
      then Some (copy_voidptr rbring ring0 ev 0 (actual r))
      else None
    else
      if seg0 <? actual r
      then Some (copy_voidptr (copy_voidptr rbring ring0 ev 0 seg0)
                   0 ev seg0 (u32 (actual r - seg0)))
      else None.

(** [read_slots]: fills the caller's array [ev]. *)
Definition read_slots (rbring : Z -> Z) (ev : Z -> Z) (r : p64_ringbuf_result)
    : option (Z -> Z) :=
  let ring0 := Z.land (index r) (mask r) in
  if actual r <=? 1 then Some (upd ev 0 (rbring ring0))
  else
    let seg0 := u32 (u32 (mask r + 1) - ring0) in
    if actual r <=? seg0 then
      if u32 (ring0 + seg0) <=? u32 (mask r + 1)
      then Some (copy_voidptr ev 0 rbring ring0 (actual r))
      else None
    else
      if seg0 <? actual r
      then Some (copy_voidptr (copy_voidptr ev 0 rbring ring0 seg0)
                   seg0 rbring 0 (u32 (actual r - seg0)))
      else None.

(** The store loop of the non-blocking enqueue: elements [1..actual-1],
    then element [0]. *)
Fixpoint nbenq_from (todo : nat) (i : Z) (rbring : Z -> Z) (ev : Z -> Z)
    (r : p64_ringbuf_result) : Z -> Z :=
  match todo with
  | O => rbring
  | S todo' =>
      nbenq_from todo' (i + 1)
        (upd rbring (Z.land (u32 (index r + i)) (mask r)) (ev i)) ev r
  end.

Definition nbenq_write (rbring : Z -> Z) (ev : Z -> Z) (r : p64_ringbuf_result)
    : Z -> Z :=
  upd (nbenq_from (Z.to_nat (actual r - 1)) 1 rbring ev r)
      (Z.land (u32 (index r + 0)) (mask r)) (ev 0).

(** *** Releasing slots without blocking *)

(** Where the non-blocking release stands between two exchanges on the
    64-bit cell: in the first loop, in the second loop with the value
    [old] last seen, returned, or stopped by an [assert]. *)
Inductive release_pc : Type :=
| InOrder
| Pending (old : Z)
| Released
| AssertFailed.

(** The pending-mask computation of the second loop of [release_slots];
    [None] is a failed [assert]. *)
Definition pending_update (idx n old : Z) : option Z :=
  if negb (n <? PENDMAX) then None else
  let offset := u32 (idx - LOWER old) in
  if negb (u32 (n + offset) <=? PENDMAX) then None else
  let ourpend := u32 (Z.shiftl (u32 (Z.shiftl 1 n - 1)) offset) in
  if negb (Z.land (UPPER old) ourpend =? 0) then None else
  let newpend := Z.lor (UPPER old) ourpend in
  let notpend := Z.land (Z.lnot newpend) (Z.ones 64) in
  if notpend =? 0 then None else
  let inorder := builtin_ctzl notpend in
  if negb (inorder <=? PENDMAX) then None else
  let neu := Z.lor (TOLOWER (old + inorder)) (TOUPPER (Z.shiftr newpend inorder)) in
  if negb (Z.land (UPPER neu) 1 =? 0) then None else
  Some neu.

(** One exchange of the non-blocking part of [release_slots] on a cell
    that holds [loc], with the code up to the next exchange. *)
Definition release_nonblk_step (idx n : Z) (p : release_pc) (loc : Z)
    : release_pc * Z :=
  match p with
  | InOrder =>
      let old := TOLOWER idx in
      let neu := TOLOWER (idx + n) in
      let '(ok, loc', old) := cas false loc old neu in
      if ok then (Released, loc')
      else
        let delta := u32 (LOWER neu - LOWER old) in
        if delta <=? PENDMAX then (Pending old, loc')
        else (InOrder, loc')
  | Pending old =>
      match pending_update idx n old with
      | None => (AssertFailed, loc)
      | Some neu =>
          let '(ok, loc', old') := cas false loc old neu in
          if ok then (Released, loc') else (Pending old', loc')
      end
  | Released => (Released, loc)
  | AssertFailed => (AssertFailed, loc)
  end.

(** The release under interference: before each of our exchanges the
    other threads change the cell by the next function of [env]. *)
Fixpoint release_nonblk_run (idx n : Z) (env : list (Z -> Z)) (p : release_pc)
    (loc : Z) : release_pc * Z :=
  match env with
  | [] => (p, loc)
  | e :: env' =>
      let '(p', loc') := release_nonblk_step idx n p (e loc) in
      release_nonblk_run idx n env' p' loc'
  end.

(** *** Calls by one thread at a time: state and faults *)

Inductive fault : Type :=
| BadPointer          (* the handle does not point to a live ring buffer *)
| SpinsForever        (* a wait no other thread is there to end *)
| AssertionFailed.

Inductive result (S A : Type) : Type :=
| Ret (a : A) (s : S)
| Fault (f : fault).
Arguments Ret {S A} a s.
Arguments Fault {S A} f.

Definition ST (S A : Type) : Type := S -> result S A.

Definition ret {S A} (a : A) : ST S A := fun s => Ret a s.
Definition fail {S A} (f : fault) : ST S A := fun _ => Fault f.
Definition bind {S A B} (c : ST S A) (k : A -> ST S B) : ST S B :=
  fun s => match c s with
           | Ret a s' => k a s'
           | Fault f => Fault f
           end.
Definition gets {S A} (f : S -> A) : ST S A := fun s => Ret (f s) s.
Definition modify {S} (f : S -> S) : ST S unit := fun s => Ret tt (f s).

Notation "'let*' x ':=' c1 'in' c2" := (bind c1 (fun x => c2))
  (at level 10, x pattern, c1 at level 100, c2 at level 200, only parsing).

(** One ring buffer and the scheduler's choices for the weak exchanges
    still to come ([true]: fails spuriously; none left: no more spurious
    failures). *)
Record mach : Type := { obj : p64_ringbuf; spurious : list bool }.

Definition load_cur (sd : side) : ST mach Z :=
  gets (fun m => cur (head (endpoint_of sd (obj m)))).
Definition load_tail (sd : side) : ST mach Z :=
  gets (fun m => tail (endpoint_of sd (obj m))).
Definition store_cur (sd : side) (v : Z) : ST mach unit :=
  modify (fun m => {| obj := set_cur sd v (obj m); spurious := spurious m |}).
Definition store_ring (r : Z -> Z) : ST mach unit :=
  modify (fun m => {| obj := set_ring r (obj m); spurious := spurious m |}).

Definition next_spurious : ST mach bool :=
  fun m => match spurious m with
           | [] => Ret false m
           | b :: rest => Ret b {| obj := obj m; spurious := rest |}
           end.

(** Weak exchange on [&ep->tail] and on [&ep->head.cur]. *)
Definition cas_weak_tail (sd : side) (expected desired : Z) : ST mach (bool * Z) :=
  let* sp := next_spurious in
  let* t := load_tail sd in
  let '(ok, t', e') := cas sp t expected desired in
  let* _ := modify (fun m => {| obj := set_tail sd t' (obj m); spurious := spurious m |}) in
  ret (ok, e').

Definition cas_weak_cur (sd : side) (expected desired : Z) : ST mach (bool * Z) :=
  let* sp := next_spurious in
  let* c := load_cur sd in
  let '(ok, c', e') := cas sp c expected desired in
  let* _ := store_cur sd c' in
  ret (ok, e').

Definition lift_assert {S A} (o : option A) : ST S A :=
  match o with Some a => ret a | None => fail AssertionFailed end.

Definition no_slots : p64_ringbuf_result := {| index := 0; actual := 0; mask := 0 |}.

(** [acquire_slots]: [headp] and [tailp] point to the [head.cur] of the
    endpoints named. *)
Definition acquire_slots (headp tailp : side) (msk n cap : Z)
    : ST mach p64_ringbuf_result :=
  let* tl := load_cur tailp in
  let* hd := load_cur headp in
  let act := MIN n (to_int (u32 (cap + hd - tl))) in
  if act <=? 0 then ret no_slots
  else ret {| index := tl; actual := act; mask := msk |}.

(** The loop of [acquire_slots_mtsafe] (the path without 16-byte
    atomics); [fuel] bounds the turns. *)
Fixpoint acquire_loop (fuel : nat) (sd : side) (n hd cap msk tl : Z)
    : ST mach p64_ringbuf_result :=
  let act := MIN n (to_int (u32 (cap + hd - tl))) in
  if act <=? 0 then ret no_slots
  else
    match fuel with
    | O => fail SpinsForever
    | S fuel' =>
        let* (ok, tl') := cas_weak_tail sd tl (u32 (tl + act)) in
        if ok then ret {| index := tl; actual := act; mask := msk |}
        else acquire_loop fuel' sd n hd cap msk tl'
    end.

Definition acquire_slots_mtsafe (sd : side) (n : Z) : ST mach p64_ringbuf_result :=
  let* tl := load_tail sd in
  let* hd := load_cur sd in
  let* cap := gets (fun m => capacity (endpoint_of sd (obj m))) in
  let* msk := gets (fun m => mask_after sd (obj m)) in
  let* sps := gets spurious in
  acquire_loop (S (S (length sps))) sd n hd cap msk tl.

(** Modelled from the spec: [wait_until_equal_w_bkoff] of [arch.h], which
    is not among the sources; "a wait-until-equal-with-backoff primitive
    that spins on a word".  With no other thread running it returns at
    once or never. *)
Definition wait_until_equal_w_bkoff (sd : side) (idx : Z) : ST mach unit :=
  let* c := load_cur sd in
  if c =? idx then ret tt else fail SpinsForever.

(** The non-blocking part of [release_slots] with no other thread
    running, by the steps of [release_nonblk_step]. *)
Definition release_nonblk_alone (idx n : Z) (loc : Z) : fault + Z :=
  match release_nonblk_step idx n InOrder loc with
  | (Released, loc') => inr loc'
  | (InOrder, _) => inl SpinsForever
  | (AssertFailed, _) => inl AssertionFailed
  | (Pending old, loc1) =>
      match release_nonblk_step idx n (Pending old) loc1 with
      | (Released, loc') => inr loc'
      | (AssertFailed, _) => inl AssertionFailed
      | _ => inl SpinsForever
      end
  end.

(** [release_slots(loc, idx, n, loads_only, flags)], [loc] being the
    [head] of the endpoint named. *)
Definition release_slots (loc : side) (idx n : Z) (loads_only : bool) (flags : Z)
    : ST mach unit :=
  let* _ := (if negb (Z.land flags FLAG_BLK =? 0)
        then wait_until_equal_w_bkoff loc idx else ret tt) in
  if Z.land flags FLAG_NONBLK =? 0
  then store_cur loc (u32 (idx + n))
  else
    let* h := gets (fun m => head (endpoint_of loc (obj m))) in
    match release_nonblk_alone idx n (load64 h) with
    | inr v =>
        modify (fun m => {| obj := set_head loc (store64 v) (obj m);
                            spurious := spurious m |})
    | inl f => fail f
    end.

(** The lock-free dequeue loop of [p64_ringbuf_dequeue]. *)
Fixpoint lfdeq_loop (fuel : nat) (num hd tl : Z) (ev : Z -> Z)
    : ST mach (Z * (Z -> Z) * option Z) :=
  let act := MIN (to_int num) (to_int (u32 (tl - hd))) in
  if act <=? 0 then ret (0, ev, None)
  else
    match fuel with
    | O => fail SpinsForever
    | S fuel' =>
        let* msk := gets (fun m => cons_mask (obj m)) in
        let* rg := gets (fun m => ring (obj m)) in
        let* ev' := lift_assert
                 (read_slots rg ev {| index := hd; actual := act; mask := msk |}) in
        let* (ok, hd') := cas_weak_cur Prod hd (u32 (hd + act)) in
        if ok then ret (act, ev', Some hd)
        else lfdeq_loop fuel' num hd' tl ev'
    end.

(** *** The heap of ring buffers and the public functions *)

(** Modelled from the spec: [report_error] of [err_hnd.h], which is not
    among the sources; "validation errors invoke a pluggable reporter
    with (module, message, offending-value)".  The reports are logged. *)
Record report : Type := { module_name : string; message : string; value : Z }.

Record world : Type := {
  heap : gmap Z p64_ringbuf;
  errors : list report;
  cas_failures : list bool
}.

Definition report_error (md msg : string) (v : Z) : ST world unit :=
  modify (fun w => {| heap := heap w;
                      errors := errors w ++ [{| module_name := md; message := msg; value := v |}];
                      cas_failures := cas_failures w |}).

(** Runs code of one ring buffer on the object a pointer refers to. *)
Definition with_rb {A} (rb : Z) (c : ST mach A) : ST world A :=
  fun w =>
    match heap w !! rb with
    | None => Fault BadPointer
    | Some o =>
        match c {| obj := o; spurious := cas_failures w |} with
        | Ret a m => Ret a {| heap := <[rb := obj m]> (heap w);
                              errors := errors w;
                              cas_failures := spurious m |}
        | Fault f => Fault f
        end
    end.

(** [p64_ringbuf_alloc].  [p] is what [p64_malloc(nbytes, RB_ALIGNMENT)]
    returns ([NULL] or a fresh block) and [ring0] the content of the
    block's slots; [nbytes] only feeds that call. *)
Definition p64_ringbuf_alloc `{ringbuf_flags} (p : Z) (ring0 : Z -> Z)
    (nelems flags esize : Z) : ST world Z :=
  if (nelems =? 0) || (nelems >? MAXELEMS) then
    let* _ := report_error "ringbuf" "invalid number of elements" nelems in
    ret NULL
  else
    let invalid_combo0 := Z.lor P64_RINGBUF_F_SPENQ P64_RINGBUF_F_NBENQ in
    let invalid_combo1 := Z.lor P64_RINGBUF_F_SCDEQ P64_RINGBUF_F_NBDEQ in
    let invalid_combo2 := Z.lor P64_RINGBUF_F_SCDEQ P64_RINGBUF_F_LFDEQ in
    let invalid_combo3 := Z.lor P64_RINGBUF_F_NBDEQ P64_RINGBUF_F_LFDEQ in
    if negb (Z.land flags (Z.lnot SUPPORTED_FLAGS) =? 0)
       || (Z.land flags invalid_combo0 =? invalid_combo0)
       || (Z.land flags invalid_combo1 =? invalid_combo1)
       || (Z.land flags invalid_combo2 =? invalid_combo2)
       || (Z.land flags invalid_combo3 =? invalid_combo3)
    then
      let* _ := report_error "ringbuf" "invalid flags" flags in
      ret NULL
    else
      let ringsz := ROUNDUP_POW2 nelems in
      if negb (p =? NULL) then
        let prod_flags :=
          if negb (Z.land flags P64_RINGBUF_F_SPENQ =? 0) then 0
          else if negb (Z.land flags P64_RINGBUF_F_NBENQ =? 0) then FLAG_NONBLK
          else FLAG_BLK in
        let cons_flags :=
          Z.lor
            (if negb (Z.land flags P64_RINGBUF_F_SCDEQ =? 0) then 0
             else if negb (Z.land flags P64_RINGBUF_F_NBDEQ =? 0) then FLAG_NONBLK
             else FLAG_BLK)
            (if negb (Z.land flags P64_RINGBUF_F_LFDEQ =? 0) then FLAG_LOCKFREE else 0) in
        let o :=
          {| prod := {| head := {| cur := 0; pend := 0 |}; tail := 0; capacity := nelems |};
             prod_mask := u32 (ringsz - 1);
             cons := {| head := {| cur := 0; pend := 0 |}; tail := 0; capacity := 0 |};
             cons_mask := u32 (ringsz - 1);
             ring := ring0 |} in
        let* _ := modify (fun w => {| heap := <[p := o]> (heap w); errors := errors w;
                                 cas_failures := cas_failures w |}) in
        ret (Z.lor (Z.lor p (Z.shiftl cons_flags 3)) prod_flags)
      else ret NULL.

(** Modelled from the spec: [p64_mfree] of [os_abstraction.h], which is
    not among the sources; primitives "are destroyed by fini/free": the
    block leaves the heap. *)
Definition p64_mfree (rb : Z) : ST world unit :=
  modify (fun w => {| heap := delete rb (heap w); errors := errors w;
                      cas_failures := cas_failures w |}).

(** [p64_ringbuf_free]. *)
Definition p64_ringbuf_free (rb : Z) : ST world unit :=
  if negb (rb =? NULL) then
    let rb := RB rb in
    let* o := (fun w => match heap w !! rb with
                   | Some o => Ret o w
                   | None => Fault BadPointer
                   end) in
    if negb (cur (head (prod o)) =? cur (head (cons o))) then
      report_error "ringbuf" "ring buffer not empty" rb
    else p64_mfree rb
  else ret tt.

(** [p64_ringbuf_release_]. *)
Definition p64_ringbuf_release_ (rb : Z) (r : p64_ringbuf_result) (enqueue : bool)
    : ST world bool :=
  let prod_flags := PROD_FLAGS rb in
  let cons_flags := CONS_FLAGS rb in
  let rb := RB rb in
  with_rb rb
    (if enqueue then
       let* _ := release_slots Cons (index r) (actual r) false prod_flags in
       ret true
     else if negb (Z.land cons_flags FLAG_LOCKFREE =? 0) then
       let* (success, _) := cas_weak_cur Prod (index r) (u32 (index r + actual r)) in
       ret success
     else
       let* _ := release_slots Prod (index r) (actual r) true cons_flags in
       ret true).

(** [p64_ringbuf_enqueue]: the number of elements enqueued. *)
Definition p64_ringbuf_enqueue (rb : Z) (ev : Z -> Z) (num : Z) : ST world Z :=
  let prod_flags := PROD_FLAGS rb in
  let rb := RB rb in
  with_rb rb
    (let* r := (if Z.land prod_flags (Z.lor FLAG_BLK FLAG_NONBLK) =? 0
           then
             let* msk := gets (fun m => prod_mask (obj m)) in
             let* cap := gets (fun m => capacity (prod (obj m))) in
             acquire_slots Prod Cons msk (to_int num) cap
           else acquire_slots_mtsafe Prod (to_int num)) in
     if actual r =? 0 then ret 0
     else
       let* rg := gets (fun m => ring (obj m)) in
       let* _ := (if negb (Z.land prod_flags FLAG_NONBLK =? 0)
             then store_ring (nbenq_write rg ev r)
             else let* rg' := lift_assert (write_slots rg ev r) in store_ring rg') in
       let* _ := release_slots Cons (index r) (actual r) false prod_flags in
       ret (actual r)).

(** [p64_ringbuf_dequeue]: the number of elements dequeued, the caller's
    array [ev] afterwards, and [*index] when it was written. *)
Definition p64_ringbuf_dequeue (rb : Z) (ev : Z -> Z) (num : Z)
    : ST world (Z * (Z -> Z) * option Z) :=
  let cons_flags := CONS_FLAGS rb in
  let rb := RB rb in
  with_rb rb
    (if negb (Z.land cons_flags FLAG_LOCKFREE =? 0) then
       let* hd := load_cur Prod in
       let* tl := load_cur Cons in
       let* sps := gets spurious in
       lfdeq_loop (S (S (length sps))) num hd tl ev
     else
       let* r := (if Z.land cons_flags (Z.lor FLAG_BLK FLAG_NONBLK) =? 0
             then
               let* msk := gets (fun m => cons_mask (obj m)) in
               acquire_slots Cons Prod msk (to_int num) 0
             else acquire_slots_mtsafe Cons (to_int num)) in
       if actual r =? 0 then ret (0, ev, None)
       else
         let* rg := gets (fun m => ring (obj m)) in
         let* ev' := lift_assert (read_slots rg ev r) in
         let* _ := release_slots Prod (index r) (actual r) true cons_flags in
         ret (actual r, ev', Some (index r))).

(** [p64_ringbuf_alloc_] and [p64_ringbuf_free_]: the same calls under a
    second name. *)
Definition p64_ringbuf_alloc_ `{ringbuf_flags} (p : Z) (ring0 : Z -> Z)
    (nelems flags esize : Z) : ST world Z :=
  p64_ringbuf_alloc p ring0 nelems flags esize.

Definition p64_ringbuf_free_ (rb : Z) : ST world unit := p64_ringbuf_free rb.

(** [p64_ringbuf_acquire_]: the result, and its [ring] member, a pointer
    to the slots of the ring buffer (here the ring buffer's address) or
    [NULL]. *)
Definition p64_ringbuf_acquire_ (rb : Z) (num : Z) (enqueue : bool)
    : ST world (p64_ringbuf_result * Z) :=
  let prod_flags := PROD_FLAGS rb in
  let cons_flags := CONS_FLAGS rb in
  let rb := RB rb in
  with_rb rb
    (if enqueue then
       let* r := (if Z.land prod_flags (Z.lor FLAG_BLK FLAG_NONBLK) =? 0
                  then
                    let* msk := gets (fun m => prod_mask (obj m)) in
                    let* cap := gets (fun m => capacity (prod (obj m))) in
                    acquire_slots Prod Cons msk (to_int num) cap
                  else acquire_slots_mtsafe Prod (to_int num)) in
       ret (r, rb)
     else if negb (Z.land cons_flags FLAG_LOCKFREE =? 0) then
       let* msk := gets (fun m => cons_mask (obj m)) in
       let* hd := load_cur Prod in
       let* tl := load_cur Cons in
       let act := MIN (to_int num) (to_int (u32 (tl - hd))) in
       if act <=? 0 then ret (no_slots, NULL)
       else ret ({| index := hd; actual := act; mask := msk |}, rb)
     else
       let* r := (if Z.land cons_flags (Z.lor FLAG_BLK FLAG_NONBLK) =? 0
                  then
                    let* msk := gets (fun m => cons_mask (obj m)) in
                    acquire_slots Cons Prod msk (to_int num) 0
                  else acquire_slots_mtsafe Cons (to_int num)) in
       ret (r, rb)).

(** Step 2 of [p64_ringbuf_enqueue], the stores into the slots acquired,
    as a call of its own: what the caller of [p64_ringbuf_acquire_] does
    through the [ring] member of the result before the release. *)
Definition write_acquired (rb : Z) (ev : Z -> Z) (r : p64_ringbuf_result)
    : ST world unit :=
  with_rb (RB rb)
    (let* rg := gets (fun m => ring (obj m)) in
     if negb (Z.land (PROD_FLAGS rb) FLAG_NONBLK =? 0)
     then store_ring (nbenq_write rg ev r)
     else let* rg' := lift_assert (write_slots rg ev r) in store_ring rg').

(** [p64_ringbuf_acquire_], the stores, [p64_ringbuf_release_]: the
    enqueue by the two calls of the two-phase interface. *)
Definition enqueue_two_phase (rb : Z) (ev : Z -> Z) (num : Z) : ST world Z :=
  let* a := p64_ringbuf_acquire_ rb num true in
  let r := fst a in
  if actual r =? 0 then ret 0
  else
    let* _ := write_acquired rb ev r in
    let* _ := p64_ringbuf_release_ rb r true in
    ret (actual r).

(** Step 2 of [p64_ringbuf_dequeue], the loads from the slots acquired,
    as a call of its own: what the caller of [p64_ringbuf_acquire_] does
    through the [ring] member of the result before the release. *)
Definition read_acquired (rb : Z) (ev : Z -> Z) (r : p64_ringbuf_result)
    : ST world (Z -> Z) :=
  with_rb (RB rb)
    (let* rg := gets (fun m => ring (obj m)) in
     lift_assert (read_slots rg ev r)).

(** [p64_ringbuf_acquire_], the loads, [p64_ringbuf_release_]: the
    dequeue by the two calls of the two-phase interface. *)
Definition dequeue_two_phase (rb : Z) (ev : Z -> Z) (num : Z)
    : ST world (Z * (Z -> Z) * option Z) :=
  let* a := p64_ringbuf_acquire_ rb num false in
  let r := fst a in
  if actual r =? 0 then ret (0, ev, None)
  else
    let* ev' := read_acquired rb ev r in
    let* _ := p64_ringbuf_release_ rb r false in
    ret (actual r, ev', Some (index r)).

(** *** Vocabulary of the properties *)

(** An assignment of distinct bits to the flags, for concrete runs. *)
Definition sample_flags : ringbuf_flags :=
  {| P64_RINGBUF_F_SPENQ := 1; P64_RINGBUF_F_MPENQ := 0;
     P64_RINGBUF_F_SCDEQ := 2; P64_RINGBUF_F_MCDEQ := 0;
     P64_RINGBUF_F_NBENQ := 4; P64_RINGBUF_F_NBDEQ := 8;
     P64_RINGBUF_F_LFDEQ := 16 |}.

Definition empty_world : world :=
  {| heap := ∅; errors := []; cas_failures := [] |}.

(** [flags] contains every bit of [f]. *)
Definition has_flag (flags f : Z) : Prop := Z.land flags f = f.

(** The arguments [p64_ringbuf_alloc] turns down. *)
Definition invalid_args `{ringbuf_flags} (nelems flags : Z) : Prop :=
  nelems = 0 \/ nelems > 2 ^ 32 - 1
  \/ Z.land flags (Z.lnot SUPPORTED_FLAGS) <> 0
  \/ (has_flag flags P64_RINGBUF_F_SPENQ /\ has_flag flags P64_RINGBUF_F_NBENQ)
  \/ (has_flag flags P64_RINGBUF_F_SCDEQ /\ has_flag flags P64_RINGBUF_F_NBDEQ)
  \/ (has_flag flags P64_RINGBUF_F_SCDEQ /\ has_flag flags P64_RINGBUF_F_LFDEQ)
  \/ (has_flag flags P64_RINGBUF_F_NBDEQ /\ has_flag flags P64_RINGBUF_F_LFDEQ).

(** The call returned [NULL] after a call of the error reporter. *)
Definition rejected (r : result world Z) (w : world) : Prop :=
  exists w' e, r = Ret NULL w' /\ errors w' = errors w ++ [e] /\ heap w' = heap w.

Definition invalid_argsb `{ringbuf_flags} (nelems flags : Z) : bool :=
  (nelems =? 0) || (nelems >? MAXELEMS)
  || negb (Z.land flags (Z.lnot SUPPORTED_FLAGS) =? 0)
  || (Z.land flags (Z.lor P64_RINGBUF_F_SPENQ P64_RINGBUF_F_NBENQ)
        =? Z.lor P64_RINGBUF_F_SPENQ P64_RINGBUF_F_NBENQ)
  || (Z.land flags (Z.lor P64_RINGBUF_F_SCDEQ P64_RINGBUF_F_NBDEQ)
        =? Z.lor P64_RINGBUF_F_SCDEQ P64_RINGBUF_F_NBDEQ)
  || (Z.land flags (Z.lor P64_RINGBUF_F_SCDEQ P64_RINGBUF_F_LFDEQ)
        =? Z.lor P64_RINGBUF_F_SCDEQ P64_RINGBUF_F_LFDEQ)
  || (Z.land flags (Z.lor P64_RINGBUF_F_NBDEQ P64_RINGBUF_F_LFDEQ)
        =? Z.lor P64_RINGBUF_F_NBDEQ P64_RINGBUF_F_LFDEQ).

(** The ring buffer a successful allocation sets up. *)
Definition fresh_ring (ring0 : Z -> Z) (nelems : Z) : p64_ringbuf :=
  {| prod := {| head := {| cur := 0; pend := 0 |}; tail := 0; capacity := nelems |};
     prod_mask := u32 (ROUNDUP_POW2 nelems - 1);
     cons := {| head := {| cur := 0; pend := 0 |}; tail := 0; capacity := 0 |};
     cons_mask := u32 (ROUNDUP_POW2 nelems - 1);
     ring := ring0 |}.

Definition prod_flags_of `{ringbuf_flags} (flags : Z) : Z :=
  if negb (Z.land flags P64_RINGBUF_F_SPENQ =? 0) then 0
  else if negb (Z.land flags P64_RINGBUF_F_NBENQ =? 0) then FLAG_NONBLK
  else FLAG_BLK.

Definition cons_flags_of `{ringbuf_flags} (flags : Z) : Z :=
  Z.lor
    (if negb (Z.land flags P64_RINGBUF_F_SCDEQ =? 0) then 0
     else if negb (Z.land flags P64_RINGBUF_F_NBDEQ =? 0) then FLAG_NONBLK
     else FLAG_BLK)
    (if negb (Z.land flags P64_RINGBUF_F_LFDEQ =? 0) then FLAG_LOCKFREE else 0).

Definition handle_of `{ringbuf_flags} (p flags : Z) : Z :=
  Z.lor (Z.lor p (Z.shiftl (cons_flags_of flags) 3)) (prod_flags_of flags).

(** The flag values are usable: the five flags that select a mode are
    non-zero and no two of them share a bit. *)
Definition flags_wf `{ringbuf_flags} : Prop :=
  (P64_RINGBUF_F_SPENQ <> 0 /\ P64_RINGBUF_F_SCDEQ <> 0 /\ P64_RINGBUF_F_NBENQ <> 0
   /\ P64_RINGBUF_F_NBDEQ <> 0 /\ P64_RINGBUF_F_LFDEQ <> 0)
  /\ (Z.land P64_RINGBUF_F_SPENQ P64_RINGBUF_F_SCDEQ = 0
      /\ Z.land P64_RINGBUF_F_SPENQ P64_RINGBUF_F_NBENQ = 0
      /\ Z.land P64_RINGBUF_F_SPENQ P64_RINGBUF_F_NBDEQ = 0
      /\ Z.land P64_RINGBUF_F_SPENQ P64_RINGBUF_F_LFDEQ = 0)
  /\ (Z.land P64_RINGBUF_F_SCDEQ P64_RINGBUF_F_NBENQ = 0
      /\ Z.land P64_RINGBUF_F_SCDEQ P64_RINGBUF_F_NBDEQ = 0
      /\ Z.land P64_RINGBUF_F_SCDEQ P64_RINGBUF_F_LFDEQ = 0)
  /\ (Z.land P64_RINGBUF_F_NBENQ P64_RINGBUF_F_NBDEQ = 0
      /\ Z.land P64_RINGBUF_F_NBENQ P64_RINGBUF_F_LFDEQ = 0
      /\ Z.land P64_RINGBUF_F_NBDEQ P64_RINGBUF_F_LFDEQ = 0).

(** The report of [p64_ringbuf_free] on a ring buffer with elements. *)
Definition not_empty_report (rb : Z) : report :=
  {| module_name := "ringbuf"; message := "ring buffer not empty"; value := rb |}.

(** Bit [k] lies in the window of [n] slots that starts at [offset]. *)
Definition in_window (offset n k : Z) : bool := (offset <=? k) && (k <? offset + n).

(** A ring buffer with no element and no call under way: every index
    stands at [c] and no slot is pending. *)
Definition quiet_empty (o : p64_ringbuf) (c : Z) : Prop :=
  0 <= c < 2 ^ 32
  /\ head (prod o) = {| cur := c; pend := 0 |} /\ tail (prod o) = c
  /\ head (cons o) = {| cur := c; pend := 0 |} /\ tail (cons o) = c
  /\ capacity (cons o) = 0
  /\ prod_mask o = cons_mask o.

(** The paths a handle selects: the multi-thread-safe acquire of the
    producer ([MPENQ], [NBENQ]) and of the consumer ([MCDEQ], [NBDEQ]
    without [LFDEQ]).  These alone read and write the [tail] of their
    endpoint, and the consumer's alone reads [cons.capacity]. *)
Definition mt_prod (rb : Z) : bool :=
  negb (Z.land (PROD_FLAGS rb) (Z.lor FLAG_BLK FLAG_NONBLK) =? 0).
Definition mt_cons (rb : Z) : bool :=
  (Z.land (CONS_FLAGS rb) FLAG_LOCKFREE =? 0)
  && negb (Z.land (CONS_FLAGS rb) (Z.lor FLAG_BLK FLAG_NONBLK) =? 0).

(** A ring buffer between calls made one at a time through the handle
    [rb]: the consumer has released the slots before [d], the producer
    the slots before [e], and no slot is pending.  The fields the paths
    of the handle never touch are left free: [prod.tail] with a single
    producer, [cons.tail] and [cons.capacity] with a single or lock-free
    consumer.  The ring buffer is empty when [d = e]. *)
Definition between_calls (rb : Z) (o : p64_ringbuf) (d e : Z) : Prop :=
  0 <= d < 2 ^ 32 /\ 0 <= e < 2 ^ 32
  /\ head (prod o) = {| cur := d; pend := 0 |}
  /\ head (cons o) = {| cur := e; pend := 0 |}
  /\ (mt_prod rb = true -> tail (prod o) = e)
  /\ (mt_cons rb = true -> tail (cons o) = d /\ capacity (cons o) = 0)
  /\ prod_mask o = cons_mask o.

(** The number of elements between the two indices. *)
Definition queued (d e : Z) : Z := u32 (e - d).

(** The length of the first segment of a range of slots, up to the end
    of the ring, and the slot that element [k] of the range goes to. *)
Definition seg0_of (r : p64_ringbuf_result) : Z :=
  mask r + 1 - Z.land (index r) (mask r).

Definition slot_of (r : p64_ringbuf_result) (k : Z) : Z :=
  if k <? seg0_of r then Z.land (index r) (mask r) + k else k - seg0_of r.

(** A single-producer single-consumer ring buffer between calls: the
    consumer has read up to [d], the producer has written up to [e]. *)
Definition spsc_state (o : p64_ringbuf) (d e cap msk : Z) : Prop :=
  head (prod o) = {| cur := d; pend := 0 |}
  /\ head (cons o) = {| cur := e; pend := 0 |}
  /\ capacity (prod o) = cap /\ prod_mask o = msk /\ cons_mask o = msk.

(** An array of one element. *)
Definition one (v : Z) : Z -> Z := fun _ => v.

(** One-element enqueues of the values of a list, with the return values;
    one-element dequeues, each with its return value and the element. *)
Fixpoint enqueue_each (rb : Z) (vs : list Z) : ST world (list Z) :=
  match vs with
  | [] => ret []
  | v :: vs' =>
      let* n := p64_ringbuf_enqueue rb (one v) 1 in
      let* ns := enqueue_each rb vs' in
      ret (n :: ns)
  end.

Fixpoint dequeue_times (rb : Z) (k : nat) : ST world (list (Z * Z)) :=
  match k with
  | O => ret []
  | S k' =>
      let* d := p64_ringbuf_dequeue rb (one 0) 1 in
      let* ds := dequeue_times rb k' in
      ret ((fst (fst d), snd (fst d) 0) :: ds)
  end.

(** Allocate with [flags], enqueue [v], dequeue once: is [v] what comes
    back? *)
Definition round_trip_returns `{ringbuf_flags} (flags nelems v : Z) : bool :=
  match p64_ringbuf_alloc 4096 (one 0) nelems flags 8 empty_world with
  | Ret h w0 =>
      match p64_ringbuf_enqueue h (one v) 1 w0 with
      | Ret 1 w1 =>
          match p64_ringbuf_dequeue h (one 0) 1 w1 with
          | Ret (1, out, Some _) _ => out 0 =? v
          | _ => false
          end
      | _ => false
      end
  | Fault _ => false
  end.

(** The handle and the world after [p64_ringbuf_alloc] and one
    [p64_ringbuf_enqueue] of one element. *)
Definition after_enqueue `{ringbuf_flags} (flags nelems v : Z) : option (Z * world) :=
  match p64_ringbuf_alloc 4096 (one 0) nelems flags 8 empty_world with
  | Ret h w0 =>
      match p64_ringbuf_enqueue h (one v) 1 w0 with
      | Ret 1 w1 => Some (h, w1)
      | _ => None
      end
  | Fault _ => None
  end.

(** The allocation returns a handle, and then neither the enqueue nor the
    dequeue moves an element. *)
Definition round_trip_refused `{ringbuf_flags} (flags nelems v : Z) : bool :=
  match p64_ringbuf_alloc 4096 (one 0) nelems flags 8 empty_world with
  | Ret h w0 =>
      negb (h =? NULL)
      && match p64_ringbuf_enqueue h (one v) 1 w0 with
         | Ret 0 w1 =>
             match p64_ringbuf_dequeue h (one 0) 1 w1 with
             | Ret (0, out, None) _ => out 0 =? 0
             | _ => false
             end
         | _ => false
         end
  | Fault _ => false
  end.

(** The handle and the world after one element went through a fresh ring
    buffer: [p64_ringbuf_alloc], one [p64_ringbuf_enqueue], one
    [p64_ringbuf_dequeue]. *)
Definition after_round_trip `{ringbuf_flags} (flags nelems v : Z) : option (Z * world) :=
  match p64_ringbuf_alloc 4096 (one 0) nelems flags 8 empty_world with
  | Ret h w0 =>
      match p64_ringbuf_enqueue h (one v) 1 w0 with
      | Ret 1 w1 =>
          match p64_ringbuf_dequeue h (one 0) 1 w1 with
          | Ret (1, _, Some _) w2 => Some (h, w2)
          | _ => None
          end
      | _ => None
      end
  | Fault _ => None
  end.

(** The slot the non-blocking enqueue stores element [i] in. *)
Definition nb_slot (r : p64_ringbuf_result) (i : Z) : Z :=
  Z.land (u32 (index r + i)) (mask r).

(** Between two of our exchanges nobody touches the cell. *)
Definition undisturbed : Z -> Z := fun loc => loc.

(** Whether the next weak exchange of a cell holding [c] against the
    expected value [e] succeeds, given the scheduler's choices. *)
Definition cas_succeeds (choices : list bool) (c e : Z) : bool :=
  negb (hd false choices) && (c =? e).

End Ringbuf.

(** ** src/benchmarks/bm_lock.c *)
Module Benchmark.
Import Arch.

Definition u64 (x : Z) : Z := x mod 2 ^ 64.

(** [xorshift64star]: the state stored back into [xor_state[0]], and the
    value returned. *)
Definition xorshift64star (xor_state : Z) : Z * Z :=
  let x := xor_state in
  let x := Z.lxor x (Z.shiftr x 12) in
  let x := Z.lxor x (u64 (Z.shiftl x 25)) in
  let x := Z.lxor x (Z.shiftr x 27) in
  (x, u64 (x * 0x2545F4914F6CDD1D)).

(** The state of the generator of thread [tidx] at the start of lap
    [lap] of [thr_execute]: seeded with [tidx + 1], one call a lap. *)
Fixpoint xor_state_at (lap : nat) (seed : Z) : Z :=
  match lap with
  | O => seed
  | S lap' => fst (xorshift64star (xor_state_at lap' seed))
  end.

(** *** The start and end barrier *)

(** [THREAD_BARRIER], and the count of the semaphore [ALL_DONE]. *)
Record barrier : Type := {
  THREAD_BARRIER : Z;
  ALL_DONE : Z
}.

(** [~(1UL << idx)] as a 64-bit mask. *)
Definition all_but (idx : Z) : Z := u64 (Z.lnot (Z.shiftl 1 idx)).

(** [barrier_all_begin]: the store that lets the threads go. *)
Definition barrier_all_begin (numthreads : Z) (b : barrier) : barrier :=
  {| THREAD_BARRIER := u64 (Z.shiftl 1 numthreads - 1); ALL_DONE := ALL_DONE b |}.

(** One poll of the wait in [barrier_thr_begin]: whether thread [idx]
    may begin. *)
Definition barrier_thr_begin (idx : Z) (b : barrier) : bool :=
  negb (Z.land (THREAD_BARRIER b) (Z.shiftl 1 idx) =? 0).

(** [barrier_thr_done]: the atomic and-fetch, and the post of the
    semaphore by the thread that finds nothing left. *)
Definition barrier_thr_done (idx : Z) (b : barrier) : barrier :=
  let left := Z.land (THREAD_BARRIER b) (all_but idx) in
  {| THREAD_BARRIER := left;
     ALL_DONE := if left =? 0 then ALL_DONE b + 1 else ALL_DONE b |}.

(** The threads call [barrier_thr_done] in the order given. *)
Definition threads_done (order : list nat) (b : barrier) : barrier :=
  foldl (fun b idx => barrier_thr_done (Z.of_nat idx) b) b order.

(** *** Pinning threads to CPUs *)

(** [__builtin_ffsl]: one plus the index of the lowest bit set, or zero. *)
Definition builtin_ffsl (x : Z) : Z :=
  if x =? 0 then 0 else Ringbuf.ctz_from 64 0 x + 1.

(** The array [cpus] that [create_threads] fills, [-1] standing for a
    thread that is not pinned; every [pthread] call succeeding. *)
Fixpoint create_threads (numthr : nat) (affinity : Z) : list Z :=
  match numthr with
  | O => []
  | S numthr' =>
      if negb (affinity =? 0) then
        let cpu := builtin_ffsl affinity - 1 in
        cpu :: create_threads numthr' (Z.land affinity (all_but cpu))
      else (-1) :: create_threads numthr' affinity
  end.

(** *** [thr_execute] with [LOCKTYPE == RW] *)

(** One element of [OBJS]: the lock word and the two counters the
    benchmark checks the lock with. *)
Record object : Type := {
  rwl : Z;
  count_rd : Z;
  count_wr : Z
}.

Definition set_rwl (o : object) (w : Z) : object :=
  {| rwl := w; count_rd := count_rd o; count_wr := count_wr o |}.
Definition set_count_rd (o : object) (c : Z) : object :=
  {| rwl := rwl o; count_rd := c; count_wr := count_wr o |}.
Definition set_count_wr (o : object) (c : Z) : object :=
  {| rwl := rwl o; count_rd := count_rd o; count_wr := c |}.

(** Where a thread stands in [thr_execute], between two accesses of
    shared memory. *)
Inductive bpc : Type :=
| LoopTest                 (* lap < NUMLAPS && !QUIT *)
| InLock (p : RWLock.pc)   (* inside a function of p64_rwlock.c *)
| RdCheck1                 (* shared section: obj->count_wr != 0 *)
| RdEnter                  (* fetch_add(&obj->count_rd, 1) *)
| RdLeave                  (* fetch_sub(&obj->count_rd, 1) *)
| RdCheck2                 (* obj->count_wr != 0 *)
| WrLoad1                  (* exclusive section: the load of count_wr++ *)
| WrStore1 (v : Z)         (* the store of count_wr++ *)
| WrCheck1                 (* obj->count_rd != 0 *)
| WrLoad2                  (* the load of --count_wr *)
| WrStore2 (v : Z)         (* the store of --count_wr *)
| WrCheck2                 (* obj->count_rd != 0 *)
| Quitting                 (* QUIT = true *)
| Done.                    (* returned, or the process aborted *)

(** The locals of [thr_execute]; [obj] is [idx], the element of [OBJS]
    the lap works on. *)
Record thread : Type := {
  xor_state : Z;
  lap : Z;
  obj : nat;
  numfailrd : Z;
  numfailwr : Z;
  nummultrd : Z;
  at_pc : bpc
}.

Definition with_pc (t : thread) (p : bpc) : thread :=
  {| xor_state := xor_state t; lap := lap t; obj := obj t;
     numfailrd := numfailrd t; numfailwr := numfailwr t;
     nummultrd := nummultrd t; at_pc := p |}.

(** [if (c) numfailrd++], and the same for the other two counts. *)
Definition fail_rd (c : bool) (t : thread) : thread :=
  {| xor_state := xor_state t; lap := lap t; obj := obj t;
     numfailrd := (if c then u32 (numfailrd t + 1) else numfailrd t);
     numfailwr := numfailwr t; nummultrd := nummultrd t; at_pc := at_pc t |}.
Definition fail_wr (c : bool) (t : thread) : thread :=
  {| xor_state := xor_state t; lap := lap t; obj := obj t;
     numfailrd := numfailrd t;
     numfailwr := (if c then u32 (numfailwr t + 1) else numfailwr t);
     nummultrd := nummultrd t; at_pc := at_pc t |}.
Definition mult_rd (c : bool) (t : thread) : thread :=
  {| xor_state := xor_state t; lap := lap t; obj := obj t;
     numfailrd := numfailrd t; numfailwr := numfailwr t;
     nummultrd := (if c then u32 (nummultrd t + 1) else nummultrd t);
     at_pc := at_pc t |}.

(** Where a thread goes on after an access inside a lock function that
    left it at [p']: into the section when an acquire returned, to the
    next lap when a release returned. *)
Definition after_lock (t : thread) (p' : RWLock.pc) : thread :=
  match p' with
  | RWLock.RdHeld => with_pc t RdCheck1
  | RWLock.WrHeld => with_pc t WrLoad1
  | RWLock.Idle =>
      {| xor_state := xor_state t; lap := u32 (lap t + 1); obj := obj t;
         numfailrd := numfailrd t; numfailwr := numfailwr t;
         nummultrd := nummultrd t; at_pc := LoopTest |}
  | _ => with_pc t (InLock p')
  end.

(** The next access of a thread to its object [OBJS[idx]]: the thread and
    the object afterwards, and whether [abort()] was called. *)
Definition on_object (sp : bool) (t : thread) (o : object)
    : option (thread * object * bool) :=
  match at_pc t with
  | InLock p =>
      match RWLock.thread_step (RWLock.Run sp) p (rwl o) with
      | Some (RWLock.Next p' w') => Some (after_lock t p', set_rwl o w', false)
      | Some (RWLock.Abort w') => Some (with_pc t Done, set_rwl o w', true)
      | None => None
      end
  | RdCheck1 =>
      Some (with_pc (fail_wr (negb (count_wr o =? 0)) t) RdEnter, o, false)
  | RdEnter =>
      Some (with_pc (mult_rd (negb (count_rd o =? 0)) t) RdLeave,
            set_count_rd o (u32 (count_rd o + 1)), false)
  | RdLeave =>
      Some (with_pc t RdCheck2, set_count_rd o (u32 (count_rd o - 1)), false)
  | RdCheck2 =>
      Some (with_pc (fail_wr (negb (count_wr o =? 0)) t) (InLock RWLock.RdHeld),
            o, false)
  | WrLoad1 => Some (with_pc t (WrStore1 (count_wr o)), o, false)
  | WrStore1 v =>
      Some (with_pc (fail_wr (negb (v =? 0)) t) WrCheck1,
            set_count_wr o (u32 (v + 1)), false)
  | WrCheck1 =>
      Some (with_pc (fail_rd (negb (count_rd o =? 0)) t) WrLoad2, o, false)
  | WrLoad2 => Some (with_pc t (WrStore2 (count_wr o)), o, false)
  | WrStore2 v =>
      Some (with_pc (fail_wr (negb (u32 (v - 1) =? 0)) t) WrCheck2,
            set_count_wr o (u32 (v - 1)), false)
  | WrCheck2 =>
      Some (with_pc (fail_rd (negb (count_rd o =? 0)) t) (InLock RWLock.WrHeld),
            o, false)
  | LoopTest | Quitting | Done => None
  end.

(** The globals of the benchmark, the threads, and whether the process
    aborted. *)
Record bench : Type := {
  NUMLAPS : Z;
  OBJS : list object;
  QUIT : bool;
  thrs : list thread;
  crashed : bool
}.

Definition NUMOBJS (s : bench) : Z := Z.of_nat (length (OBJS s)).

(** What the loop test of a lap leads to: the call of an acquire function
    on the object drawn, on seven laps of eight for reading, or the end
    of the loop. *)
Definition next_lap (s : bench) (t : thread) : thread :=
  if (lap t <? NUMLAPS s) && negb (QUIT s) then
    let '(st, r) := xorshift64star (xor_state t) in
    {| xor_state := st; lap := lap t;
       obj := Z.to_nat (u32 (r mod NUMOBJS s));
       numfailrd := numfailrd t; numfailwr := numfailwr t;
       nummultrd := nummultrd t;
       at_pc := if negb (lap t mod 8 =? 0)
                then InLock RWLock.RdWait else InLock RWLock.WrWait |}
  else with_pc t Quitting.

(** One access of thread [i] to shared memory, with the code up to its
    next one. *)
Definition bstep (i : nat) (sp : bool) (s : bench) : option bench :=
  if crashed s then None else
  match thrs s !! i with
  | None => None
  | Some t =>
      match at_pc t with
      | Done => None
      | LoopTest =>
          Some {| NUMLAPS := NUMLAPS s; OBJS := OBJS s; QUIT := QUIT s;
                  thrs := <[i := next_lap s t]> (thrs s); crashed := false |}
      | Quitting =>
          Some {| NUMLAPS := NUMLAPS s; OBJS := OBJS s; QUIT := true;
                  thrs := <[i := with_pc t Done]> (thrs s); crashed := false |}
      | _ =>
          match OBJS s !! obj t with
          | None => None
          | Some o =>
              match on_object sp t o with
              | None => None
              | Some (t', o', crash) =>
                  Some {| NUMLAPS := NUMLAPS s;
                          OBJS := <[obj t := o']> (OBJS s);
                          QUIT := QUIT s;
                          thrs := <[i := t']> (thrs s);
                          crashed := crash |}
              end
          end
      end
  end.

Fixpoint brun (sched : list (nat * bool)) (s : bench) : option bench :=
  match sched with
  | [] => Some s
  | (i, sp) :: rest =>
      match bstep i sp s with
      | Some s' => brun rest s'
      | None => None
      end
  end.

(** The state [main] leaves for the threads: every lock initialised,
    the counters zero, thread [tidx] seeded with [tidx + 1]. *)
Definition new_thread (tidx : nat) : thread :=
  {| xor_state := u32 (Z.of_nat tidx + 1); lap := 0; obj := 0%nat;
     numfailrd := 0; numfailwr := 0; nummultrd := 0; at_pc := LoopTest |}.

Definition binit (numthreads numobjs : nat) (numlaps : Z) : bench :=
  {| NUMLAPS := numlaps;
     OBJS := replicate numobjs
               {| rwl := RWLock.p64_rwlock_init; count_rd := 0; count_wr := 0 |};
     QUIT := false;
     thrs := new_thread <$> seq 0 numthreads;
     crashed := false |}.

(** The lock function a thread is in on object [k], as the lock sees it. *)
Definition lock_pc (p : bpc) : RWLock.pc :=
  match p with
  | InLock q => q
  | RdCheck1 | RdEnter | RdLeave | RdCheck2 => RWLock.RdHeld
  | WrLoad1 | WrStore1 _ | WrCheck1 | WrLoad2 | WrStore2 _ | WrCheck2 => RWLock.WrHeld
  | LoopTest | Quitting | Done => RWLock.Idle
  end.

Definition view (k : nat) (t : thread) : RWLock.pc :=
  if Nat.eqb (obj t) k then lock_pc (at_pc t) else RWLock.Idle.

(** Threads counted in [count_rd] and in [count_wr] of object [k]: those
    between the increment and the decrement. *)
Definition counts_rd (p : bpc) : bool :=
  match p with RdLeave => true | _ => false end.
Definition counts_wr (p : bpc) : bool :=
  match p with WrCheck1 | WrLoad2 | WrStore2 _ => true | _ => false end.

Definition in_rd (k : nat) (t : thread) : bool :=
  Nat.eqb (obj t) k && counts_rd (at_pc t).
Definition in_wr (k : nat) (t : thread) : bool :=
  Nat.eqb (obj t) k && counts_wr (at_pc t).

(** What a thread has seen so far is what a working lock shows: no
    failure counted, and the counter values it is about to write back
    are those of a section held alone. *)
Definition thread_ok (t : thread) : Prop :=
  numfailrd t = 0 /\ numfailwr t = 0
  /\ match at_pc t with
     | WrStore1 v => v = 0
     | WrStore2 v => v = 1
     | _ => True
     end.

Fixpoint tally {A} (f : A -> bool) (l : list A) : Z :=
  match l with
  | [] => 0
  | x :: l' => (if f x then 1 else 0) + tally f l'
  end.

(** A reader holds the lock of the only object in its second lap and a
    writer announces itself. *)
Definition crash_schedule : list (nat * bool) :=
  replicate 12 (0%nat, false) ++ replicate 3 (0%nat, false)
  ++ replicate 3 (1%nat, false) ++ replicate 5 (0%nat, false).

End Benchmark.

(* ===================================================================== *)
(** * Part II: the properties                                              *)
(* ===================================================================== *)

Module RWLockProps.
Import Arch RWLock.

Lemma writer_val : RWLOCK_WRITER = 2 ^ 31.
Proof. reflexivity. Qed.

Lemma readers_val : RWLOCK_READERS = Z.ones 31.
Proof. reflexivity. Qed.

Lemma land_writer x :
  0 <= x < 2 ^ 32 ->
  Z.land x RWLOCK_WRITER = if x <? 2 ^ 31 then 0 else 2 ^ 31.
Proof.
  intros Hx. rewrite writer_val.
  apply Z.bits_inj'. intros k Hk.
  rewrite Z.land_spec, Z.pow2_bits_eqb by lia.
  destruct (Z.eqb_spec 31 k) as [<-|Hne].
  - rewrite andb_true_r.
    destruct (Z.ltb_spec x (2 ^ 31)).
    + rewrite Z.bits_0. apply Z.testbit_false; [lia|].
      rewrite Z.div_small by lia. reflexivity.
    + rewrite Z.pow2_bits_true by lia. apply Z.testbit_true; [lia|].
      assert (x / 2 ^ 31 = 1) as ->
        by (symmetry; apply Z.div_unique with (r := x - 2 ^ 31); lia).
      reflexivity.
  - rewrite andb_false_r.
    destruct (x <? 2 ^ 31); [now rewrite Z.bits_0|].
    rewrite Z.pow2_bits_false by lia. reflexivity.
Qed.

Lemma land_readers x : Z.land x RWLOCK_READERS = x mod 2 ^ 31.
Proof. rewrite readers_val. apply Z.land_ones. lia. Qed.

Lemma lor_writer l : 0 <= l < 2 ^ 31 -> Z.lor l RWLOCK_WRITER = l + 2 ^ 31.
Proof.
  intros Hl.
  assert (Z.land l RWLOCK_WRITER = 0) as H0.
  { rewrite land_writer by lia.
    destruct (Z.ltb_spec l (2 ^ 31)); [reflexivity | lia]. }
  rewrite <- Z.lxor_lor, <- Z.add_nocarry_lxor by exact H0.
  now rewrite writer_val.
Qed.

(** *** Counting threads *)

Lemma cnt_bounds f l : 0 <= cnt f l <= Z.of_nat (length l).
Proof.
  induction l as [|p l IH]; simpl; [lia|]. destruct (f p); lia.
Qed.

Lemma cnt_insert f l i p q :
  l !! i = Some p ->
  cnt f (<[i := q]> l) = cnt f l - (if f p then 1 else 0) + (if f q then 1 else 0).
Proof.
  revert i. induction l as [|x l IH]; intros [|i] H; simpl in *; try discriminate.
  - injection H as ->. lia.
  - rewrite (IH i H). lia.
Qed.

Lemma cnt_replicate_idle f n : f Idle = false -> cnt f (replicate n Idle) = 0.
Proof. intros Hf. induction n as [|n IH]; simpl; [reflexivity|]. rewrite Hf, IH. reflexivity. Qed.

Lemma cnt_le f g l : (forall p, f p = true -> g p = true) -> cnt f l <= cnt g l.
Proof.
  intros Hfg. induction l as [|p l IH]; simpl; [lia|].
  destruct (f p) eqn:Hf; [rewrite (Hfg _ Hf); lia|]. destruct (g p); lia.
Qed.

Lemma cnt_lookup f l i p : l !! i = Some p -> f p = true -> 1 <= cnt f l.
Proof.
  revert i. induction l as [|x l IH]; intros [|i] H Hf; simpl in *; try discriminate.
  - injection H as ->. rewrite Hf. pose proof (cnt_bounds f l). lia.
  - pose proof (IH i H Hf). destruct (f x); lia.
Qed.

Lemma cnt_pos f l : 1 <= cnt f l -> exists i p, l !! i = Some p /\ f p = true.
Proof.
  induction l as [|x l IH]; simpl; [lia|].
  destruct (f x) eqn:Hf.
  - intros _. exists 0%nat, x. split; [reflexivity | exact Hf].
  - intros H. destruct IH as (i & p & Hi & Hp); [lia|].
    exists (S i), p. split; assumption.
Qed.

Lemma holds_wr_flagged p : holds_wr p = true -> flagged p = true.
Proof. unfold flagged. intros ->. apply orb_true_r. Qed.

(** *** The invariant and its preservation *)

Lemma inv_init n : Inv (init n).
Proof.
  split; simpl; rewrite ?cnt_replicate_idle by reflexivity; try (unfold p64_rwlock_init; lia).
  apply Forall_forall. intros p Hp. apply elem_of_replicate in Hp as [-> _]. exact I.
Qed.

Lemma step_length i a s s' :
  step i a s = Some s' -> length (threads s') = length (threads s).
Proof.
  unfold step. destruct (aborted s); [discriminate|].
  destruct (threads s !! i) as [p|]; [|discriminate].
  destruct (thread_step a p (word s)) as [[p' w'|w']|]; [| |discriminate];
    intros [= <-]; simpl; apply length_insert.
Qed.

(** Facts about the counters of the old and of the updated pool, ready
    for linear arithmetic. *)
Ltac counters Hi q :=
  match type of Hi with
  | ?l !! ?i = Some ?p =>
      pose proof (cnt_bounds flagged l);
      pose proof (cnt_bounds holds_rd l);
      pose proof (cnt_bounds holds_wr l);
      pose proof (cnt_le holds_wr flagged l holds_wr_flagged);
      pose proof (cnt_bounds flagged (<[i := q]> l));
      pose proof (cnt_bounds holds_rd (<[i := q]> l));
      pose proof (cnt_bounds holds_wr (<[i := q]> l));
      rewrite ?(cnt_insert flagged l i p q Hi), ?(cnt_insert holds_rd l i p q Hi),
        ?(cnt_insert holds_wr l i p q Hi) in *;
      rewrite ?length_insert in *;
      simpl in *
  end.

Ltac finish_inv Hi q :=
  split; simpl;
  [ counters Hi q | counters Hi q | counters Hi q
  | apply Forall_insert; [assumption | simpl; try exact I] ].

Lemma inv_step i a s s' :
  Z.of_nat (length (threads s)) < 2 ^ 31 ->
  Inv s -> step i a s = Some s' -> Inv s'.
Proof.
  intros Hlen [Hw H1 Hx Hl] Hstep.
  unfold step in Hstep. destruct (aborted s); [discriminate|].
  destruct (threads s !! i) as [p|] eqn:Hi; [|discriminate].
  pose proof (proj1 (Forall_lookup _ _) Hl i p Hi) as Hp.
  pose proof (cnt_bounds flagged (threads s)) as Bf.
  pose proof (cnt_bounds holds_rd (threads s)) as Br.
  pose proof writer_val as HW.
  assert (0 <= word s < 2 ^ 32) as Hrange by nia.
  unfold thread_step in Hstep.
  destruct p, a; simpl in Hstep; try discriminate.
  - (* Idle, call acquire_rd *)
    injection Hstep as <-. finish_inv Hi RdWait; lia.
  - (* Idle, call acquire_wr *)
    injection Hstep as <-. finish_inv Hi WrWait; lia.
  - (* RdWait: poll *)
    unfold wait_for_no in Hstep. rewrite land_writer in Hstep by exact Hrange.
    destruct (Z.ltb_spec (word s) (2 ^ 31)); simpl in Hstep; injection Hstep as <-.
    + finish_inv Hi (RdCas (word s)); lia.
    + finish_inv Hi RdWait; lia.
  - (* RdCas: exchange *)
    unfold cas in Hstep. simpl in Hp.
    destruct (negb spurious && (word s =? l)) eqn:Hc; injection Hstep as <-.
    + apply andb_true_iff in Hc as [_ Hc]. apply Z.eqb_eq in Hc.
      unfold u32. rewrite Z.mod_small by lia.
      finish_inv Hi RdHeld; nia.
    + finish_inv Hi RdWait; lia.
  - (* RdHeld: release_rd *)
    unfold p64_rwlock_release_rd in Hstep.
    pose proof (cnt_lookup holds_rd _ _ _ Hi eq_refl) as Hge.
    assert (u32 (word s - 1) = word s - 1) as Hu
      by (unfold u32; apply Z.mod_small; nia).
    rewrite Hu in Hstep.
    destruct (negb (Z.land (word s) RWLOCK_WRITER =? 0) || (word s =? 0));
      injection Hstep as <-; finish_inv Hi Idle; lia.
  - (* WrWait: poll *)
    unfold wait_for_no in Hstep. rewrite land_writer in Hstep by exact Hrange.
    destruct (Z.ltb_spec (word s) (2 ^ 31)); simpl in Hstep; injection Hstep as <-.
    + finish_inv Hi (WrCas (word s)); lia.
    + finish_inv Hi WrWait; lia.
  - (* WrCas: exchange *)
    unfold cas in Hstep. simpl in Hp.
    destruct (negb spurious && (word s =? l)) eqn:Hc; injection Hstep as <-.
    + apply andb_true_iff in Hc as [_ Hc]. apply Z.eqb_eq in Hc.
      rewrite lor_writer by exact Hp.
      finish_inv Hi WrDrain; nia.
    + finish_inv Hi WrWait; lia.
  - (* WrDrain: poll for the readers to leave *)
    unfold wait_for_no in Hstep. rewrite land_readers in Hstep.
    pose proof (cnt_lookup flagged _ _ _ Hi eq_refl) as Hge.
    assert (word s mod 2 ^ 31 = cnt holds_rd (threads s)) as Hm.
    { symmetry. apply Z.mod_unique with (q := 1); nia. }
    rewrite Hm in Hstep.
    destruct (Z.eqb_spec (cnt holds_rd (threads s)) 0); injection Hstep as <-.
    + finish_inv Hi WrHeld; lia.
    + finish_inv Hi WrDrain; lia.
  - (* WrHeld: release_wr, the check *)
    unfold p64_rwlock_release_wr in Hstep.
    pose proof (cnt_lookup holds_wr _ _ _ Hi eq_refl) as Hge.
    pose proof (cnt_le holds_wr flagged (threads s) holds_wr_flagged) as Hle.
    assert (word s = RWLOCK_WRITER) as He by (rewrite (Hx Hge) in Hw; nia).
    rewrite He, Z.eqb_refl in Hstep. simpl in Hstep. injection Hstep as <-.
    rewrite <- He.
    finish_inv Hi WrStore; lia.
  - (* WrStore: release_wr, the store *)
    unfold p64_rwlock_release_wr in Hstep. injection Hstep as <-.
    pose proof (cnt_lookup holds_wr _ _ _ Hi eq_refl) as Hge.
    finish_inv Hi Idle; nia.
Qed.

Lemma run_inv n sched : forall s s',
  length (threads s) = n -> Z.of_nat n < 2 ^ 31 ->
  Inv s -> run sched s = Some s' -> Inv s' /\ length (threads s') = n.
Proof.
  induction sched as [|[i a] rest IH]; intros s s' Hn Hb HI Hrun; simpl in Hrun.
  - injection Hrun as <-. split; assumption.
  - destruct (step i a s) as [s1|] eqn:Hs; [|discriminate].
    apply (IH s1 s'); try assumption.
    + rewrite (step_length _ _ _ _ Hs). exact Hn.
    + apply (inv_step i a s); [rewrite Hn|..]; assumption.
Qed.

Lemma writer_bit_clear w : 0 <= w < 2 ^ 32 -> (writer_bit w = false <-> w < 2 ^ 31).
Proof.
  intros Hw. unfold writer_bit. rewrite land_writer by exact Hw.
  destruct (Z.ltb_spec w (2 ^ 31)); simpl; split; intros;
    try reflexivity; try lia; try discriminate.
Qed.

(** *** The lock word under interleaving *)

Lemma reader_then_writer_run :
  run reader_then_writer (init 2) = Some (State (2 ^ 31 + 1) [RdHeld; WrDrain] false).
Proof. reflexivity. Qed.

(** C6, as the specification states it, fails: after a reader acquired
    and a writer set its flag the word is [0x80000001], writer bit set
    and one reader counted. *)
Lemma C6_counterexample :
  ~ (forall s, reachable 2 s -> writer_xor_readers (word s)).
Proof.
  intros H.
  specialize (H (State (2 ^ 31 + 1) [RdHeld; WrDrain] false)
                (ex_intro _ reader_then_writer reader_then_writer_run)).
  destruct H as [[_ H] | H]; vm_compute in H; discriminate.
Qed.

(** C6 (amended): in every state an interleaving of the four lock
    functions reaches, the reader field counts the threads that hold the
    lock for reading; the writer bit is clear, or no reader is counted,
    or a writer is still waiting inside [p64_rwlock_acquire_wr] for the
    readers to leave; and whenever a thread holds the lock for writing
    the word is exactly the writer bit and no thread holds it for
    reading. *)
Theorem C6_rwlock_word_invariant (n : nat) sched s :
  Z.of_nat n < 2 ^ 31 ->
  run sched (init n) = Some s ->
  readers (word s) = cnt holds_rd (threads s)
  /\ (writer_bit (word s) = false
      \/ readers (word s) = 0
      \/ exists i, threads s !! i = Some WrDrain)
  /\ (forall i p, threads s !! i = Some p -> holds_wr p = true ->
        word s = RWLOCK_WRITER /\ forall j, threads s !! j <> Some RdHeld).
Proof.
  intros Hn Hrun.
  destruct (run_inv n sched (init n) s (length_replicate n Idle) Hn (inv_init n) Hrun)
    as [[Hw H1 Hx _] Hlen].
  pose proof (cnt_bounds flagged (threads s)) as Bf.
  pose proof (cnt_bounds holds_rd (threads s)) as Br.
  pose proof (cnt_bounds holds_wr (threads s)) as Bh.
  pose proof (cnt_le holds_wr flagged (threads s) holds_wr_flagged) as Hle.
  pose proof writer_val as HW.
  assert (0 <= word s < 2 ^ 32) as Hrange by nia.
  assert (readers (word s) = cnt holds_rd (threads s)) as Hrd.
  { unfold readers. rewrite land_readers. symmetry.
    apply Z.mod_unique with (q := cnt flagged (threads s)); nia. }
  split; [exact Hrd|]. split.
  - destruct (Z.eq_dec (cnt flagged (threads s)) 0) as [H0|H0].
    { left. apply writer_bit_clear; [exact Hrange | nia]. }
    destruct (Z.eq_dec (cnt holds_wr (threads s)) 0) as [Hh|Hh].
    + right. right.
      assert (1 <= cnt draining (threads s)) as Hd.
      { assert (forall l, cnt flagged l = cnt draining l + cnt holds_wr l) as Hsplit.
        { induction l as [|q l IH]; simpl; [reflexivity|]. rewrite IH.
          unfold flagged. destruct q; simpl; lia. }
        rewrite Hsplit in *. lia. }
      destruct (cnt_pos _ _ Hd) as (i & q & Hi & Hq).
      exists i. destruct q; try discriminate. exact Hi.
    + right. left. rewrite Hrd. apply Hx. lia.
  - intros i p Hi Hp.
    pose proof (cnt_lookup holds_wr _ _ _ Hi Hp) as Hge.
    pose proof (Hx Hge) as Hr0.
    split; [nia|].
    intros j Hj. pose proof (cnt_lookup holds_rd _ _ _ Hj eq_refl). lia.
Qed.

Lemma C6_rwlock_word_invariant_witness :
  Z.of_nat 2 < 2 ^ 31
  /\ run reader_then_writer (init 2) = Some (State (2 ^ 31 + 1) [RdHeld; WrDrain] false)
  /\ readers (2 ^ 31 + 1) = cnt holds_rd [RdHeld; WrDrain].
Proof.
  split; [reflexivity|]. split; [reflexivity|].
  exact (proj1 (C6_rwlock_word_invariant 2 reader_then_writer
                  (State (2 ^ 31 + 1) [RdHeld; WrDrain] false)
                  eq_refl eq_refl)).
Defined.

(** The check of [p64_rwlock_release_rd] looks at the writer bit of the
    value fetched: a reader that leaves while a writer waits for it takes
    the abort branch, after the count went down. *)
Example release_rd_while_writer_waits :
  run (reader_then_writer ++ [(0%nat, Run false)]) (init 2)
  = Some (State (2 ^ 31) [Idle; WrDrain] true).
Proof. reflexivity. Qed.

(** *** Reader-count overflow *)

(** C7, as the specification states it, fails: with the reader field
    exhausted ([0x7FFFFFFF]) the acquire succeeds and stores the
    incremented word, which is the writer flag with no reader. *)
Lemma C7_counterexample :
  readers (2 ^ 31 - 1) = RWLOCK_READERS
  /\ ~ (forall w, readers w = RWLOCK_READERS -> acquire_rd_alone w <> Some (u32 (w + 1)))
  /\ acquire_rd_alone (2 ^ 31 - 1) = Some RWLOCK_WRITER.
Proof.
  split; [reflexivity|]. split; [|reflexivity].
  intros H. apply (H (2 ^ 31 - 1)); reflexivity.
Qed.

(** C7 (amended): [p64_rwlock_acquire_rd] has no overflow check.  Run on
    a lock word with the writer bit clear it stores the word plus one;
    below the maximum of the reader field that is one more reader and
    the writer bit still clear, at the maximum the carry sets the writer
    flag and leaves the reader field zero. *)
Theorem C7_acquire_rd_increments w :
  0 <= w < 2 ^ 32 ->
  writer_bit w = false ->
  acquire_rd_alone w = Some (w + 1)
  /\ (readers w < RWLOCK_READERS ->
        readers (w + 1) = readers w + 1 /\ writer_bit (w + 1) = false)
  /\ (readers w = RWLOCK_READERS ->
        w + 1 = RWLOCK_WRITER /\ readers (w + 1) = 0 /\ writer_bit (w + 1) = true).
Proof.
  intros Hw Hb. pose proof (proj1 (writer_bit_clear w Hw) Hb) as Hlt.
  assert (readers w = w) as Hr
    by (unfold readers; rewrite land_readers; apply Z.mod_small; lia).
  rewrite Hr, readers_val. change (Z.ones 31) with (2 ^ 31 - 1).
  split; [|split].
  - unfold acquire_rd_alone, p64_rwlock_acquire_rd, wait_for_no.
    rewrite land_writer by exact Hw.
    destruct (Z.ltb_spec w (2 ^ 31)); [|lia]. simpl.
    unfold cas. rewrite Z.eqb_refl. simpl.
    unfold u32. rewrite Z.mod_small by lia. reflexivity.
  - intros Hmax. split.
    + unfold readers. rewrite land_readers. apply Z.mod_small. lia.
    + apply writer_bit_clear; lia.
  - intros Hmax. split; [rewrite writer_val; lia|].
    replace (w + 1) with (2 ^ 31) by lia. split; reflexivity.
Qed.

Lemma C7_acquire_rd_increments_witness :
  0 <= 5 < 2 ^ 32 /\ writer_bit 5 = false /\ acquire_rd_alone 5 = Some (5 + 1).
Proof.
  split; [lia|]. split; [reflexivity|].
  exact (proj1 (C7_acquire_rd_increments 5 ltac:(lia) eq_refl)).
Defined.

(** *** More on the lock under interleaving *)

Lemma reachable_inv n sched s :
  Z.of_nat n < 2 ^ 31 -> run sched (init n) = Some s ->
  Inv s /\ length (threads s) = n.
Proof.
  intros Hn Hrun.
  exact (run_inv n sched (init n) s (length_replicate n Idle) Hn (inv_init n) Hrun).
Qed.

Lemma cnt_two f (l : list pc) i j p q :
  l !! i = Some p -> l !! j = Some q -> f p = true -> f q = true -> i <> j ->
  2 <= cnt f l.
Proof.
  revert i j. induction l as [|x l IH]; intros [|i] [|j] Hi Hj Hp Hq Hne;
    simpl in *; try discriminate; try congruence.
  - injection Hi as ->. rewrite Hp.
    pose proof (cnt_lookup f l j q Hj Hq). lia.
  - injection Hj as ->. rewrite Hq.
    pose proof (cnt_lookup f l i p Hi Hp). lia.
  - assert (i <> j) by congruence.
    pose proof (IH i j Hi Hj Hp Hq ltac:(assumption)). destruct (f x); lia.
Qed.

(** X1: writers exclude each other.  In every state an interleaving
    reaches, at most one thread is past the exchange of
    [p64_rwlock_acquire_wr] (waiting for the readers to leave, holding the
    lock, or between the check and the store of [p64_rwlock_release_wr]). *)
Theorem X1_one_writer (n : nat) sched s i j p q :
  Z.of_nat n < 2 ^ 31 ->
  run sched (init n) = Some s ->
  threads s !! i = Some p -> threads s !! j = Some q ->
  flagged p = true -> flagged q = true ->
  i = j.
Proof.
  intros Hn Hrun Hi Hj Hp Hq.
  destruct (reachable_inv n sched s Hn Hrun) as [[_ H1 _ _] _].
  destruct (Nat.eq_dec i j) as [|Hne]; [assumption|].
  pose proof (cnt_two flagged _ _ _ _ _ Hi Hj Hp Hq Hne). lia.
Qed.

Lemma X1_one_writer_witness :
  Z.of_nat 2 < 2 ^ 31
  /\ run reader_then_writer (init 2) = Some (State (2 ^ 31 + 1) [RdHeld; WrDrain] false)
  /\ 1%nat = 1%nat.
Proof.
  split; [reflexivity|]. split; [reflexivity|].
  exact (X1_one_writer 2 reader_then_writer
           (State (2 ^ 31 + 1) [RdHeld; WrDrain] false) 1 1 WrDrain WrDrain
           eq_refl eq_refl eq_refl eq_refl eq_refl eq_refl).
Defined.

(** X2: a write release by the holder never aborts.  In every state an
    interleaving reaches without an abort, the check of
    [p64_rwlock_release_wr] by a thread that holds the lock for writing
    finds the word equal to the writer bit and goes on to the store; and
    the store by a thread past the check leaves the word zero. *)
Theorem X2_release_wr_passes (n : nat) sched s i p sp :
  Z.of_nat n < 2 ^ 31 ->
  run sched (init n) = Some s ->
  aborted s = false ->
  threads s !! i = Some p -> holds_wr p = true ->
  exists s',
    step i (Run sp) s = Some s' /\ aborted s' = false
    /\ (p = WrHeld -> word s' = word s /\ threads s' !! i = Some WrStore)
    /\ (p = WrStore -> word s' = 0 /\ threads s' !! i = Some Idle).
Proof.
  intros Hn Hrun Hab Hi Hp.
  destruct (reachable_inv n sched s Hn Hrun) as [[Hw H1 Hx _] Hlen].
  pose proof (cnt_lookup holds_wr _ _ _ Hi Hp) as Hge.
  pose proof (cnt_le holds_wr flagged (threads s) holds_wr_flagged) as Hle.
  pose proof writer_val as HW.
  assert (word s = RWLOCK_WRITER) as He by (rewrite (Hx Hge) in Hw; nia).
  assert (i < length (threads s))%nat as Hlt by (apply lookup_lt_Some in Hi; exact Hi).
  unfold step. rewrite Hab, Hi.
  destruct p; try discriminate; simpl.
  - rewrite He, Z.eqb_refl. simpl. eexists. split; [reflexivity|].
    split; [reflexivity|]. split.
    + intros _. split; [reflexivity|]. simpl. apply list_lookup_insert_eq. exact Hlt.
    + discriminate.
  - eexists. split; [reflexivity|]. split; [reflexivity|]. split.
    + discriminate.
    + intros _. split; [reflexivity|]. simpl. apply list_lookup_insert_eq. exact Hlt.
Qed.

Lemma writer_alone_run :
  run writer_alone (init 1) = Some (State (2 ^ 31) [WrHeld] false).
Proof. reflexivity. Qed.

Lemma X2_release_wr_passes_witness :
  Z.of_nat 1 < 2 ^ 31
  /\ run writer_alone (init 1) = Some (State (2 ^ 31) [WrHeld] false)
  /\ exists s', step 0 (Run false) (State (2 ^ 31) [WrHeld] false) = Some s'
                /\ aborted s' = false.
Proof.
  split; [reflexivity|]. split; [reflexivity|].
  destruct (X2_release_wr_passes 1 writer_alone (State (2 ^ 31) [WrHeld] false)
              0 WrHeld false eq_refl writer_alone_run eq_refl eq_refl eq_refl)
    as (s' & Hs & Ha & _).
  exists s'. split; assumption.
Defined.

(** X3: a read release takes one reader off the count, and aborts exactly
    when a writer has set its flag.  In every state an interleaving
    reaches without an abort, the fetch-and-subtract of
    [p64_rwlock_release_rd] by a thread that holds the lock for reading
    lowers the word and the reader field by one and never finds the word
    zero; the process aborts if and only if the writer bit was set. *)
Theorem X3_release_rd_counts (n : nat) sched s i sp :
  Z.of_nat n < 2 ^ 31 ->
  run sched (init n) = Some s ->
  aborted s = false ->
  threads s !! i = Some RdHeld ->
  exists s',
    step i (Run sp) s = Some s'
    /\ word s <> 0
    /\ word s' = word s - 1
    /\ readers (word s') = readers (word s) - 1
    /\ aborted s' = writer_bit (word s)
    /\ threads s' !! i = Some Idle.
Proof.
  intros Hn Hrun Hab Hi.
  destruct (reachable_inv n sched s Hn Hrun) as [[Hw H1 Hx _] Hlen].
  pose proof (cnt_lookup holds_rd _ _ _ Hi eq_refl) as Hge.
  pose proof (cnt_bounds flagged (threads s)) as Bf.
  pose proof (cnt_bounds holds_rd (threads s)) as Br.
  pose proof writer_val as HW.
  assert (0 <= word s < 2 ^ 32) as Hrange by nia.
  assert (i < length (threads s))%nat as Hlt by (apply lookup_lt_Some in Hi; exact Hi).
  assert (u32 (word s - 1) = word s - 1) as Hu
    by (unfold u32; apply Z.mod_small; nia).
  assert (forall x, x = word s \/ x = word s - 1 ->
            readers x = x - 2 ^ 31 * cnt flagged (threads s)) as Hrd.
  { intros x Hx'. unfold readers. rewrite land_readers. symmetry.
    apply Z.mod_unique with (q := cnt flagged (threads s)); nia. }
  assert (word s <> 0) as Hnz by nia.
  unfold step. rewrite Hab, Hi. simpl. unfold p64_rwlock_release_rd.
  rewrite Hu. fold (writer_bit (word s)).
  rewrite (proj2 (Z.eqb_neq _ _) Hnz), orb_false_r.
  destruct (writer_bit (word s)); eexists; (split; [reflexivity|]); simpl;
    (split; [exact Hnz|]); (split; [reflexivity|]);
    (split; [rewrite !Hrd by tauto; lia|]);
    (split; [reflexivity|]); apply list_lookup_insert_eq; exact Hlt.
Qed.

Lemma X3_release_rd_counts_witness :
  Z.of_nat 2 < 2 ^ 31
  /\ run reader_then_writer (init 2) = Some (State (2 ^ 31 + 1) [RdHeld; WrDrain] false)
  /\ exists s', step 0 (Run false) (State (2 ^ 31 + 1) [RdHeld; WrDrain] false) = Some s'
                /\ aborted s' = true.
Proof.
  split; [reflexivity|]. split; [reflexivity|].
  destruct (X3_release_rd_counts 2 reader_then_writer
              (State (2 ^ 31 + 1) [RdHeld; WrDrain] false) 0 false
              eq_refl reader_then_writer_run eq_refl eq_refl)
    as (s' & Hs & _ & _ & _ & Ha & _).
  exists s'. split; [exact Hs | exact Ha].
Defined.

(** *** The lock used by one thread *)

(** X4: read acquire and release undo each other.  On a lock word with
    the writer bit clear and room in the reader field,
    [p64_rwlock_acquire_rd] run alone stores the word plus one and
    [p64_rwlock_release_rd] then stores the word back without aborting. *)
Theorem X4_read_round_trip w :
  0 <= w < 2 ^ 31 - 1 ->
  acquire_rd_alone w = Some (w + 1)
  /\ p64_rwlock_release_rd (w + 1) = Next Idle w.
Proof.
  intros Hw. split.
  - unfold acquire_rd_alone, p64_rwlock_acquire_rd, wait_for_no.
    rewrite land_writer by lia.
    destruct (Z.ltb_spec w (2 ^ 31)); [|lia]. simpl.
    unfold cas. rewrite Z.eqb_refl. simpl.
    unfold u32. rewrite Z.mod_small by lia. reflexivity.
  - unfold p64_rwlock_release_rd. rewrite land_writer by lia.
    destruct (Z.ltb_spec (w + 1) (2 ^ 31)); [|lia].
    destruct (Z.eqb_spec (w + 1) 0); [lia|]. simpl.
    unfold u32. replace (w + 1 - 1) with w by lia.
    rewrite Z.mod_small by lia. reflexivity.
Qed.

Lemma X4_read_round_trip_witness :
  0 <= 0 < 2 ^ 31 - 1 /\ acquire_rd_alone 0 = Some (0 + 1).
Proof.
  split; [lia|]. exact (proj1 (X4_read_round_trip 0 ltac:(lia))).
Defined.

(** X5: a writer running alone gets the lock only when it is free.
    [p64_rwlock_acquire_wr] run alone on a lock word returns exactly when
    the word is zero, and then leaves the writer bit alone in the word: with
    readers counted it sets its flag and waits, with the flag set it waits
    before the exchange. *)
Theorem X5_write_acquire_alone w w' :
  0 <= w < 2 ^ 32 ->
  (acquire_wr_alone w = Some w' <-> w = 0 /\ w' = RWLOCK_WRITER).
Proof.
  intros Hw. unfold acquire_wr_alone, p64_rwlock_acquire_wr, wait_for_no.
  rewrite land_writer by exact Hw.
  destruct (Z.ltb_spec w (2 ^ 31)) as [Hlt|Hge]; simpl.
  - unfold cas. rewrite Z.eqb_refl. simpl.
    rewrite lor_writer by lia. rewrite land_readers.
    assert ((w + 2 ^ 31) mod 2 ^ 31 = w) as ->.
    { symmetry. apply Z.mod_unique with (q := 1); lia. }
    destruct (Z.eqb_spec w 0) as [->|Hne]; simpl.
    + split; [intros [= <-]; split; reflexivity | intros [_ ->]; reflexivity].
    + split; [discriminate | intros [H0 _]; contradiction].
  - split; [discriminate | intros [-> _]; lia].
Qed.

Lemma X5_write_acquire_alone_witness :
  0 <= 0 < 2 ^ 32 /\ acquire_wr_alone 0 = Some RWLOCK_WRITER.
Proof.
  split; [lia|].
  exact (proj2 (X5_write_acquire_alone 0 RWLOCK_WRITER ltac:(lia)) (conj eq_refl eq_refl)).
Defined.

(** X18: readers and a writer exclude each other.  In every state an
    interleaving reaches, while some thread holds the lock for writing
    (returned from [p64_rwlock_acquire_wr], not yet through the store of
    [p64_rwlock_release_wr]) no thread holds it for reading. *)
Theorem X18_writer_excludes_readers (n : nat) sched s i j p q :
  Z.of_nat n < 2 ^ 31 ->
  run sched (init n) = Some s ->
  threads s !! i = Some p -> threads s !! j = Some q ->
  holds_wr p = true ->
  holds_rd q = false.
Proof.
  intros Hn Hrun Hi Hj Hp.
  destruct (reachable_inv n sched s Hn Hrun) as [[_ _ Hx _] _].
  pose proof (cnt_lookup holds_wr _ _ _ Hi Hp) as Hge.
  destruct (holds_rd q) eqn:Hq; [|reflexivity].
  pose proof (cnt_lookup holds_rd _ _ _ Hj Hq). rewrite (Hx Hge) in *. lia.
Qed.

Lemma X18_writer_excludes_readers_witness :
  Z.of_nat 2 < 2 ^ 31
  /\ run (writer_alone ++ [(1%nat, CallAcquireRd); (1%nat, Run false)]) (init 2)
     = Some (State (2 ^ 31) [WrHeld; RdWait] false)
  /\ [WrHeld; RdWait] !! 0%nat = Some WrHeld
  /\ [WrHeld; RdWait] !! 1%nat = Some RdWait
  /\ holds_wr WrHeld = true
  /\ holds_rd RdWait = false.
Proof.
  split; [reflexivity|]. split; [reflexivity|]. split; [reflexivity|].
  split; [reflexivity|]. split; [reflexivity|].
  exact (X18_writer_excludes_readers 2
           (writer_alone ++ [(1%nat, CallAcquireRd); (1%nat, Run false)])
           (State (2 ^ 31) [WrHeld; RdWait] false)
           0 1 WrHeld RdWait eq_refl eq_refl eq_refl eq_refl eq_refl).
Defined.

Lemma flagged_word n sched s i p :
  Z.of_nat n < 2 ^ 31 -> run sched (init n) = Some s ->
  threads s !! i = Some p -> flagged p = true ->
  word s = 2 ^ 31 + cnt holds_rd (threads s)
  /\ 0 <= cnt holds_rd (threads s) < 2 ^ 31
  /\ Forall local_ok (threads s).
Proof.
  intros Hn Hrun Hi Hp.
  destruct (reachable_inv n sched s Hn Hrun) as [[Hw H1 _ Hl] Hlen].
  pose proof (cnt_lookup flagged _ _ _ Hi Hp) as Hge.
  pose proof (cnt_bounds holds_rd (threads s)) as Br.
  pose proof writer_val as HW.
  split; [nia|]. split; [lia | exact Hl].
Qed.

(** X19: a writer that has set its flag keeps new readers out.  In every
    state an interleaving reaches without an abort in which some thread is
    past the exchange of [p64_rwlock_acquire_wr], an access by a thread
    inside [p64_rwlock_acquire_rd], be it the poll or the exchange with a
    value read earlier, leaves the word as it is and the thread in the
    poll. *)
Theorem X19_writer_blocks_readers (n : nat) sched s i j p q sp :
  Z.of_nat n < 2 ^ 31 ->
  run sched (init n) = Some s ->
  aborted s = false ->
  threads s !! i = Some p -> flagged p = true ->
  threads s !! j = Some q -> (q = RdWait \/ exists l, q = RdCas l) ->
  step j (Run sp) s
  = Some {| word := word s; threads := <[j := RdWait]> (threads s);
            aborted := false |}.
Proof.
  intros Hn Hrun Hab Hi Hp Hj Hq.
  destruct (flagged_word n sched s i p Hn Hrun Hi Hp) as (Hw & Hr & Hl).
  unfold step. rewrite Hab, Hj.
  destruct Hq as [-> | [l ->]]; cbn [thread_step p64_rwlock_acquire_rd].
  - unfold wait_for_no. rewrite land_writer by lia.
    destruct (Z.ltb_spec (word s) (2 ^ 31)); [lia|]. reflexivity.
  - pose proof (proj1 (Forall_lookup _ _) Hl j _ Hj) as Hloc. cbn in Hloc.
    unfold cas. destruct (Z.eqb_spec (word s) l) as [|_]; [lia|].
    rewrite andb_false_r. reflexivity.
Qed.

Lemma X19_writer_blocks_readers_witness :
  Z.of_nat 2 < 2 ^ 31
  /\ run (writer_alone ++ [(1%nat, CallAcquireRd)]) (init 2)
     = Some (State (2 ^ 31) [WrHeld; RdWait] false)
  /\ step 1 (Run false) (State (2 ^ 31) [WrHeld; RdWait] false)
     = Some (State (2 ^ 31) [WrHeld; RdWait] false).
Proof.
  split; [reflexivity|]. split; [reflexivity|].
  exact (X19_writer_blocks_readers 2 (writer_alone ++ [(1%nat, CallAcquireRd)])
           (State (2 ^ 31) [WrHeld; RdWait] false) 0 1 WrHeld RdWait false
           eq_refl eq_refl eq_refl eq_refl eq_refl eq_refl (or_introl eq_refl)).
Defined.

(** X20: the writer gets the lock when the last reader has left.  In every
    state an interleaving reaches without an abort, the poll of a thread
    that waits in [p64_rwlock_acquire_wr] for the readers to leave returns
    from the acquire if no thread holds the lock for reading, and stays in
    the poll if one does; the word is not written. *)
Theorem X20_writer_waits_for_readers (n : nat) sched s i sp :
  Z.of_nat n < 2 ^ 31 ->
  run sched (init n) = Some s ->
  aborted s = false ->
  threads s !! i = Some WrDrain ->
  exists held : bool,
    step i (Run sp) s
    = Some {| word := word s;
              threads := <[i := if held then WrDrain else WrHeld]> (threads s);
              aborted := false |}
    /\ (held = true <-> exists j, threads s !! j = Some RdHeld).
Proof.
  intros Hn Hrun Hab Hi.
  destruct (flagged_word n sched s i WrDrain Hn Hrun Hi eq_refl) as (Hw & Hr & _).
  assert (Z.land (word s) RWLOCK_READERS = cnt holds_rd (threads s)) as Hland.
  { rewrite land_readers. symmetry. apply Z.mod_unique with (q := 1); lia. }
  unfold step. rewrite Hab, Hi. cbn [thread_step p64_rwlock_acquire_wr].
  unfold wait_for_no. rewrite Hland.
  destruct (Z.eqb_spec (cnt holds_rd (threads s)) 0) as [H0|Hne].
  - exists false. split; [reflexivity|]. split; [discriminate|].
    intros [j Hj]. pose proof (cnt_lookup holds_rd _ _ _ Hj eq_refl). lia.
  - exists true. split; [reflexivity|]. split; [|reflexivity]. intros _.
    destruct (cnt_pos holds_rd (threads s) ltac:(lia)) as (j & q & Hj & Hq).
    exists j. destruct q; try discriminate. exact Hj.
Qed.

Lemma X20_writer_waits_for_readers_witness :
  Z.of_nat 2 < 2 ^ 31
  /\ run reader_then_writer (init 2) = Some (State (2 ^ 31 + 1) [RdHeld; WrDrain] false)
  /\ exists held : bool,
       step 1 (Run false) (State (2 ^ 31 + 1) [RdHeld; WrDrain] false)
       = Some (State (2 ^ 31 + 1) [RdHeld; if held then WrDrain else WrHeld] false).
Proof.
  split; [reflexivity|]. split; [reflexivity|].
  destruct (X20_writer_waits_for_readers 2 reader_then_writer
              (State (2 ^ 31 + 1) [RdHeld; WrDrain] false) 1 false
              eq_refl eq_refl eq_refl eq_refl) as (held & Hs & _).
  exists held. exact Hs.
Defined.

End RWLockProps.

Module RingbufProps.
Import Arch Ringbuf.

(** *** Bit-level facts *)

Lemma has_both x a b :
  Z.land x (Z.lor a b) = Z.lor a b <-> has_flag x a /\ has_flag x b.
Proof.
  unfold has_flag. split.
  - intros H.
    assert (forall k, Z.testbit (Z.land x (Z.lor a b)) k = Z.testbit (Z.lor a b) k) as Hk
      by (intros k; now rewrite H).
    split; apply Z.bits_inj'; intros k _; specialize (Hk k);
      rewrite Z.land_spec, !Z.lor_spec in Hk; rewrite Z.land_spec;
      destruct (Z.testbit x k), (Z.testbit a k), (Z.testbit b k);
      simpl in *; congruence.
  - intros [Ha Hb]. rewrite Z.land_lor_distr_r, Ha, Hb. reflexivity.
Qed.

Lemma lor_nonzero_l a b : a <> 0 -> Z.lor a b <> 0.
Proof. intros Ha H. apply Z.lor_eq_0_iff in H. tauto. Qed.

(** *** Allocation *)

Section Alloc.
Context `{FL : ringbuf_flags}.

Lemma invalid_args_reflect nelems flags :
  invalid_argsb nelems flags = true <-> invalid_args nelems flags.
Proof.
  unfold invalid_argsb, invalid_args.
  rewrite !orb_true_iff, negb_true_iff, !Z.eqb_eq, Z.eqb_neq, Z.gtb_ltb, Z.ltb_lt,
    !has_both.
  unfold MAXELEMS. intuition lia.
Qed.

Lemma alloc_cases p ring0 nelems flags esize w :
  p64_ringbuf_alloc p ring0 nelems flags esize w =
  if (nelems =? 0) || (nelems >? MAXELEMS) then
    Ret NULL {| heap := heap w;
                errors := errors w ++ [{| module_name := "ringbuf";
                                          message := "invalid number of elements";
                                          value := nelems |}];
                cas_failures := cas_failures w |}
  else if invalid_argsb nelems flags then
    Ret NULL {| heap := heap w;
                errors := errors w ++ [{| module_name := "ringbuf";
                                          message := "invalid flags";
                                          value := flags |}];
                cas_failures := cas_failures w |}
  else if p =? NULL then Ret NULL w
  else Ret (handle_of p flags)
         {| heap := <[p := fresh_ring ring0 nelems]> (heap w);
            errors := errors w; cas_failures := cas_failures w |}.
Proof.
  unfold p64_ringbuf_alloc, invalid_argsb.
  destruct ((nelems =? 0) || (nelems >? MAXELEMS)) eqn:E1; [reflexivity|].
  simpl.
  destruct (negb (Z.land flags (Z.lnot SUPPORTED_FLAGS) =? 0)
            || _ || _ || _ || _) eqn:E2; [reflexivity|].
  destruct (p =? NULL); reflexivity.
Qed.

(** C1: [p64_ringbuf_alloc] returns [NULL] after calling the error
    reporter exactly when [nelems] is zero or above [2^32-1], [flags]
    has a bit outside the supported set, or [flags] contains one of
    the four exclusive pairs; on every other input, if the underlying
    allocation succeeds, it returns a non-null handle (and reports
    nothing). *)
Theorem C1_alloc_validation p ring0 nelems flags esize w :
  (rejected (p64_ringbuf_alloc p ring0 nelems flags esize w) w
     <-> invalid_args nelems flags)
  /\ (~ invalid_args nelems flags -> p <> NULL ->
        exists h w', p64_ringbuf_alloc p ring0 nelems flags esize w = Ret h w'
                     /\ h <> NULL /\ errors w' = errors w
                     /\ heap w' !! p = Some (fresh_ring ring0 nelems)).
Proof.
  rewrite alloc_cases. rewrite <- invalid_args_reflect.
  destruct ((nelems =? 0) || (nelems >? MAXELEMS)) eqn:E1.
  { assert (invalid_argsb nelems flags = true) as Hb
      by (unfold invalid_argsb; rewrite E1; reflexivity).
    split; [|intros Hn; congruence].
    split; [intros _; exact Hb|]. intros _.
    eexists _, _. split; [reflexivity|]. split; reflexivity. }
  destruct (invalid_argsb nelems flags) eqn:E2.
  { split; [|intros Hn; congruence].
    split; [intros _; reflexivity|]. intros _.
    eexists _, _. split; [reflexivity|]. split; reflexivity. }
  split.
  - split; [|discriminate].
    intros (w' & e & Hr & He & _).
    destruct (Z.eqb_spec p NULL) as [Hp|Hp].
    + injection Hr as <-. exfalso.
      apply (f_equal (@length report)) in He. rewrite length_app in He.
      simpl in He. lia.
    + injection Hr as Hh _. exfalso.
      unfold handle_of in Hh. revert Hh.
      apply lor_nonzero_l, lor_nonzero_l, Hp.
  - intros _ Hp. destruct (Z.eqb_spec p NULL) as [Hp'|_]; [contradiction|].
    eexists _, _. split; [reflexivity|].
    split; [apply lor_nonzero_l, lor_nonzero_l, Hp|].
    split; [reflexivity|]. simpl. apply lookup_insert_eq.
Qed.

End Alloc.

(** *** Machine arithmetic *)

Lemma u32_range x : 0 <= u32 x < 2 ^ 32.
Proof. unfold u32. apply Z.mod_pos_bound. lia. Qed.

Lemma u32_small x : 0 <= x < 2 ^ 32 -> u32 x = x.
Proof. unfold u32. apply Z.mod_small. Qed.

Lemma u32_idem x : u32 (u32 x) = u32 x.
Proof. apply u32_small, u32_range. Qed.

Lemma to_int_small x : 0 <= x < 2 ^ 31 -> to_int x = x.
Proof.
  intros Hx. unfold to_int. rewrite u32_small by lia.
  destruct (Z.ltb_spec x (2 ^ 31)); lia.
Qed.

Lemma testbit_above x k : 0 <= x < 2 ^ 32 -> 32 <= k -> Z.testbit x k = false.
Proof.
  intros Hx Hk. destruct (Z.eq_dec x 0) as [->|Hne]; [apply Z.bits_0|].
  apply Z.bits_above_log2; [lia|].
  assert (Z.log2 x < 32) by (apply Z.log2_lt_pow2; lia). lia.
Qed.

Lemma lor_halves a b :
  0 <= a < 2 ^ 32 -> 0 <= b -> Z.lor a (Z.shiftl b 32) = a + b * 2 ^ 32.
Proof.
  intros Ha Hb.
  assert (Z.land a (Z.shiftl b 32) = 0) as H0.
  { apply Z.bits_inj'. intros k Hk. rewrite Z.land_spec, Z.bits_0.
    destruct (Z.lt_ge_cases k 32).
    - rewrite Z.shiftl_spec_low by lia. apply andb_false_r.
    - rewrite (testbit_above a k) by lia. reflexivity. }
  rewrite <- Z.lxor_lor, <- Z.add_nocarry_lxor by exact H0.
  rewrite Z.shiftl_mul_pow2 by lia. reflexivity.
Qed.

Lemma load64_val c p :
  0 <= p -> load64 {| cur := c; pend := p |} = u32 c + p * 2 ^ 32.
Proof.
  intros Hp. unfold load64, TOLOWER, TOUPPER. simpl.
  apply lor_halves; [apply u32_range | exact Hp].
Qed.

Lemma LOWER_load64 c p :
  0 <= c < 2 ^ 32 -> 0 <= p -> LOWER (load64 {| cur := c; pend := p |}) = c.
Proof.
  intros Hc Hp. rewrite load64_val by exact Hp. unfold LOWER.
  rewrite (u32_small c Hc). unfold u32.
  rewrite Z.mod_add by lia. apply Z.mod_small. exact Hc.
Qed.

Lemma UPPER_load64 c p :
  0 <= c < 2 ^ 32 -> 0 <= p < 2 ^ 32 -> UPPER (load64 {| cur := c; pend := p |}) = p.
Proof.
  intros Hc Hp. rewrite load64_val by lia. unfold UPPER.
  rewrite (u32_small c Hc), Z.shiftr_div_pow2 by lia.
  rewrite Z.div_add by lia. rewrite Z.div_small by exact Hc.
  apply u32_small. lia.
Qed.

Lemma store64_load64 c p :
  0 <= c < 2 ^ 32 -> 0 <= p < 2 ^ 32 ->
  store64 (load64 {| cur := c; pend := p |}) = {| cur := c; pend := p |}.
Proof.
  intros Hc Hp. unfold store64.
  rewrite LOWER_load64, UPPER_load64 by lia. reflexivity.
Qed.

Lemma load64_inj c p c' p' :
  0 <= c < 2 ^ 32 -> 0 <= p < 2 ^ 32 -> 0 <= c' < 2 ^ 32 -> 0 <= p' < 2 ^ 32 ->
  load64 {| cur := c; pend := p |} = load64 {| cur := c'; pend := p' |} ->
  c = c' /\ p = p'.
Proof.
  intros Hc Hp Hc' Hp' H.
  apply (f_equal store64) in H. rewrite !store64_load64 in H by assumption.
  injection H as -> ->. split; reflexivity.
Qed.

(** *** Updating a field with the value it holds *)

Lemma set_cur_same sd o : set_cur sd (cur (head (endpoint_of sd o))) o = o.
Proof. destruct o as [[[? ?] ? ?] ? [[? ?] ? ?] ? ?], sd; reflexivity. Qed.

Lemma set_tail_same sd o : set_tail sd (tail (endpoint_of sd o)) o = o.
Proof. destruct o as [[[? ?] ? ?] ? [[? ?] ? ?] ? ?], sd; reflexivity. Qed.

Lemma set_cur_head sd v o p :
  pend (head (endpoint_of sd o)) = p ->
  set_cur sd v o = set_head sd {| cur := v; pend := p |} o.
Proof. intros <-. reflexivity. Qed.

(** *** Release on a quiet cell *)

Lemma release_nonblk_step_inorder idx n :
  0 <= idx < 2 ^ 32 ->
  release_nonblk_step idx n InOrder (load64 {| cur := idx; pend := 0 |})
  = (Released, load64 {| cur := u32 (idx + n); pend := 0 |}).
Proof.
  intros Hi. rewrite !load64_val by lia. rewrite u32_idem, (u32_small idx Hi), !Z.add_0_r.
  unfold release_nonblk_step, cas, TOLOWER. rewrite (u32_small idx Hi), Z.eqb_refl.
  reflexivity.
Qed.

Lemma release_slots_quiet loc idx n lo flags m :
  0 <= idx < 2 ^ 32 ->
  head (endpoint_of loc (obj m)) = {| cur := idx; pend := 0 |} ->
  release_slots loc idx n lo flags m
  = Ret tt {| obj := set_head loc {| cur := u32 (idx + n); pend := 0 |} (obj m);
              spurious := spurious m |}.
Proof.
  intros Hi Hh. unfold release_slots, bind.
  assert ((if negb (Z.land flags FLAG_BLK =? 0)
           then wait_until_equal_w_bkoff loc idx else ret tt) m = Ret tt m) as ->.
  { destruct (negb (Z.land flags FLAG_BLK =? 0)); [|reflexivity].
    unfold wait_until_equal_w_bkoff, bind, load_cur, gets. rewrite Hh. simpl.
    rewrite Z.eqb_refl. reflexivity. }
  destruct (Z.land flags FLAG_NONBLK =? 0).
  - unfold store_cur, modify. rewrite (set_cur_head loc _ _ 0) by (rewrite Hh; reflexivity).
    reflexivity.
  - unfold gets. rewrite Hh. unfold release_nonblk_alone.
    rewrite release_nonblk_step_inorder by exact Hi.
    unfold modify. rewrite store64_load64 by (try apply u32_range; lia). reflexivity.
Qed.

(** *** Freeing *)

(** C10: [p64_ringbuf_free(NULL)] does nothing: it returns with the heap
    and the error log as they were, and no pointer is looked up. *)
Theorem C10_free_null w : p64_ringbuf_free NULL w = Ret tt w.
Proof. reflexivity. Qed.

(** C9: for a non-null handle of a live ring buffer, [p64_ringbuf_free]
    reports "ring buffer not empty" and leaves the ring buffer allocated
    and unchanged exactly when [prod.head.cur] and [cons.head.cur]
    differ; when they are equal the block is freed and nothing is
    reported, and the single-consumer acquire, which compares the same two
    cells, finds no element. *)
Theorem C9_free_not_empty rb w o :
  rb <> NULL ->
  heap w !! RB rb = Some o ->
  ((exists w', p64_ringbuf_free rb w = Ret tt w'
               /\ errors w' = errors w ++ [not_empty_report (RB rb)]
               /\ heap w' = heap w)
     <-> cur (head (prod o)) <> cur (head (cons o)))
  /\ (cur (head (prod o)) = cur (head (cons o)) ->
        (exists w', p64_ringbuf_free rb w = Ret tt w'
                    /\ errors w' = errors w
                    /\ heap w' = delete (RB rb) (heap w)
                    /\ heap w' !! RB rb = None)
        /\ forall msk n m, obj m = o ->
              acquire_slots Cons Prod msk n 0 m = Ret no_slots m).
Proof.
  intros Hrb Hh.
  assert (p64_ringbuf_free rb w =
          if negb (cur (head (prod o)) =? cur (head (cons o)))
          then Ret tt {| heap := heap w;
                         errors := errors w ++ [not_empty_report (RB rb)];
                         cas_failures := cas_failures w |}
          else Ret tt {| heap := delete (RB rb) (heap w); errors := errors w;
                         cas_failures := cas_failures w |}) as Hfree.
  { unfold p64_ringbuf_free. destruct (Z.eqb_spec rb NULL) as [|_]; [contradiction|].
    simpl. unfold bind, p64_mfree. rewrite Hh.
    destruct (negb (cur (head (prod o)) =? cur (head (cons o)))); reflexivity. }
  rewrite Hfree.
  destruct (Z.eqb_spec (cur (head (prod o))) (cur (head (cons o)))) as [He|Hne]; simpl.
  - split.
    + split; [|intros Hc; contradiction].
      intros (w' & Hr & Herr & _). injection Hr as <-. simpl in Herr.
      apply (f_equal (@length report)) in Herr. rewrite length_app in Herr.
      simpl in Herr. lia.
    + intros _. split.
      * eexists. split; [reflexivity|]. split; [reflexivity|].
        split; [reflexivity|]. simpl. apply lookup_delete_eq.
      * intros msk n m Hm. unfold acquire_slots, bind, load_cur, gets. rewrite Hm.
        simpl. rewrite He.
        replace (0 + cur (head (cons o)) - cur (head (cons o))) with 0 by lia.
        change (to_int (u32 0)) with 0. unfold MIN.
        destruct (Z.ltb_spec n 0) as [Hn|Hn]; [|reflexivity].
        destruct (Z.leb_spec n 0); [reflexivity | lia].
  - split.
    + split; [intros _; exact Hne|]. intros _.
      eexists. split; [reflexivity|]. split; reflexivity.
    + intros Hc. contradiction.
Qed.

Lemma C9_free_not_empty_witness :
  let o := fresh_ring (fun _ => 0) 4 in
  let w := {| heap := {[ 4096 := set_cur Cons 1 o ]}; errors := []; cas_failures := [] |} in
  4097 <> NULL
  /\ heap w !! RB 4097 = Some (set_cur Cons 1 o)
  /\ exists w', p64_ringbuf_free 4097 w = Ret tt w'
                /\ errors w' = errors w ++ [not_empty_report (RB 4097)]
                /\ heap w' = heap w.
Proof.
  intros o w.
  assert (4097 <> NULL) as H1 by (unfold NULL; lia).
  assert (heap w !! RB 4097 = Some (set_cur Cons 1 o)) as H2 by reflexivity.
  split; [exact H1|]. split; [exact H2|].
  apply (proj2 (proj1 (C9_free_not_empty 4097 w (set_cur Cons 1 o) H1 H2))).
  simpl. lia.
Defined.

(** *** The pending mask *)

Lemma below_pow2_32 x :
  0 <= x -> (forall k, 32 <= k -> Z.testbit x k = false) -> x < 2 ^ 32.
Proof.
  intros Hx Hb. destruct (Z.lt_ge_cases x (2 ^ 32)) as [|Hge]; [assumption|].
  assert (32 <= Z.log2 x) as Hl by (apply Z.log2_le_pow2; lia).
  pose proof (Z.bit_log2 x ltac:(lia)) as Ht.
  rewrite (Hb _ Hl) in Ht. discriminate.
Qed.

Lemma ctz_from_spec fuel : forall k x,
  0 <= k ->
  (exists j, k <= j < k + Z.of_nat fuel /\ Z.testbit x j = true) ->
  k <= ctz_from fuel k x < k + Z.of_nat fuel
  /\ Z.testbit x (ctz_from fuel k x) = true
  /\ forall j, k <= j < ctz_from fuel k x -> Z.testbit x j = false.
Proof.
  induction fuel as [|fuel IH]; intros k x Hk (j & Hj & Hb); [lia|].
  simpl. destruct (Z.testbit x k) eqn:E.
  - split; [lia|]. split; [exact E|]. intros; lia.
  - assert (j <> k) by (intros ->; congruence).
    destruct (IH (k + 1) x ltac:(lia)) as (H1 & H2 & H3).
    { exists j. split; [lia | exact Hb]. }
    split; [lia|]. split; [exact H2|].
    intros i Hi. destruct (Z.eq_dec i k) as [->|]; [exact E|]. apply H3. lia.
Qed.

Lemma window_bits offset n k :
  0 <= offset -> 0 <= n -> 0 <= k ->
  Z.testbit (Z.shiftl (Z.ones n) offset) k = in_window offset n k.
Proof.
  intros Ho Hn Hk. rewrite Z.shiftl_spec by exact Hk. unfold in_window.
  destruct (Z.leb_spec offset k); simpl.
  - destruct (Z.ltb_spec k (offset + n)).
    + apply Z.ones_spec_low. lia.
    + apply Z.ones_spec_high. lia.
  - apply Z.testbit_neg_r. lia.
Qed.

Lemma land_1_bit0 x : Z.land x 1 = 0 <-> Z.testbit x 0 = false.
Proof.
  change 1 with (Z.ones 1). rewrite Z.land_ones by lia.
  change (2 ^ 1) with 2. pose proof (Z.bit0_mod x) as H.
  destruct (Z.testbit x 0); simpl in H; rewrite <- H;
    split; intros; try reflexivity; discriminate.
Qed.

(** What the second loop of [release_slots] computes from a cell value,
    under the conditions its assertions state. *)
Lemma pending_update_spec idx n c p :
  0 <= idx < 2 ^ 32 -> 0 <= n -> 0 <= c < 2 ^ 32 -> 0 <= p < 2 ^ 32 ->
  n < PENDMAX ->
  u32 (idx - c) + n <= PENDMAX ->
  (forall k, u32 (idx - c) <= k < u32 (idx - c) + n -> Z.testbit p k = false) ->
  exists newpend inorder,
    (forall k, 0 <= k ->
       Z.testbit newpend k = Z.testbit p k || in_window (u32 (idx - c)) n k)
    /\ 0 <= inorder <= PENDMAX
    /\ (forall k, 0 <= k < inorder -> Z.testbit newpend k = true)
    /\ Z.testbit newpend inorder = false
    /\ pending_update idx n (load64 {| cur := c; pend := p |})
       = Some (load64 {| cur := u32 (c + inorder); pend := Z.shiftr newpend inorder |})
    /\ 0 <= Z.shiftr newpend inorder < 2 ^ 32.
Proof.
  intros Hidx Hn Hc Hp Hlt Hfit Hfree.
  set (offset := u32 (idx - c)) in *.
  pose proof (u32_range (idx - c)) as Hoff. fold offset in Hoff.
  set (W := Z.shiftl (Z.ones n) offset).
  assert (forall k, 0 <= k -> Z.testbit W k = in_window offset n k) as HW
    by (intros k Hk; apply window_bits; lia).
  assert (0 <= W) as HW0 by (apply Z.shiftl_nonneg; rewrite Z.ones_equiv;
                             pose proof (Z.pow_pos_nonneg 2 n); lia).
  assert (W < 2 ^ 32) as HW1.
  { apply below_pow2_32; [exact HW0|]. intros k Hk. rewrite HW by lia.
    unfold in_window, PENDMAX in *.
    destruct (Z.leb_spec offset k), (Z.ltb_spec k (offset + n)); simpl; try reflexivity; lia. }
  set (newpend := Z.lor p W).
  assert (forall k, 0 <= k -> Z.testbit newpend k = Z.testbit p k || in_window offset n k)
    as Hnew by (intros k Hk; unfold newpend; rewrite Z.lor_spec, HW by lia; reflexivity).
  assert (0 <= newpend) as Hnp0 by (apply Z.lor_nonneg; lia).
  assert (newpend < 2 ^ 32) as Hnp1.
  { apply below_pow2_32; [exact Hnp0|]. intros k Hk. unfold newpend.
    rewrite Z.lor_spec, (testbit_above p k), (testbit_above W k) by lia. reflexivity. }
  set (notpend := Z.land (Z.lnot newpend) (Z.ones 64)).
  assert (forall k, 0 <= k < 64 -> Z.testbit notpend k = negb (Z.testbit newpend k)) as Hnot.
  { intros k Hk. unfold notpend.
    rewrite Z.land_spec, Z.lnot_spec, Z.ones_spec_low by lia. apply andb_true_r. }
  destruct (ctz_from_spec 64 0 notpend ltac:(lia)) as (Hr & Hbit & Hleast).
  { exists 32. split; [lia|]. rewrite Hnot by lia.
    rewrite (testbit_above newpend 32) by lia. reflexivity. }
  fold (builtin_ctzl notpend) in Hr, Hbit, Hleast.
  set (inorder := builtin_ctzl notpend) in *.
  assert (inorder <= 32) as Hin.
  { destruct (Z.le_gt_cases inorder 32) as [|Hgt]; [assumption|].
    specialize (Hleast 32 ltac:(lia)). rewrite Hnot in Hleast by lia.
    rewrite (testbit_above newpend 32) in Hleast by lia. discriminate. }
  assert (Z.testbit newpend inorder = false) as Hstop.
  { rewrite Hnot in Hbit by lia. now apply negb_true_iff in Hbit. }
  set (q := Z.shiftr newpend inorder).
  assert (0 <= q < 2 ^ 32) as Hq.
  { split; [apply Z.shiftr_nonneg; exact Hnp0|].
    apply below_pow2_32; [apply Z.shiftr_nonneg; exact Hnp0|].
    intros k Hk. unfold q. rewrite Z.shiftr_spec by lia.
    apply testbit_above; lia. }
  exists newpend, inorder.
  split; [exact Hnew|]. split; [unfold PENDMAX; lia|]. split.
  { intros k Hk. specialize (Hleast k ltac:(lia)). rewrite Hnot in Hleast by lia.
    now apply negb_false_iff in Hleast. }
  split; [exact Hstop|]. split; [|exact Hq].
  assert (u32 (Z.shiftl (u32 (Z.shiftl 1 n - 1)) offset) = W) as HWc.
  { rewrite Z.shiftl_1_l. replace (2 ^ n - 1) with (Z.ones n)
      by (rewrite Z.ones_equiv; lia).
    rewrite (u32_small (Z.ones n)).
    - apply u32_small. fold W. lia.
    - rewrite Z.ones_equiv. unfold PENDMAX in *.
      assert (2 ^ n <= 2 ^ 32) by (apply Z.pow_le_mono_r; lia).
      pose proof (Z.pow_pos_nonneg 2 n). lia. }
  assert (Z.land p W = 0) as Hdisj.
  { apply Z.bits_inj'. intros k Hk. rewrite Z.land_spec, Z.bits_0, HW by lia.
    unfold in_window.
    destruct (Z.leb_spec offset k), (Z.ltb_spec k (offset + n));
      cbn [andb]; rewrite ?andb_false_r; try reflexivity.
    rewrite Hfree by lia. reflexivity. }
  assert (notpend <> 0) as Hnz.
  { intros H0. rewrite H0, Z.bits_0 in Hbit. discriminate. }
  assert (Z.lor (TOLOWER (load64 {| cur := c; pend := p |} + inorder)) (TOUPPER q)
          = load64 {| cur := u32 (c + inorder); pend := q |}) as Hneu.
  { unfold load64 at 2. cbn [cur pend]. f_equal. unfold TOLOWER. rewrite u32_idem.
    rewrite load64_val by lia. rewrite (u32_small c) by lia. unfold u32.
    replace (c + p * 2 ^ 32 + inorder) with (c + inorder + p * 2 ^ 32) by lia.
    apply Z.mod_add. lia. }
  assert (Z.land q 1 = 0) as Hlsb.
  { apply land_1_bit0. unfold q. rewrite Z.shiftr_spec by lia. exact Hstop. }
  unfold pending_update. cbv zeta.
  rewrite LOWER_load64, UPPER_load64 by lia. fold offset.
  rewrite (proj2 (Z.ltb_lt n PENDMAX) Hlt). cbn [negb].
  rewrite (u32_small (n + offset)) by (unfold PENDMAX in *; lia).
  rewrite (proj2 (Z.leb_le (n + offset) PENDMAX)) by lia. cbn [negb].
  rewrite HWc, Hdisj, Z.eqb_refl. cbn [negb].
  fold newpend. fold notpend.
  rewrite (proj2 (Z.eqb_neq notpend 0) Hnz).
  fold inorder.
  rewrite (proj2 (Z.leb_le inorder PENDMAX)) by (unfold PENDMAX; lia). cbn [negb].
  fold q. rewrite Hneu.
  rewrite UPPER_load64 by (try apply u32_range; lia).
  rewrite Hlsb, Z.eqb_refl. reflexivity.
Qed.

(** *** The non-blocking release, step by step *)

Lemma u32_sub_l a b : u32 (u32 a - b) = u32 (a - b).
Proof. unfold u32. apply Zminus_mod_idemp_l. Qed.

Lemma inorder_cell idx : 0 <= idx < 2 ^ 32 -> TOLOWER idx = load64 {| cur := idx; pend := 0 |}.
Proof.
  intros Hi. rewrite load64_val by lia. unfold TOLOWER. lia.
Qed.

Lemma release_nonblk_step_miss idx n c p :
  0 <= idx < 2 ^ 32 -> 0 <= c < 2 ^ 32 -> 0 <= p < 2 ^ 32 ->
  ~ (c = idx /\ p = 0) ->
  release_nonblk_step idx n InOrder (load64 {| cur := c; pend := p |})
  = if u32 (idx + n - c) <=? PENDMAX
    then (Pending (load64 {| cur := c; pend := p |}), load64 {| cur := c; pend := p |})
    else (InOrder, load64 {| cur := c; pend := p |}).
Proof.
  intros Hi Hc Hp Hne. unfold release_nonblk_step, cas.
  assert (load64 {| cur := c; pend := p |} <> TOLOWER idx) as Hd.
  { rewrite (inorder_cell idx Hi). intros He.
    apply load64_inj in He; try lia. }
  rewrite (proj2 (Z.eqb_neq _ _) Hd). cbn [negb andb].
  cbv beta iota zeta.
  rewrite LOWER_load64 by lia.
  unfold LOWER, TOLOWER. rewrite u32_idem, u32_sub_l.
  reflexivity.
Qed.

Lemma release_nonblk_step_retry idx n old loc :
  loc <> old ->
  release_nonblk_step idx n (Pending old) loc = (Pending loc, loc)
  \/ release_nonblk_step idx n (Pending old) loc = (AssertFailed, loc).
Proof.
  intros Hne. unfold release_nonblk_step, cas.
  destruct (pending_update idx n old); [|right; reflexivity].
  rewrite (proj2 (Z.eqb_neq _ _) Hne). left. reflexivity.
Qed.

(** C3: the non-blocking release of [n] slots at [idx] on the cell
    [{cur; pend}].  It first tries one 64-bit exchange of [{idx, 0}] for
    [{idx + n, 0}] and is done when that succeeds.  When it fails and
    [(idx + n) - cur] exceeds [PENDMAX] it stays in the first loop with
    the cell untouched; otherwise it goes on to publish out of order: the
    new pending mask is the old one with the bits
    [[idx - cur, idx - cur + n)] set, [inorder] is the number of its
    trailing ones, and one exchange stores [cur + inorder] with the mask
    shifted right by [inorder]; when that exchange meets a changed cell it
    is tried again from the value found. *)
Theorem C3_release_nonblocking idx n c p :
  0 <= idx < 2 ^ 32 -> 0 <= n < 2 ^ 32 -> 0 <= c < 2 ^ 32 -> 0 <= p < 2 ^ 32 ->
  let loc := load64 {| cur := c; pend := p |} in
  let offset := u32 (idx - c) in
  (c = idx /\ p = 0 ->
     release_nonblk_step idx n InOrder loc
     = (Released, load64 {| cur := u32 (idx + n); pend := 0 |}))
  /\ (~ (c = idx /\ p = 0) -> u32 (idx + n - c) > PENDMAX ->
       release_nonblk_step idx n InOrder loc = (InOrder, loc))
  /\ (~ (c = idx /\ p = 0) -> u32 (idx + n - c) <= PENDMAX ->
       release_nonblk_step idx n InOrder loc = (Pending loc, loc))
  /\ (n < PENDMAX -> offset + n <= PENDMAX ->
       (forall k, offset <= k < offset + n -> Z.testbit p k = false) ->
       exists newpend inorder,
         (forall k, 0 <= k ->
            Z.testbit newpend k = Z.testbit p k || in_window offset n k)
         /\ 0 <= inorder <= PENDMAX
         /\ (forall k, 0 <= k < inorder -> Z.testbit newpend k = true)
         /\ Z.testbit newpend inorder = false
         /\ release_nonblk_step idx n (Pending loc) loc
            = (Released,
               load64 {| cur := u32 (c + inorder); pend := Z.shiftr newpend inorder |})
         /\ forall loc', loc' <> loc ->
              release_nonblk_step idx n (Pending loc) loc' = (Pending loc', loc'))
  /\ (~ (c = idx /\ p = 0) -> offset + n <= PENDMAX ->
       (forall k, offset <= k < offset + n -> Z.testbit p k = false) ->
       n < PENDMAX).
Proof.
  intros Hi Hn Hc Hp loc offset.
  split; [|split; [|split; [|split]]].
  - intros [-> ->]. apply release_nonblk_step_inorder. exact Hi.
  - intros Hne Hd. unfold loc. rewrite release_nonblk_step_miss by assumption.
    destruct (Z.leb_spec (u32 (idx + n - c)) PENDMAX); [lia | reflexivity].
  - intros Hne Hd. unfold loc. rewrite release_nonblk_step_miss by assumption.
    destruct (Z.leb_spec (u32 (idx + n - c)) PENDMAX); [reflexivity | lia].
  - intros Hlt Hfit Hfree.
    destruct (pending_update_spec idx n c p Hi ltac:(lia) Hc Hp Hlt Hfit Hfree)
      as (newpend & inorder & Hbits & Hrange & Hones & Hstop & Hupd & Hq).
    exists newpend, inorder.
    split; [exact Hbits|]. split; [exact Hrange|]. split; [exact Hones|].
    split; [exact Hstop|]. fold loc in Hupd. split.
    + unfold release_nonblk_step, cas. rewrite Hupd, Z.eqb_refl. reflexivity.
    + intros loc' Hne. unfold release_nonblk_step, cas. rewrite Hupd.
      rewrite (proj2 (Z.eqb_neq _ _) Hne). reflexivity.
  - intros Hne Hfit Hfree.
    destruct (Z.lt_ge_cases n PENDMAX) as [|Hge]; [assumption|]. exfalso.
    pose proof (u32_range (idx - c)) as Ho. fold offset in Ho.
    unfold PENDMAX in *.
    assert (offset = 0) as Ho0 by lia.
    apply Hne. split.
    + unfold offset, u32 in Ho0.
      apply Z.mod_divide in Ho0; [|lia]. destruct Ho0 as [z Hz].
      assert (z = 0) by nia. lia.
    + apply Z.bits_inj'. intros k Hk. rewrite Z.bits_0.
      destruct (Z.lt_ge_cases k 32).
      * apply Hfree. lia.
      * apply testbit_above; lia.
Qed.

Lemma C3_release_nonblocking_witness :
  0 <= 5 < 2 ^ 32 /\ 0 <= 2 < 2 ^ 32 /\ 0 <= 3 < 2 ^ 32 /\ 0 <= 0 < 2 ^ 32
  /\ release_nonblk_step 5 2 InOrder (load64 {| cur := 3; pend := 0 |})
     = (Pending (load64 {| cur := 3; pend := 0 |}), load64 {| cur := 3; pend := 0 |}).
Proof.
  repeat (split; [lia|]).
  apply (proj1 (proj2 (proj2
    (C3_release_nonblocking 5 2 3 0 ltac:(lia) ltac:(lia) ltac:(lia) ltac:(lia))))).
  - intros [H _]. discriminate H.
  - vm_compute. discriminate.
Defined.

(** Two producers of one element each, the second finishing first: its
    slot waits in the pending mask, and the release of the first advances
    [cur] by two. *)
Example two_nbenq_out_of_order :
  let l0 := load64 {| cur := 0; pend := 0 |} in
  let '(pb, l1) := release_nonblk_run 1 1 [undisturbed; undisturbed] InOrder l0 in
  let '(pa, l2) := release_nonblk_run 0 1 [undisturbed; undisturbed] InOrder l1 in
  pb = Released /\ store64 l1 = {| cur := 0; pend := 2 |}
  /\ pa = Released /\ store64 l2 = {| cur := 2; pend := 0 |}.
Proof. vm_compute. repeat split. Qed.

(** *** Release through the handle *)

Lemma release_always_true rb r enqueue w b w' :
  enqueue = true \/ Z.land (CONS_FLAGS rb) FLAG_LOCKFREE = 0 ->
  p64_ringbuf_release_ rb r enqueue w = Ret b w' -> b = true.
Proof.
  intros Hmode. unfold p64_ringbuf_release_, with_rb.
  destruct (heap w !! RB rb) as [o|]; [|discriminate].
  assert (forall c : ST mach unit, forall m b' m',
            bind c (fun _ => ret true) m = Ret b' m' -> b' = true) as Hseq.
  { intros c m b' m'. unfold bind, ret. destruct (c m); [|discriminate].
    intros [= <- _]. reflexivity. }
  destruct enqueue.
  - destruct (bind _ _ _) as [b0 m0|] eqn:E; [|discriminate].
    intros [= <- _]. exact (Hseq _ _ _ _ E).
  - destruct Hmode as [|H0]; [discriminate|]. rewrite H0. simpl.
    destruct (bind _ _ _) as [b0 m0|] eqn:E; [|discriminate].
    intros [= <- _]. exact (Hseq _ _ _ _ E).
Qed.

(** C8, as the specification states it, fails: on a lock-free ring
    buffer that holds one element, [p64_ringbuf_acquire_(rb, 1, false)]
    exchanges nothing, it returns the range at [prod.head.cur] and leaves
    the ring buffer as it was, [prod.head.cur] still at 0; the release
    work is done by [p64_ringbuf_release_] alone, whose exchange moves
    [prod.head.cur] from 0 to 1. *)
Lemma C8_counterexample :
  ~ (forall h w r rg w' o',
       @after_enqueue sample_flags 16 4 65 = Some (h, w) ->
       p64_ringbuf_acquire_ h 1 false w = Ret (r, rg) w' ->
       heap w' !! RB h = Some o' ->
       cur (head (prod o')) = u32 (index r + actual r))
  /\ exists h w o w2 o2,
       @after_enqueue sample_flags 16 4 65 = Some (h, w)
       /\ Z.land (CONS_FLAGS h) FLAG_LOCKFREE <> 0
       /\ heap w !! RB h = Some o
       /\ cur (head (prod o)) = 0
       /\ p64_ringbuf_acquire_ h 1 false w
          = Ret ({| index := 0; actual := 1; mask := 3 |}, RB h) w
       /\ p64_ringbuf_release_ h {| index := 0; actual := 1; mask := 3 |} false w
          = Ret true w2
       /\ heap w2 !! RB h = Some o2
       /\ cur (head (prod o2)) = 1.
Proof.
  split.
  - intros H.
    eassert (cur (head (prod _)) = u32 (index _ + actual _)) as H1.
    { eapply H.
      - vm_compute. reflexivity.
      - vm_compute. reflexivity.
      - vm_compute. reflexivity. }
    vm_compute in H1. discriminate H1.
  - eexists _, _, _, _, _.
    split; [vm_compute; reflexivity|].
    split; [vm_compute; discriminate|].
    split; [vm_compute; reflexivity|].
    split; [reflexivity|].
    split; [vm_compute; reflexivity|].
    split; [vm_compute; reflexivity|].
    split; [vm_compute; reflexivity | reflexivity].
Qed.

(** C8 (amended): on a ring buffer with the lock-free dequeue flag,
    [p64_ringbuf_acquire_(rb, num, false)] exchanges nothing and writes
    nothing: it returns the range at [prod.head.cur], or no slot, and
    leaves the state as it was.  [p64_ringbuf_release_(rb, r, false)]
    makes the only exchange: it returns whether its exchange of
    [prod.head.cur] from [r.index] to [r.index + r.actual] succeeded and
    changes nothing else; in every other case [p64_ringbuf_release_]
    returns nothing but [true], and it does return when the cell to
    release is at [r.index] with no slot pending. *)
Theorem C8_release_lockfree rb r w o :
  heap w !! RB rb = Some o ->
  (Z.land (CONS_FLAGS rb) FLAG_LOCKFREE <> 0 ->
     (forall num,
        p64_ringbuf_acquire_ rb num false w
        = Ret (let act := MIN (to_int num)
                            (to_int (u32 (cur (head (cons o)) - cur (head (prod o))))) in
               if act <=? 0 then (no_slots, NULL)
               else ({| index := cur (head (prod o)); actual := act;
                        mask := cons_mask o |}, RB rb)) w)
     /\ let success := cas_succeeds (cas_failures w) (cur (head (prod o))) (index r) in
        p64_ringbuf_release_ rb r false w
        = Ret success
            {| heap := <[RB rb := if success
                                  then set_cur Prod (u32 (index r + actual r)) o
                                  else o]> (heap w);
               errors := errors w;
               cas_failures := tl (cas_failures w) |})
  /\ (forall enqueue,
        enqueue = true \/ Z.land (CONS_FLAGS rb) FLAG_LOCKFREE = 0 ->
        (forall b w', p64_ringbuf_release_ rb r enqueue w = Ret b w' -> b = true)
        /\ (0 <= index r < 2 ^ 32 ->
            head (endpoint_of (if enqueue then Cons else Prod) o)
              = {| cur := index r; pend := 0 |} ->
            exists w', p64_ringbuf_release_ rb r enqueue w = Ret true w')).
Proof.
  intros Hh. split.
  - intros Hlf. split.
    { intros num. unfold p64_ringbuf_acquire_, with_rb. cbv zeta. rewrite Hh.
      destruct (Z.eqb_spec (Z.land (CONS_FLAGS rb) FLAG_LOCKFREE) 0) as [|_];
        [contradiction|].
      cbn [negb]. unfold load_cur. unfold bind, gets, ret. cbv beta iota zeta.
      cbn [obj endpoint_of spurious].
      destruct (_ <=? 0); cbn [obj spurious]; rewrite insert_id by exact Hh;
        destruct w; reflexivity. }
    unfold p64_ringbuf_release_, with_rb. rewrite Hh.
    destruct (Z.eqb_spec (Z.land (CONS_FLAGS rb) FLAG_LOCKFREE) 0) as [|_];
      [contradiction|].
    simpl. unfold cas_weak_cur, bind, next_spurious, load_cur, store_cur, gets,
      modify, ret, cas_succeeds, cas.
    destruct o as [[[c0 p0] t0 cap0] pm ce cm rg].
    destruct (cas_failures w) as [|sp sps]; simpl;
      [|destruct sp; simpl];
      try (destruct (c0 =? index r); simpl); reflexivity.
  - intros enqueue Hmode. split.
    + intros b w'. apply release_always_true. exact Hmode.
    + intros Hi Hq. unfold p64_ringbuf_release_, with_rb. rewrite Hh.
      destruct enqueue.
      * unfold bind. rewrite release_slots_quiet by assumption.
        eexists. reflexivity.
      * destruct Hmode as [|H0]; [discriminate|]. rewrite H0. simpl.
        unfold bind. rewrite release_slots_quiet by assumption.
        eexists. reflexivity.
Qed.

Lemma C8_release_lockfree_witness :
  exists h w o w2 o2,
    @after_enqueue sample_flags 16 4 65 = Some (h, w)
    /\ heap w !! RB h = Some o
    /\ Z.land (CONS_FLAGS h) FLAG_LOCKFREE <> 0
    /\ cur (head (prod o)) = 0
    /\ p64_ringbuf_acquire_ h 1 false w
       = Ret ({| index := 0; actual := 1; mask := 3 |}, RB h) w
    /\ p64_ringbuf_release_ h {| index := 0; actual := 1; mask := 3 |} false w
       = Ret true w2
    /\ heap w2 !! RB h = Some o2
    /\ cur (head (prod o2)) = 1.
Proof.
  eexists _, _, _.
  match goal with |- exists w2 o2, ?A /\ ?B /\ ?C /\ _ =>
    assert (A) as Ha by (vm_compute; reflexivity);
    assert (B) as Hh by (vm_compute; reflexivity);
    assert (C) as Hlf by (vm_compute; discriminate)
  end.
  destruct (proj1 (C8_release_lockfree _ {| index := 0; actual := 1; mask := 3 |}
                     _ _ Hh) Hlf) as [Hacq Hrel].
  eexists _, _. split; [exact Ha|]. split; [exact Hh|]. split; [exact Hlf|].
  split; [reflexivity|].
  split; [rewrite Hacq; reflexivity|].
  split; [exact Hrel|].
  split; [apply lookup_insert_eq | reflexivity].
Defined.

(** *** Acquiring slots *)

Lemma bind_ret {S A B} (c : ST S A) (k : A -> ST S B) s a s' :
  c s = Ret a s' -> bind c k s = k a s'.
Proof. intros H. unfold bind. rewrite H. reflexivity. Qed.

Lemma MIN_l a b : a <= b -> MIN a b = a.
Proof.
  intros H. unfold MIN. destruct (Z.ltb_spec a b); lia.
Qed.

Lemma acquire_slots_eval headp tailp msk n cap m :
  acquire_slots headp tailp msk n cap m
  = Ret (let act := MIN n (to_int (u32 (cap + cur (head (endpoint_of headp (obj m)))
                                         - cur (head (endpoint_of tailp (obj m)))))) in
         if act <=? 0 then no_slots
         else {| index := cur (head (endpoint_of tailp (obj m)));
                 actual := act; mask := msk |}) m.
Proof.
  unfold acquire_slots, bind, load_cur, gets. cbv zeta.
  destruct (MIN _ _ <=? 0); reflexivity.
Qed.

Lemma acquire_loop_eval sd n hd cap msk tl : forall sps fuel o,
  (length sps < fuel)%nat ->
  tail (endpoint_of sd o) = tl ->
  0 < MIN n (to_int (u32 (cap + hd - tl))) ->
  exists sps',
    acquire_loop fuel sd n hd cap msk tl {| obj := o; spurious := sps |}
    = Ret {| index := tl; actual := MIN n (to_int (u32 (cap + hd - tl))); mask := msk |}
          {| obj := set_tail sd (u32 (tl + MIN n (to_int (u32 (cap + hd - tl))))) o;
             spurious := sps' |}.
Proof.
  set (act := MIN n (to_int (u32 (cap + hd - tl)))).
  induction sps as [|b sps IH]; intros fuel o Hf Ht Hact;
    (destruct fuel as [|fuel]; [simpl in Hf; lia|]);
    cbn [acquire_loop]; fold act;
    destruct (Z.leb_spec act 0) as [|_]; try lia.
  - exists []. unfold bind, cas_weak_tail, bind, next_spurious, load_tail, gets,
      modify, ret, cas. cbn [spurious obj]. rewrite Ht, Z.eqb_refl.
    reflexivity.
  - destruct b.
    + destruct (IH fuel o ltac:(simpl in Hf; lia) Ht Hact) as [sps' Hs].
      exists sps'. rewrite <- Hs.
      unfold bind at 1. unfold cas_weak_tail, bind, next_spurious, load_tail, gets,
        modify, ret, cas. cbn [spurious obj negb andb]. cbv beta iota.
      rewrite set_tail_same, Ht. reflexivity.
    + exists sps. unfold bind, cas_weak_tail, bind, next_spurious, load_tail, gets,
        modify, ret, cas. cbn [spurious obj]. rewrite Ht, Z.eqb_refl.
      reflexivity.
Qed.

Lemma acquire_slots_mtsafe_eval sd n o sps :
  let tl := tail (endpoint_of sd o) in
  let act := MIN n (to_int (u32 (capacity (endpoint_of sd o)
                                 + cur (head (endpoint_of sd o)) - tl))) in
  0 < act ->
  exists sps',
    acquire_slots_mtsafe sd n {| obj := o; spurious := sps |}
    = Ret {| index := tl; actual := act; mask := mask_after sd o |}
          {| obj := set_tail sd (u32 (tl + act)) o; spurious := sps' |}.
Proof.
  intros tl act Hact.
  unfold acquire_slots_mtsafe, bind, load_tail, load_cur, gets. cbn [obj spurious].
  apply acquire_loop_eval; [lia | reflexivity | exact Hact].
Qed.

(** *** Copying slots *)

Ltac cmp_case c :=
  lazymatch c with
  | (?x =? ?y) => destruct (Z.eqb_spec x y)
  | (?x <? ?y) => destruct (Z.ltb_spec x y)
  | (?x <=? ?y) => destruct (Z.leb_spec x y)
  end.

Ltac bool_cases :=
  repeat first
    [ match goal with |- context [(?x <=? ?y)] => cmp_case (x <=? y) end
    | match goal with |- context [(?x <? ?y)] => cmp_case (x <? y) end
    | match goal with |- context [(?x =? ?y)] => cmp_case (x =? y) end ];
  cbn [andb orb negb].

Lemma copy_from_spec src soff doff : forall todo i dst j,
  copy_from todo i dst doff src soff j
  = if (doff + i <=? j) && (j <? doff + i + Z.of_nat todo)
    then src (soff + (j - doff)) else dst j.
Proof.
  induction todo as [|todo IH]; intros i dst j; cbn [copy_from].
  - bool_cases; try reflexivity; lia.
  - rewrite IH. unfold upd. rewrite Nat2Z.inj_succ.
    bool_cases; try reflexivity; try lia; f_equal; lia.
Qed.

Lemma copy_voidptr_spec dst doff src soff num j :
  0 <= num ->
  copy_voidptr dst doff src soff num j
  = if (doff <=? j) && (j <? doff + num) then src (soff + (j - doff)) else dst j.
Proof.
  intros Hn. unfold copy_voidptr. rewrite copy_from_spec, Z2Nat.id by exact Hn.
  rewrite !Z.add_0_r. reflexivity.
Qed.

Lemma land_le_r a b : 0 <= b -> Z.land a b <= b.
Proof.
  intros Hb.
  assert (Z.ldiff (Z.land a b) b = 0) as H0.
  { apply Z.bits_inj'. intros k Hk.
    rewrite Z.ldiff_spec, Z.land_spec, Z.bits_0.
    destruct (Z.testbit a k), (Z.testbit b k); reflexivity. }
  pose proof (Z.sub_nocarry_ldiff b (Z.land a b) H0) as Hs.
  pose proof (proj2 (Z.ldiff_nonneg b (Z.land a b)) (or_introl Hb)). lia.
Qed.

Lemma seg_assert a b : u32 (a + u32 (u32 b - a)) = u32 b.
Proof.
  unfold u32. rewrite Zplus_mod_idemp_r.
  replace (a + (b mod 2 ^ 32 - a)) with (b mod 2 ^ 32) by lia.
  apply Z.mod_mod. lia.
Qed.

(** The asserts of the two copy functions never fail. *)
Lemma write_slots_total rg ev r : exists rg', write_slots rg ev r = Some rg'.
Proof.
  unfold write_slots. destruct (actual r <=? 1); [eexists; reflexivity|].
  cbv zeta. rewrite seg_assert, Z.leb_refl.
  destruct (Z.leb_spec (actual r) (u32 (u32 (mask r + 1) - Z.land (index r) (mask r))));
    [eexists; reflexivity|].
  destruct (Z.ltb_spec (u32 (u32 (mask r + 1) - Z.land (index r) (mask r))) (actual r));
    [eexists; reflexivity | lia].
Qed.

Lemma read_slots_total rg ev r : exists ev', read_slots rg ev r = Some ev'.
Proof.
  unfold read_slots. destruct (actual r <=? 1); [eexists; reflexivity|].
  cbv zeta. rewrite seg_assert, Z.leb_refl.
  destruct (Z.leb_spec (actual r) (u32 (u32 (mask r + 1) - Z.land (index r) (mask r))));
    [eexists; reflexivity|].
  destruct (Z.ltb_spec (u32 (u32 (mask r + 1) - Z.land (index r) (mask r))) (actual r));
    [eexists; reflexivity | lia].
Qed.

(** The first segment as the code computes it: up to the end of the ring,
    except that for a ring of [2^32] slots met at slot [0] the 32-bit
    subtraction gives [0], and the whole range goes to the second copy. *)
Lemma code_seg0 r :
  0 <= mask r < 2 ^ 32 ->
  0 <= Z.land (index r) (mask r) <= mask r
  /\ (u32 (u32 (mask r + 1) - Z.land (index r) (mask r)) = seg0_of r
      \/ (u32 (u32 (mask r + 1) - Z.land (index r) (mask r)) = 0
          /\ Z.land (index r) (mask r) = 0 /\ seg0_of r = 2 ^ 32)).
Proof.
  intros Hm. set (base := Z.land (index r) (mask r)).
  assert (0 <= base <= mask r) as Hb.
  { split; [apply Z.land_nonneg; right; lia | apply land_le_r; lia]. }
  split; [exact Hb|]. unfold seg0_of. fold base.
  destruct (Z.eq_dec (mask r) (2 ^ 32 - 1)) as [He|Hne].
  - rewrite He. replace (2 ^ 32 - 1 + 1) with (2 ^ 32) by lia.
    change (u32 (2 ^ 32)) with 0.
    destruct (Z.eq_dec base 0) as [H0|H0].
    + right. rewrite H0. split; [reflexivity|]. split; reflexivity.
    + left. unfold u32. symmetry.
      apply Z.mod_unique with (q := -1); lia.
  - left. rewrite (u32_small (mask r + 1)) by lia. apply u32_small. lia.
Qed.

Lemma write_slots_spec rg ev r :
  0 <= mask r < 2 ^ 32 -> 1 <= actual r <= mask r + 1 -> actual r < 2 ^ 32 ->
  exists rg',
    write_slots rg ev r = Some rg'
    /\ forall j,
         rg' j = if (Z.land (index r) (mask r) <=? j)
                    && (j <? Z.land (index r) (mask r) + Z.min (actual r) (seg0_of r))
                 then ev (j - Z.land (index r) (mask r))
                 else if (0 <=? j) && (j <? actual r - seg0_of r)
                      then ev (seg0_of r + j)
                      else rg j.
Proof.
  intros Hm Ha Ha32.
  destruct (code_seg0 r Hm) as [Hb Hseg].
  unfold write_slots. cbv zeta. rewrite seg_assert, Z.leb_refl.
  set (base := Z.land (index r) (mask r)) in *.
  set (s := u32 (u32 (mask r + 1) - base)) in *.
  assert (seg0_of r = mask r + 1 - base) as Hs0 by reflexivity.
  destruct (Z.leb_spec (actual r) 1).
  { eexists. split; [reflexivity|]. intros j. unfold upd.
    bool_cases; try reflexivity; try lia; f_equal; lia. }
  destruct (Z.leb_spec (actual r) s).
  { eexists. split; [reflexivity|]. intros j.
    rewrite copy_voidptr_spec by lia.
    destruct Hseg as [Hseg|(Hz & _ & _)]; [|lia].
    bool_cases; try reflexivity; try lia; f_equal; lia. }
  destruct (Z.ltb_spec s (actual r)); [|lia].
  eexists. split; [reflexivity|]. intros j.
  assert (0 <= s) by (apply u32_range).
  rewrite (u32_small (actual r - s)) by lia.
  rewrite !copy_voidptr_spec by lia.
  destruct Hseg as [Hseg|(Hz & Hb0 & H32)].
  - bool_cases; try reflexivity; try lia; f_equal; lia.
  - bool_cases; try reflexivity; try lia; f_equal; lia.
Qed.

Lemma read_slots_spec rg ev r :
  0 <= mask r < 2 ^ 32 -> 1 <= actual r <= mask r + 1 -> actual r < 2 ^ 32 ->
  exists ev',
    read_slots rg ev r = Some ev'
    /\ forall k, ev' k = if (0 <=? k) && (k <? actual r) then rg (slot_of r k) else ev k.
Proof.
  intros Hm Ha Ha32.
  destruct (code_seg0 r Hm) as [Hb Hseg].
  unfold read_slots, slot_of. cbv zeta. rewrite seg_assert, Z.leb_refl.
  set (base := Z.land (index r) (mask r)) in *.
  set (s := u32 (u32 (mask r + 1) - base)) in *.
  assert (seg0_of r = mask r + 1 - base) as Hs0 by reflexivity.
  destruct (Z.leb_spec (actual r) 1).
  { eexists. split; [reflexivity|]. intros k. unfold upd.
    bool_cases; try reflexivity; try lia; f_equal; lia. }
  destruct (Z.leb_spec (actual r) s).
  { eexists. split; [reflexivity|]. intros k.
    rewrite copy_voidptr_spec by lia.
    destruct Hseg as [Hseg|(Hz & _ & _)]; [|lia].
    bool_cases; try reflexivity; try lia; f_equal; lia. }
  destruct (Z.ltb_spec s (actual r)); [|lia].
  eexists. split; [reflexivity|]. intros k.
  assert (0 <= s) by (apply u32_range).
  rewrite (u32_small (actual r - s)) by lia.
  rewrite !copy_voidptr_spec by lia.
  destruct Hseg as [Hseg|(Hz & Hb0 & H32)].
  - bool_cases; try reflexivity; try lia; f_equal; lia.
  - bool_cases; try reflexivity; try lia; f_equal; lia.
Qed.

(** *** One call on a quiet ring buffer *)

Ltac rbsimpl :=
  cbn [prod cons head tail capacity ring prod_mask cons_mask cur pend
       set_head set_ring set_tail set_cur set_endpoint endpoint_of mask_after
       obj spurious index actual mask heap errors cas_failures].

Lemma enqueue_on_quiet rb ev num w o c :
  heap w !! RB rb = Some o ->
  quiet_empty o c ->
  1 <= num <= capacity (prod o) -> capacity (prod o) < 2 ^ 31 ->
  exists w' o',
    p64_ringbuf_enqueue rb ev num w = Ret num w'
    /\ heap w' = <[RB rb := o']> (heap w) /\ errors w' = errors w
    /\ prod_mask o' = prod_mask o /\ cons_mask o' = cons_mask o
    /\ capacity (prod o') = capacity (prod o)
    /\ head (prod o') = {| cur := c; pend := 0 |}
    /\ cons o' = {| head := {| cur := u32 (c + num); pend := 0 |};
                    tail := c; capacity := 0 |}
    /\ (ring o' = nbenq_write (ring o) ev
                    {| index := c; actual := num; mask := prod_mask o |}
        \/ write_slots (ring o) ev {| index := c; actual := num; mask := prod_mask o |}
           = Some (ring o')).
Proof.
  intros Hh (Hc & Hph & Hpt & Hch & Hct & Hcc & Hmm) Hnum Hcap.
  destruct o as [[ph pt pcap] pm [ch ct ccap] cm rg].
  cbn [prod cons head tail capacity prod_mask cons_mask ring] in *. subst.
  assert (MIN (to_int num) (to_int (u32 (pcap + c - c))) = num) as Hact.
  { replace (pcap + c - c) with pcap by lia.
    rewrite (u32_small pcap), !to_int_small by lia. apply MIN_l. lia. }
  set (o := {| prod := {| head := {| cur := c; pend := 0 |}; tail := c; capacity := pcap |};
               prod_mask := cm;
               cons := {| head := {| cur := c; pend := 0 |}; tail := c; capacity := 0 |};
               cons_mask := cm; ring := rg |}) in *.
  set (r := {| index := c; actual := num; mask := cm |}).
  assert (exists o1 sps1,
            (if Z.land (PROD_FLAGS rb) (Z.lor FLAG_BLK FLAG_NONBLK) =? 0
             then bind (gets (fun m => prod_mask (obj m))) (fun msk =>
                  bind (gets (fun m => capacity (prod (obj m)))) (fun cap =>
                  acquire_slots Prod Cons msk (to_int num) cap))
             else acquire_slots_mtsafe Prod (to_int num))
              {| obj := o; spurious := cas_failures w |}
            = Ret r {| obj := o1; spurious := sps1 |}
            /\ (o1 = o \/ o1 = set_tail Prod (u32 (c + num)) o)) as (o1 & sps1 & Hacq & Ho1).
  { destruct (Z.land (PROD_FLAGS rb) (Z.lor FLAG_BLK FLAG_NONBLK) =? 0).
    - exists o, (cas_failures w). split; [|left; reflexivity].
      unfold bind at 1, gets at 1. unfold bind at 1, gets at 1.
      rewrite acquire_slots_eval. unfold o. rbsimpl. cbv zeta. rewrite Hact.
      destruct (Z.leb_spec num 0); [lia | reflexivity].
    - destruct (acquire_slots_mtsafe_eval Prod (to_int num) o (cas_failures w)) as [sps' Hs].
      { unfold o. rbsimpl. rewrite Hact. lia. }
      exists (set_tail Prod (u32 (c + num)) o), sps'. split; [|right; reflexivity].
      rewrite Hs. unfold o. rbsimpl. rewrite Hact. reflexivity. }
  destruct (write_slots_total rg ev r) as [rgw Hw].
  set (rg' := if negb (Z.land (PROD_FLAGS rb) FLAG_NONBLK =? 0)
              then nbenq_write rg ev r else rgw).
  exists {| heap := <[RB rb := set_head Cons {| cur := u32 (c + num); pend := 0 |}
                               (set_ring rg' o1)]> (heap w);
            errors := errors w; cas_failures := sps1 |},
         (set_head Cons {| cur := u32 (c + num); pend := 0 |} (set_ring rg' o1)).
  split.
  - unfold p64_ringbuf_enqueue, with_rb. rewrite Hh.
    rewrite (bind_ret _ _ _ _ _ Hacq).
    unfold r at 1. cbn [actual]. destruct (Z.eqb_spec num 0) as [|_]; [lia|].
    unfold bind at 1, gets at 1. cbn [obj].
    assert (ring o1 = rg) as -> by (destruct Ho1 as [->| ->]; reflexivity).
    assert ((if negb (Z.land (PROD_FLAGS rb) FLAG_NONBLK =? 0)
             then store_ring (nbenq_write rg ev r)
             else bind (lift_assert (write_slots rg ev r)) (fun rg'0 => store_ring rg'0))
              {| obj := o1; spurious := sps1 |}
            = Ret tt {| obj := set_ring rg' o1; spurious := sps1 |}) as Hwr.
    { unfold rg'. destruct (negb (Z.land (PROD_FLAGS rb) FLAG_NONBLK =? 0)).
      - reflexivity.
      - rewrite Hw. reflexivity. }
    rewrite (bind_ret _ _ _ _ _ Hwr).
    unfold bind at 1. fold r. cbn [index actual].
    rewrite release_slots_quiet; [reflexivity | exact Hc |].
    destruct Ho1 as [->| ->]; reflexivity.
  - rbsimpl. split; [reflexivity|]. split; [reflexivity|].
    destruct Ho1 as [->| ->]; unfold o; rbsimpl;
      (repeat (split; [reflexivity|]));
      unfold rg'; destruct (negb (Z.land (PROD_FLAGS rb) FLAG_NONBLK =? 0));
      [left; reflexivity | right; exact Hw | left; reflexivity | right; exact Hw].
Qed.

Lemma lfdeq_loop_eval num hd tl : forall sps fuel o ev,
  (length sps < fuel)%nat ->
  head (prod o) = {| cur := hd; pend := 0 |} ->
  0 < MIN (to_int num) (to_int (u32 (tl - hd))) ->
  exists sps' ev0 ev',
    lfdeq_loop fuel num hd tl ev {| obj := o; spurious := sps |}
    = Ret (MIN (to_int num) (to_int (u32 (tl - hd))), ev', Some hd)
          {| obj := set_head Prod
                      {| cur := u32 (hd + MIN (to_int num) (to_int (u32 (tl - hd))));
                         pend := 0 |} o;
             spurious := sps' |}
    /\ read_slots (ring o) ev0
         {| index := hd; actual := MIN (to_int num) (to_int (u32 (tl - hd)));
            mask := cons_mask o |} = Some ev'.
Proof.
  set (act := MIN (to_int num) (to_int (u32 (tl - hd)))).
  induction sps as [|b sps IH]; intros fuel o ev Hf Hh Hact;
    (destruct fuel as [|fuel]; [simpl in Hf; lia|]);
    cbn [lfdeq_loop]; fold act;
    destruct (Z.leb_spec act 0) as [|_]; try lia;
    destruct (read_slots_total (ring o) ev
                {| index := hd; actual := act; mask := cons_mask o |}) as [ev1 Hr].
  - exists [], ev, ev1. split; [|exact Hr].
    unfold bind at 1, gets at 1. unfold bind at 1, gets at 1. cbn [obj].
    rewrite Hr. unfold bind at 1, lift_assert, ret at 1.
    unfold bind, cas_weak_cur, bind, next_spurious, load_cur, store_cur, gets,
      modify, ret, cas. cbn [spurious obj endpoint_of]. rewrite Hh. cbn [cur].
    rewrite Z.eqb_refl. cbn [negb andb]. rbsimpl. rewrite ?Hh. rbsimpl.
    reflexivity.
  - destruct b.
    + destruct (IH fuel o ev1 ltac:(simpl in Hf; lia) Hh Hact)
        as (sps' & ev0 & ev' & Hs & Hr').
      exists sps', ev0, ev'. split; [|exact Hr']. rewrite <- Hs.
      unfold bind at 1, gets at 1. unfold bind at 1, gets at 1. cbn [obj].
      rewrite Hr. unfold bind at 1, lift_assert, ret at 1.
      unfold bind at 1. unfold cas_weak_cur, bind, next_spurious, load_cur, store_cur,
        gets, modify, ret, cas. cbn [spurious obj negb andb]. cbv beta iota.
      rewrite set_cur_same. cbn [endpoint_of]. rewrite Hh. reflexivity.
    + exists sps, ev, ev1. split; [|exact Hr].
      unfold bind at 1, gets at 1. unfold bind at 1, gets at 1. cbn [obj].
      rewrite Hr. unfold bind at 1, lift_assert, ret at 1.
      unfold bind, cas_weak_cur, bind, next_spurious, load_cur, store_cur, gets,
        modify, ret, cas. cbn [spurious obj endpoint_of]. rewrite Hh. cbn [cur].
      rewrite Z.eqb_refl. cbn [negb andb]. rbsimpl. rewrite ?Hh. rbsimpl.
      reflexivity.
Qed.

(** A ring buffer holding [k] released elements from index [c] on, with
    no call under way on the consumer side. *)
Lemma dequeue_on_filled rb out num w o c k :
  heap w !! RB rb = Some o ->
  0 <= c < 2 ^ 32 ->
  head (prod o) = {| cur := c; pend := 0 |} ->
  head (cons o) = {| cur := u32 (c + k); pend := 0 |} ->
  tail (cons o) = c -> capacity (cons o) = 0 ->
  1 <= num <= k -> k < 2 ^ 31 ->
  exists w' o' out' ev0,
    p64_ringbuf_dequeue rb out num w = Ret (num, out', Some c) w'
    /\ heap w' = <[RB rb := o']> (heap w) /\ errors w' = errors w
    /\ read_slots (ring o) ev0 {| index := c; actual := num; mask := cons_mask o |}
       = Some out'
    /\ head (prod o') = {| cur := u32 (c + num); pend := 0 |}
    /\ head (cons o') = head (cons o) /\ capacity (cons o') = 0
    /\ ring o' = ring o /\ cons_mask o' = cons_mask o /\ prod_mask o' = prod_mask o
    /\ capacity (prod o') = capacity (prod o)
    /\ (tail (cons o') = c \/ tail (cons o') = u32 (c + num)).
Proof.
  intros Hh Hc Hph Hch Hct Hcc Hnum Hk.
  destruct o as [[ph pt pcap] pm [ch ct ccap] cm rg].
  cbn [prod cons head tail capacity prod_mask cons_mask ring] in *. subst.
  assert (u32 (u32 (c + k) - c) = k) as Hdist.
  { rewrite u32_sub_l. replace (c + k - c) with k by lia. apply u32_small. lia. }
  assert (MIN (to_int num) (to_int k) = num) as Hact.
  { rewrite !to_int_small by lia. apply MIN_l. lia. }
  set (o := {| prod := {| head := {| cur := c; pend := 0 |}; tail := pt; capacity := pcap |};
               prod_mask := pm;
               cons := {| head := {| cur := u32 (c + k); pend := 0 |}; tail := c;
                          capacity := 0 |};
               cons_mask := cm; ring := rg |}) in *.
  set (r := {| index := c; actual := num; mask := cm |}).
  unfold p64_ringbuf_dequeue, with_rb. rewrite Hh.
  destruct (negb (Z.land (CONS_FLAGS rb) FLAG_LOCKFREE =? 0)).
  - (* lock-free dequeue *)
    destruct (lfdeq_loop_eval num c (u32 (c + k)) (cas_failures w)
                (S (S (length (cas_failures w)))) o out ltac:(lia) eq_refl)
      as (sps' & ev0 & ev' & Hs & Hr).
    { rewrite Hdist, Hact. lia. }
    rewrite Hdist, Hact in Hs, Hr.
    unfold bind at 1, load_cur at 1, gets at 1.
    unfold bind at 1, load_cur at 1, gets at 1.
    unfold bind at 1, gets at 1. unfold o at 1 2 3. rbsimpl. fold o.
    rewrite Hs.
    eexists _, _, ev', ev0. split; [reflexivity|].
    rbsimpl. split; [reflexivity|]. split; [reflexivity|].
    split; [exact Hr|]. unfold o. rbsimpl.
    repeat (split; [reflexivity|]). left. reflexivity.
  - assert (exists o1 sps1,
              (if Z.land (CONS_FLAGS rb) (Z.lor FLAG_BLK FLAG_NONBLK) =? 0
               then bind (gets (fun m => cons_mask (obj m))) (fun msk =>
                    acquire_slots Cons Prod msk (to_int num) 0)
               else acquire_slots_mtsafe Cons (to_int num))
                {| obj := o; spurious := cas_failures w |}
              = Ret r {| obj := o1; spurious := sps1 |}
              /\ (o1 = o \/ o1 = set_tail Cons (u32 (c + num)) o))
      as (o1 & sps1 & Hacq & Ho1).
    { destruct (Z.land (CONS_FLAGS rb) (Z.lor FLAG_BLK FLAG_NONBLK) =? 0).
      - exists o, (cas_failures w). split; [|left; reflexivity].
        unfold bind at 1, gets at 1.
        rewrite acquire_slots_eval. unfold o. rbsimpl. cbv zeta.
        rewrite Z.add_0_l, Hdist, Hact.
        destruct (Z.leb_spec num 0); [lia | reflexivity].
      - destruct (acquire_slots_mtsafe_eval Cons (to_int num) o (cas_failures w))
          as [sps' Hs].
        { unfold o. rbsimpl. rewrite Z.add_0_l, Hdist, Hact. lia. }
        exists (set_tail Cons (u32 (c + num)) o), sps'. split; [|right; reflexivity].
        rewrite Hs. unfold o. rbsimpl. rewrite Z.add_0_l, Hdist, Hact. reflexivity. }
    destruct (read_slots_total rg out r) as [out' Hr].
    rewrite (bind_ret _ _ _ _ _ Hacq).
    unfold r at 1. cbn [actual]. destruct (Z.eqb_spec num 0) as [|_]; [lia|].
    unfold bind at 1, gets at 1. cbn [obj].
    assert (ring o1 = rg) as -> by (destruct Ho1 as [->| ->]; reflexivity).
    rewrite Hr. unfold bind at 1, lift_assert, ret at 1.
    unfold bind at 1. fold r. cbn [index actual].
    rewrite release_slots_quiet;
      [| exact Hc | destruct Ho1 as [->| ->]; reflexivity].
    unfold ret. eexists _, _, out', out. split; [reflexivity|].
    rbsimpl. split; [reflexivity|]. split; [reflexivity|]. split; [exact Hr|].
    destruct Ho1 as [->| ->]; unfold o; rbsimpl;
      (repeat (split; [reflexivity|])); [left | right]; reflexivity.
Qed.

(** *** Round trips *)

Lemma upd_same a i v : upd a i v i = v.
Proof. unfold upd. rewrite Z.eqb_refl. reflexivity. Qed.

Lemma slot_of_inj r k1 k2 :
  0 <= mask r < 2 ^ 32 -> actual r <= mask r + 1 ->
  0 <= k1 < actual r -> 0 <= k2 < actual r ->
  slot_of r k1 = slot_of r k2 -> k1 = k2.
Proof.
  intros Hm Ha H1 H2. destruct (code_seg0 r Hm) as [Hb _].
  unfold slot_of, seg0_of. bool_cases; lia.
Qed.

(** For every range of slots [{index, actual, mask}] with
    [1 <= actual <= mask + 1], [read_slots] after [write_slots] returns
    the elements written, elements [[0, seg0)] lying in consecutive slots
    from [index & mask] and elements [[seg0, actual)] in consecutive slots
    from [0], the second segment being non-empty exactly when
    [actual + (index & mask) > mask + 1]. *)
Lemma write_then_read_slots rg ev out r :
  0 <= mask r < 2 ^ 32 ->
  1 <= actual r <= mask r + 1 -> actual r < 2 ^ 32 ->
  exists rg' out',
    write_slots rg ev r = Some rg'
    /\ read_slots rg' out r = Some out'
    /\ (forall k, 0 <= k < actual r -> rg' (slot_of r k) = ev k /\ out' k = ev k)
    /\ (forall j, (forall k, 0 <= k < actual r -> slot_of r k <> j) -> rg' j = rg j)
    /\ (forall k, ~ 0 <= k < actual r -> out' k = out k)
    /\ ((exists k, 0 <= k < actual r /\ seg0_of r <= k)
        <-> actual r + Z.land (index r) (mask r) > mask r + 1).
Proof.
  intros Hm Ha Ha32.
  destruct (write_slots_spec rg ev r Hm Ha Ha32) as (rg' & Hw & Hwspec).
  destruct (read_slots_spec rg' out r Hm Ha Ha32) as (out' & Hr & Hrspec).
  destruct (code_seg0 r Hm) as [Hb _].
  assert (forall k, 0 <= k < actual r -> rg' (slot_of r k) = ev k) as Hslots.
  { intros k Hk. rewrite Hwspec. unfold slot_of, seg0_of.
    bool_cases; try lia; f_equal; lia. }
  exists rg', out'. split; [exact Hw|]. split; [exact Hr|]. split.
  { intros k Hk. split; [apply Hslots; exact Hk|].
    rewrite Hrspec.
    destruct (Z.leb_spec 0 k), (Z.ltb_spec k (actual r)); try lia.
    cbn [andb]. apply Hslots. exact Hk. }
  split.
  { intros j Hj. rewrite Hwspec.
    destruct ((Z.land (index r) (mask r) <=? j)
              && (j <? Z.land (index r) (mask r) + Z.min (actual r) (seg0_of r))) eqn:E1.
    { exfalso. apply andb_true_iff in E1 as [E1 E2].
      apply Z.leb_le in E1. apply Z.ltb_lt in E2.
      apply (Hj (j - Z.land (index r) (mask r))); [lia|].
      unfold slot_of. destruct (Z.ltb_spec (j - Z.land (index r) (mask r)) (seg0_of r)); lia. }
    destruct ((0 <=? j) && (j <? actual r - seg0_of r)) eqn:E2; [|reflexivity].
    exfalso. apply andb_true_iff in E2 as [E2 E3].
    apply Z.leb_le in E2. apply Z.ltb_lt in E3.
    apply (Hj (seg0_of r + j)); [unfold seg0_of in *; lia|].
    unfold slot_of. destruct (Z.ltb_spec (seg0_of r + j) (seg0_of r)); lia. }
  split.
  { intros k Hk. rewrite Hrspec.
    destruct (Z.leb_spec 0 k), (Z.ltb_spec k (actual r)); try lia; reflexivity. }
  unfold seg0_of. split.
  + intros (k & Hk & Hs). lia.
  + intros Hwrap. exists (actual r - 1). lia.
Qed.

Lemma fresh_ring_quiet ring0 nelems : quiet_empty (fresh_ring ring0 nelems) 0.
Proof. unfold quiet_empty, fresh_ring. cbn. repeat split; lia. Qed.

(** The twelve modes [p64_ringbuf_alloc] can set up, run. *)
Example round_trip_every_mode :
  forallb (fun flags => @round_trip_returns sample_flags flags 4 65)
    [0; 1; 4; 2; 3; 6; 8; 9; 12; 16; 17; 20] = true.
Proof. vm_compute. reflexivity. Qed.

(** C4: a single caller releasing [n] slots at [idx] without blocking on
    a cell at [{idx, 0}]: the first exchange succeeds whatever [n] is, so
    the release is done in one step and never enters the pending-mask
    loop, whose first assertion no release of [PENDMAX] slots or more
    would pass; and an enqueue of [PENDMAX + 1] elements on a quiet
    non-blocking ring buffer of that capacity returns [PENDMAX + 1] from
    one call, the consumer-visible index advanced by as much. *)
Theorem C4_quiet_release_in_order idx n :
  0 <= idx < 2 ^ 32 ->
  release_nonblk_step idx n InOrder (load64 {| cur := idx; pend := 0 |})
    = (Released, load64 {| cur := u32 (idx + n); pend := 0 |})
  /\ (forall loc lo m,
        head (endpoint_of loc (obj m)) = {| cur := idx; pend := 0 |} ->
        release_slots loc idx n lo FLAG_NONBLK m
        = Ret tt {| obj := set_head loc {| cur := u32 (idx + n); pend := 0 |} (obj m);
                    spurious := spurious m |})
  /\ (forall old, PENDMAX <= n -> pending_update idx n old = None)
  /\ (forall rb ev w o,
        heap w !! RB rb = Some o ->
        PROD_FLAGS rb = FLAG_NONBLK ->
        quiet_empty o idx ->
        PENDMAX + 1 <= capacity (prod o) < 2 ^ 31 ->
        exists w' o',
          p64_ringbuf_enqueue rb ev (PENDMAX + 1) w = Ret (PENDMAX + 1) w'
          /\ heap w' !! RB rb = Some o'
          /\ head (cons o') = {| cur := u32 (idx + (PENDMAX + 1)); pend := 0 |}).
Proof.
  intros Hi. split; [apply release_nonblk_step_inorder; exact Hi|].
  split; [intros loc lo m Hh; apply release_slots_quiet; assumption|].
  split.
  - intros old Hn. unfold pending_update.
    destruct (Z.ltb_spec n PENDMAX); [lia | reflexivity].
  - intros rb ev w o Hh _ Hq Hcap.
    destruct (enqueue_on_quiet rb ev (PENDMAX + 1) w o idx Hh Hq)
      as (w' & o' & Henq & Hheap & _ & _ & _ & _ & _ & Hcons & _);
      [unfold PENDMAX in *; lia | lia |].
    exists w', o'. split; [exact Henq|].
    split; [rewrite Hheap; apply lookup_insert_eq|].
    rewrite Hcons. reflexivity.
Qed.

Lemma C4_quiet_release_in_order_witness :
  0 <= 7 < 2 ^ 32
  /\ release_nonblk_step 7 33 InOrder (load64 {| cur := 7; pend := 0 |})
     = (Released, load64 {| cur := u32 (7 + 33); pend := 0 |}).
Proof.
  split; [lia|].
  exact (proj1 (C4_quiet_release_in_order 7 33 ltac:(lia))).
Defined.

(** *** Single producer, single consumer *)

Lemma spsc_enqueue rb ev w o d e cap msk :
  heap w !! RB rb = Some o -> PROD_FLAGS rb = 0 ->
  spsc_state o d e cap msk ->
  0 <= d <= e -> e < d + cap -> cap < 2 ^ 31 -> e < 2 ^ 31 ->
  exists w' o',
    p64_ringbuf_enqueue rb ev 1 w = Ret 1 w'
    /\ heap w' = <[RB rb := o']> (heap w)
    /\ spsc_state o' d (e + 1) cap msk
    /\ ring o' = upd (ring o) (Z.land e msk) (ev 0).
Proof.
  intros Hh Hpf (Hph & Hch & Hcap & Hpm & Hcm) Hde Hfree Hc He.
  destruct o as [[ph pt pcap] pm [ch ct ccap] cm rg].
  cbn [prod cons head tail capacity prod_mask cons_mask ring] in *. subst.
  assert (MIN (to_int 1) (to_int (u32 (cap + d - e))) = 1) as Hact.
  { rewrite (u32_small (cap + d - e)), !to_int_small by lia. apply MIN_l. lia. }
  eexists _, _. split.
  - unfold p64_ringbuf_enqueue, with_rb. rewrite Hh, Hpf.
    change (Z.land 0 (Z.lor FLAG_BLK FLAG_NONBLK) =? 0) with true.
    change (negb (Z.land 0 FLAG_NONBLK =? 0)) with false. cbv iota.
    unfold bind at 1. unfold bind at 1, gets at 1. unfold bind at 1, gets at 1.
    rewrite acquire_slots_eval. rbsimpl. cbv zeta. rewrite Hact.
    change (1 <=? 0) with false. cbv iota. rbsimpl. change (1 =? 0) with false.
    cbv iota. unfold bind at 1, gets at 1. rbsimpl.
    unfold bind at 1. unfold bind at 1. unfold write_slots. rbsimpl.
    change (1 <=? 1) with true. cbv iota. unfold lift_assert, ret at 1.
    unfold store_ring, modify. rbsimpl.
    unfold bind at 1. rewrite release_slots_quiet; [reflexivity | lia | reflexivity].
  - rbsimpl. split; [reflexivity|]. split; [|reflexivity].
    unfold spsc_state. rbsimpl. rewrite (u32_small (e + 1)) by lia.
    repeat split.
Qed.

Lemma spsc_enqueue_none rb ev w o d e cap msk :
  heap w !! RB rb = Some o -> PROD_FLAGS rb = 0 ->
  spsc_state o d e cap msk ->
  to_int (u32 (cap + d - e)) <= 0 ->
  exists w', p64_ringbuf_enqueue rb ev 1 w = Ret 0 w' /\ heap w' = heap w.
Proof.
  intros Hh Hpf (Hph & Hch & Hcap & Hpm & Hcm) Hroom.
  eexists. split.
  - unfold p64_ringbuf_enqueue, with_rb. rewrite Hh, Hpf.
    change (Z.land 0 (Z.lor FLAG_BLK FLAG_NONBLK) =? 0) with true. cbv iota.
    unfold bind at 1. unfold bind at 1, gets at 1. unfold bind at 1, gets at 1.
    rewrite acquire_slots_eval. rbsimpl. rewrite Hph, Hch, Hcap. rbsimpl. cbv zeta.
    assert ((MIN (to_int 1) (to_int (u32 (cap + d - e))) <=? 0) = true) as ->.
    { apply Z.leb_le. unfold MIN. change (to_int 1) with 1.
      destruct (Z.ltb_spec 1 (to_int (u32 (cap + d - e)))); lia. }
    change (actual no_slots =? 0) with true. cbv iota. reflexivity.
  - rbsimpl. apply insert_id. exact Hh.
Qed.

Lemma spsc_enqueue_full rb ev w o d e cap msk :
  heap w !! RB rb = Some o -> PROD_FLAGS rb = 0 ->
  spsc_state o d e cap msk ->
  e = d + cap ->
  exists w', p64_ringbuf_enqueue rb ev 1 w = Ret 0 w' /\ heap w' = heap w.
Proof.
  intros Hh Hpf Hst He. apply (spsc_enqueue_none rb ev w o d e cap msk Hh Hpf Hst).
  replace (cap + d - e) with 0 by lia. change (to_int (u32 0)) with 0. lia.
Qed.

Lemma spsc_dequeue rb out w o d e cap msk :
  heap w !! RB rb = Some o -> CONS_FLAGS rb = 0 ->
  spsc_state o d e cap msk ->
  0 <= d < e -> e < 2 ^ 31 ->
  exists w' o',
    p64_ringbuf_dequeue rb out 1 w
      = Ret (1, upd out 0 (ring o (Z.land d msk)), Some d) w'
    /\ heap w' = <[RB rb := o']> (heap w)
    /\ spsc_state o' (d + 1) e cap msk
    /\ ring o' = ring o.
Proof.
  intros Hh Hcf (Hph & Hch & Hcap & Hpm & Hcm) Hde He.
  destruct o as [[ph pt pcap] pm [ch ct ccap] cm rg].
  cbn [prod cons head tail capacity prod_mask cons_mask ring] in *. subst.
  assert (MIN (to_int 1) (to_int (u32 (0 + e - d))) = 1) as Hact.
  { rewrite (u32_small (0 + e - d)), !to_int_small by lia. apply MIN_l. lia. }
  eexists _, _. split.
  - unfold p64_ringbuf_dequeue, with_rb. rewrite Hh, Hcf.
    change (negb (Z.land 0 FLAG_LOCKFREE =? 0)) with false.
    change (Z.land 0 (Z.lor FLAG_BLK FLAG_NONBLK) =? 0) with true. cbv iota.
    unfold bind at 1. unfold bind at 1, gets at 1.
    rewrite acquire_slots_eval. rbsimpl. cbv zeta. rewrite Hact.
    change (1 <=? 0) with false. cbv iota. rbsimpl. change (1 =? 0) with false.
    cbv iota. unfold bind at 1, gets at 1. rbsimpl.
    unfold bind at 1. unfold read_slots. rbsimpl.
    change (1 <=? 1) with true. cbv iota. unfold lift_assert, ret at 1.
    unfold bind at 1. rewrite release_slots_quiet; [reflexivity | lia | reflexivity].
  - rbsimpl. split; [reflexivity|]. split; [|reflexivity].
    unfold spsc_state. rbsimpl. rewrite (u32_small (d + 1)) by lia.
    repeat split.
Qed.

Lemma ROUNDUP_POW2_spec n :
  1 <= n <= 2 ^ 31 ->
  exists k, 0 <= k <= 31 /\ ROUNDUP_POW2 n = 2 ^ k /\ n <= 2 ^ k.
Proof.
  intros Hn. unfold ROUNDUP_POW2. destruct (Z.leb_spec n 1).
  - exists 0. split; [lia|]. split; [reflexivity | simpl; lia].
  - exists (Z.log2_up n). pose proof (Z.log2_up_nonneg n).
    pose proof (Z.log2_up_spec n ltac:(lia)) as [_ Hup].
    assert (Z.log2_up n <= 31) by (apply Z.log2_up_le_pow2; lia).
    split; [lia|]. split; [reflexivity | exact Hup].
Qed.

Lemma ring_mask_spec n j :
  1 <= n <= 2 ^ 31 -> 0 <= j < n ->
  Z.land j (u32 (ROUNDUP_POW2 n - 1)) = j.
Proof.
  intros Hn Hj. destruct (ROUNDUP_POW2_spec n Hn) as (k & Hk & -> & Hle).
  assert (2 ^ k <= 2 ^ 31) by (apply Z.pow_le_mono_r; lia).
  rewrite u32_small by lia.
  replace (2 ^ k - 1) with (Z.ones k) by (rewrite Z.ones_equiv; lia).
  rewrite Z.land_ones by lia. apply Z.mod_small. lia.
Qed.

Lemma enqueue_each_spec rb nelems : forall vs w o e,
  heap w !! RB rb = Some o -> PROD_FLAGS rb = 0 ->
  spsc_state o 0 e nelems (u32 (ROUNDUP_POW2 nelems - 1)) ->
  0 <= e -> e + Z.of_nat (length vs) <= nelems -> 1 <= nelems < 2 ^ 31 ->
  exists w' o',
    enqueue_each rb vs w = Ret (replicate (length vs) 1) w'
    /\ heap w' !! RB rb = Some o'
    /\ spsc_state o' 0 (e + Z.of_nat (length vs)) nelems (u32 (ROUNDUP_POW2 nelems - 1))
    /\ (forall j, 0 <= j < e -> ring o' j = ring o j)
    /\ (forall i, (i < length vs)%nat -> ring o' (e + Z.of_nat i) = nth i vs 0).
Proof.
  induction vs as [|v vs IH]; intros w o e Hh Hpf Hst He Hfit Hn.
  - exists w, o. cbn [enqueue_each length replicate]. rewrite Z.add_0_r.
    split; [reflexivity|]. split; [exact Hh|]. split; [exact Hst|].
    split; [reflexivity|]. intros i Hi. cbn [length] in Hi. lia.
  - cbn [length] in Hfit. rewrite Nat2Z.inj_succ in Hfit.
    destruct (spsc_enqueue rb (one v) w o 0 e nelems _ Hh Hpf Hst)
      as (w1 & o1 & Henq & Hheap1 & Hst1 & Hring1); try lia.
    rewrite ring_mask_spec in Hring1 by lia.
    assert (heap w1 !! RB rb = Some o1) as Hh1
      by (rewrite Hheap1; apply lookup_insert_eq).
    destruct (IH w1 o1 (e + 1) Hh1 Hpf Hst1) as (w' & o' & Hrest & Hh' & Hst' & Hold & Hnew);
      try lia.
    exists w', o'. split.
    { cbn [enqueue_each length replicate]. rewrite (bind_ret _ _ _ _ _ Henq).
      rewrite (bind_ret _ _ _ _ _ Hrest). reflexivity. }
    split; [exact Hh'|]. split.
    { cbn [length]. rewrite Nat2Z.inj_succ.
      replace (e + Z.succ (Z.of_nat (length vs))) with (e + 1 + Z.of_nat (length vs)) by lia.
      exact Hst'. }
    split.
    { intros j Hj. rewrite Hold by lia. rewrite Hring1. unfold upd.
      destruct (Z.eqb_spec j e); [lia | reflexivity]. }
    intros [|i] Hi.
    + rewrite Z.add_0_r, Hold by lia. rewrite Hring1. cbn [nth]. apply upd_same.
    + cbn [nth]. cbn [length] in Hi.
      replace (e + Z.of_nat (S i)) with (e + 1 + Z.of_nat i) by lia.
      apply Hnew. lia.
Qed.

Lemma dequeue_times_spec rb nelems e : forall vs w o d,
  heap w !! RB rb = Some o -> CONS_FLAGS rb = 0 ->
  spsc_state o d e nelems (u32 (ROUNDUP_POW2 nelems - 1)) ->
  0 <= d -> d + Z.of_nat (length vs) <= e -> e <= nelems -> 1 <= nelems < 2 ^ 31 ->
  (forall i, (i < length vs)%nat -> ring o (d + Z.of_nat i) = nth i vs 0) ->
  exists w',
    dequeue_times rb (length vs) w = Ret (map (fun v => (1, v)) vs) w'.
Proof.
  induction vs as [|v vs IH]; intros w o d Hh Hcf Hst Hd Hfit He Hn Hring.
  - exists w. reflexivity.
  - cbn [length] in Hfit. rewrite Nat2Z.inj_succ in Hfit.
    destruct (spsc_dequeue rb (one 0) w o d e nelems _ Hh Hcf Hst)
      as (w1 & o1 & Hdeq & Hheap1 & Hst1 & Hring1); try lia.
    rewrite ring_mask_spec in Hdeq by lia.
    assert (heap w1 !! RB rb = Some o1) as Hh1
      by (rewrite Hheap1; apply lookup_insert_eq).
    destruct (IH w1 o1 (d + 1) Hh1 Hcf Hst1) as (w' & Hrest); try lia.
    { intros i Hi. rewrite Hring1.
      replace (d + 1 + Z.of_nat i) with (d + Z.of_nat (S i)) by lia.
      apply (Hring (S i)). cbn [length]. lia. }
    exists w'. cbn [dequeue_times length map].
    rewrite (bind_ret _ _ _ _ _ Hdeq). rewrite (bind_ret _ _ _ _ _ Hrest).
    cbn [fst snd]. rewrite upd_same.
    specialize (Hring 0%nat ltac:(cbn [length]; lia)).
    rewrite Z.add_0_r in Hring. rewrite Hring. reflexivity.
Qed.

(** The single-producer single-consumer ring buffer of [nelems] slots,
    [nelems] below [2^31]: it takes exactly [nelems] elements, turns the
    next one down, and gives the elements back in the order they came. *)
Lemma spsc_fill_drain rb w ring0 nelems vs v :
  heap w !! RB rb = Some (fresh_ring ring0 nelems) ->
  PROD_FLAGS rb = 0 -> CONS_FLAGS rb = 0 ->
  1 <= nelems < 2 ^ 31 ->
  Z.of_nat (length vs) = nelems ->
  exists w1 w2 w3,
    enqueue_each rb vs w = Ret (replicate (length vs) 1) w1
    /\ p64_ringbuf_enqueue rb (one v) 1 w1 = Ret 0 w2
    /\ dequeue_times rb (length vs) w2 = Ret (map (fun x => (1, x)) vs) w3.
Proof.
  intros Hh Hpf Hcf Hn Hlen.
  destruct (enqueue_each_spec rb nelems vs w _ 0 Hh Hpf) as
    (w1 & o1 & Hfill & Hh1 & Hst1 & _ & Hring); try lia.
  { repeat split. }
  rewrite Z.add_0_l, Hlen in Hst1.
  destruct (spsc_enqueue_full rb (one v) w1 o1 0 nelems nelems _ Hh1 Hpf Hst1)
    as (w2 & Hfull & Hheap2); [lia|].
  assert (heap w2 !! RB rb = Some o1) as Hh2 by (rewrite Hheap2; exact Hh1).
  destruct (dequeue_times_spec rb nelems nelems vs w2 o1 0 Hh2 Hcf Hst1)
    as (w3 & Hdrain); try lia.
  { intros i Hi. rewrite <- (Hring i Hi). reflexivity. }
  exists w1, w2, w3. split; [exact Hfill|]. split; [exact Hfull|]. exact Hdrain.
Qed.

(** *** Allocating a single-producer single-consumer ring buffer *)

Lemma aligned_handle p :
  Z.land p 63 = 0 -> RB p = p /\ PROD_FLAGS p = 0 /\ CONS_FLAGS p = 0.
Proof.
  intros Ha. unfold RB, PROD_FLAGS, CONS_FLAGS, FLAG_MASK. split; [|split].
  - rewrite <- Z.ldiff_land. rewrite <- (Z.lor_ldiff_and p 63) at 2.
    rewrite Ha. symmetry. apply Z.lor_0_r.
  - change 7 with (Z.land 63 7). rewrite Z.land_assoc, Ha. reflexivity.
  - change 7 with (Z.shiftr 56 3). rewrite <- Z.shiftr_land.
    change 56 with (Z.land 63 56). rewrite Z.land_assoc, Ha. reflexivity.
Qed.

Lemma land_lor_self a b : Z.land a b = 0 -> Z.land (Z.lor a b) a = a.
Proof.
  intros H. rewrite Z.land_lor_distr_l, Z.land_diag, (Z.land_comm b a), H.
  apply Z.lor_0_r.
Qed.

Lemma land_lor_other a b c :
  Z.land a c = 0 -> Z.land b c = 0 -> Z.land (Z.lor a b) c = 0.
Proof. intros H1 H2. rewrite Z.land_lor_distr_l, H1, H2. reflexivity. Qed.

Section AllocSPSC.
Context `{FL : ringbuf_flags}.

Lemma spsc_flags_supported :
  Z.land (Z.lor P64_RINGBUF_F_SPENQ P64_RINGBUF_F_SCDEQ) (Z.lnot SUPPORTED_FLAGS) = 0.
Proof.
  unfold SUPPORTED_FLAGS. apply Z.bits_inj'. intros k Hk.
  rewrite Z.land_spec, Z.lnot_spec, !Z.lor_spec, Z.bits_0 by lia.
  destruct (Z.testbit P64_RINGBUF_F_SPENQ k), (Z.testbit P64_RINGBUF_F_SCDEQ k),
    (Z.testbit P64_RINGBUF_F_MPENQ k); reflexivity.
Qed.

Lemma alloc_spsc p ring0 nelems esize w :
  flags_wf ->
  p <> NULL -> Z.land p 63 = 0 ->
  1 <= nelems <= 2 ^ 32 - 1 ->
  p64_ringbuf_alloc p ring0 nelems
    (Z.lor P64_RINGBUF_F_SPENQ P64_RINGBUF_F_SCDEQ) esize w
  = Ret p {| heap := <[p := fresh_ring ring0 nelems]> (heap w);
             errors := errors w; cas_failures := cas_failures w |}.
Proof.
  intros ((Hsp & Hsc & Hnbe & Hnbd & Hlf) & (Hspsc & Hspnbe & Hspnbd & Hsplf)
          & (Hscnbe & Hscnbd & Hsclf) & _) Hp Hal Hn.
  set (flags := Z.lor P64_RINGBUF_F_SPENQ P64_RINGBUF_F_SCDEQ).
  assert (Z.land flags P64_RINGBUF_F_SPENQ = P64_RINGBUF_F_SPENQ) as Hfsp
    by (apply land_lor_self; exact Hspsc).
  assert (Z.land flags P64_RINGBUF_F_SCDEQ = P64_RINGBUF_F_SCDEQ) as Hfsc.
  { unfold flags. rewrite Z.lor_comm. apply land_lor_self.
    rewrite Z.land_comm. exact Hspsc. }
  assert (Z.land flags P64_RINGBUF_F_NBENQ = 0) as Hfnbe
    by (apply land_lor_other; assumption).
  assert (Z.land flags P64_RINGBUF_F_NBDEQ = 0) as Hfnbd
    by (apply land_lor_other; assumption).
  assert (Z.land flags P64_RINGBUF_F_LFDEQ = 0) as Hflf
    by (apply land_lor_other; assumption).
  assert (~ invalid_args nelems flags) as Hvalid.
  { unfold invalid_args, has_flag. rewrite Hfnbe, Hfnbd, Hflf.
    fold flags. unfold flags at 1. rewrite spsc_flags_supported.
    intros [H|[H|[H|[[_ H]|[[_ H]|[[_ H]|[_ H]]]]]]]; try lia; congruence. }
  rewrite alloc_cases.
  destruct (invalid_argsb nelems flags) eqn:Hb;
    [apply invalid_args_reflect in Hb; contradiction|].
  assert (((nelems =? 0) || (nelems >? MAXELEMS)) = false) as ->.
  { unfold MAXELEMS. destruct (Z.eqb_spec nelems 0); [lia|].
    rewrite Z.gtb_ltb. destruct (Z.ltb_spec 4294967295 nelems); [lia | reflexivity]. }
  destruct (Z.eqb_spec p NULL) as [|_]; [contradiction|].
  unfold handle_of, prod_flags_of, cons_flags_of. fold flags.
  rewrite Hfsp, Hfsc, Hflf.
  rewrite (proj2 (Z.eqb_neq _ _) Hsp), (proj2 (Z.eqb_neq _ _) Hsc). cbn [negb].
  change (Z.lor 0 (if negb (0 =? 0) then FLAG_LOCKFREE else 0)) with 0.
  change (Z.shiftl 0 3) with 0. rewrite !Z.lor_0_r. reflexivity.
Qed.

End AllocSPSC.

Lemma sample_flags_wf : @flags_wf sample_flags.
Proof. unfold flags_wf. cbn. repeat split; discriminate. Qed.

(** *** The capacity seen by the user *)

Section Capacity.
Context `{FL : ringbuf_flags}.

(** Below [2^31] the capacity is [nelems]: a ring buffer from
    [p64_ringbuf_alloc(nelems, SPENQ|SCDEQ, esize)] takes [nelems]
    one-element enqueues, returns 0 for the next, and then hands the
    elements out in the order of the enqueues. *)
Lemma spsc_capacity p ring0 nelems esize w vs v :
  flags_wf ->
  p <> NULL -> Z.land p 63 = 0 ->
  1 <= nelems < 2 ^ 31 ->
  Z.of_nat (length vs) = nelems ->
  exists h w0 w1 w2 w3,
    p64_ringbuf_alloc p ring0 nelems
      (Z.lor P64_RINGBUF_F_SPENQ P64_RINGBUF_F_SCDEQ) esize w = Ret h w0
    /\ h <> NULL
    /\ enqueue_each h vs w0 = Ret (replicate (length vs) 1) w1
    /\ p64_ringbuf_enqueue h (one v) 1 w1 = Ret 0 w2
    /\ dequeue_times h (length vs) w2 = Ret (map (fun x => (1, x)) vs) w3.
Proof.
  intros Hwf Hp Hal Hn Hlen.
  destruct (aligned_handle p Hal) as (Hrb & Hpf & Hcf).
  pose proof (alloc_spsc p ring0 nelems esize w Hwf Hp Hal ltac:(lia)) as Halloc.
  set (w0 := {| heap := <[p := fresh_ring ring0 nelems]> (heap w);
                errors := errors w; cas_failures := cas_failures w |}) in *.
  assert (heap w0 !! RB p = Some (fresh_ring ring0 nelems)) as Hh
    by (rewrite Hrb; apply lookup_insert_eq).
  destruct (spsc_fill_drain p w0 ring0 nelems vs v Hh Hpf Hcf Hn Hlen)
    as (w1 & w2 & w3 & H1 & H2 & H3).
  exists p, w0, w1, w2, w3. repeat split; assumption.
Qed.

(** From [2^31] on, nothing fits: the free space
    [capacity + head - tail] is read as a negative [int], and the first
    enqueue on the empty ring buffer already returns 0. *)
Lemma spsc_huge_takes_nothing p ring0 nelems esize w ev :
  flags_wf ->
  p <> NULL -> Z.land p 63 = 0 ->
  2 ^ 31 <= nelems <= 2 ^ 32 - 1 ->
  exists w0 w1,
    p64_ringbuf_alloc p ring0 nelems
      (Z.lor P64_RINGBUF_F_SPENQ P64_RINGBUF_F_SCDEQ) esize w = Ret p w0
    /\ p64_ringbuf_enqueue p ev 1 w0 = Ret 0 w1.
Proof.
  intros Hwf Hp Hal Hn.
  destruct (aligned_handle p Hal) as (Hrb & Hpf & Hcf).
  pose proof (alloc_spsc p ring0 nelems esize w Hwf Hp Hal ltac:(lia)) as Halloc.
  set (w0 := {| heap := <[p := fresh_ring ring0 nelems]> (heap w);
                errors := errors w; cas_failures := cas_failures w |}) in *.
  assert (heap w0 !! RB p = Some (fresh_ring ring0 nelems)) as Hh
    by (rewrite Hrb; apply lookup_insert_eq).
  destruct (spsc_enqueue_none p ev w0 _ 0 0 nelems (u32 (ROUNDUP_POW2 nelems - 1)) Hh Hpf)
    as (w1 & H1 & _).
  { repeat split. }
  { replace (nelems + 0 - 0) with nelems by lia.
    unfold to_int. rewrite u32_idem, (u32_small nelems) by lia.
    destruct (Z.ltb_spec nelems (2 ^ 31)); lia. }
  exists w0, w1. split; assumption.
Qed.

End Capacity.

(** The scenario of the specification: capacity 4, enqueues of A, B, C,
    D, E; four dequeues. *)
Example spsc_capacity_four :
  exists h w0 w1 w2 w3,
    @p64_ringbuf_alloc sample_flags 4096 (one 0) 4 3 8 empty_world = Ret h w0
    /\ enqueue_each h [65; 66; 67; 68] w0 = Ret [1; 1; 1; 1] w1
    /\ p64_ringbuf_enqueue h (one 69) 1 w1 = Ret 0 w2
    /\ dequeue_times h 4 w2 = Ret [(1, 65); (1, 66); (1, 67); (1, 68)] w3.
Proof.
  destruct (@spsc_capacity sample_flags 4096 (one 0) 4 8 empty_world
              [65; 66; 67; 68] 69 sample_flags_wf)
    as (h & w0 & w1 & w2 & w3 & H0 & _ & H1 & H2 & H3);
    try reflexivity; try (unfold NULL; lia).
  exists h, w0, w1, w2, w3. repeat split; assumption.
Qed.

(** C2 at [nelems = 2^31], which [p64_ringbuf_alloc] accepts
    ([MAXELEMS] is [2^32-1]): the allocation returns a handle, and the
    first one-element enqueue on the empty ring buffer returns 0 where the
    claim has [nelems] enqueues return 1. *)
Theorem C2_capacity_sign_overflow :
  exists w0 w1,
    @p64_ringbuf_alloc sample_flags 4096 (one 0) (2 ^ 31) 3 8 empty_world = Ret 4096 w0
    /\ 4096 <> NULL
    /\ p64_ringbuf_enqueue 4096 (one 65) 1 w0 = Ret 0 w1.
Proof.
  destruct (@spsc_huge_takes_nothing sample_flags 4096 (one 0) (2 ^ 31) 8 empty_world
              (one 65) sample_flags_wf)
    as (w0 & w1 & H0 & H1); try reflexivity; try (unfold NULL; lia).
  exists w0, w1. split; [exact H0|]. split; [unfold NULL; lia | exact H1].
Qed.

(** *** The handle *)

Lemma testbit_small x m k : 0 <= x < 2 ^ m -> 0 <= m <= k -> Z.testbit x k = false.
Proof.
  intros Hx Hk. destruct (Z.eq_dec x 0) as [->|Hne]; [apply Z.bits_0|].
  apply Z.bits_above_log2; [lia|].
  assert (Z.log2 x < m) by (apply Z.log2_lt_pow2; lia). lia.
Qed.

Lemma aligned_bits p k : Z.land p 63 = 0 -> 0 <= k < 6 -> Z.testbit p k = false.
Proof.
  intros Ha Hk.
  assert (Z.testbit (Z.land p 63) k = false) as H by (rewrite Ha; apply Z.bits_0).
  rewrite Z.land_spec in H. change 63 with (Z.ones 6) in H.
  rewrite Z.ones_spec_low, andb_true_r in H by lia. exact H.
Qed.

Lemma handle_decode_bits p cf pf :
  Z.land p 63 = 0 -> 0 <= cf < 8 -> 0 <= pf < 8 ->
  RB (Z.lor (Z.lor p (Z.shiftl cf 3)) pf) = p
  /\ PROD_FLAGS (Z.lor (Z.lor p (Z.shiftl cf 3)) pf) = pf
  /\ CONS_FLAGS (Z.lor (Z.lor p (Z.shiftl cf 3)) pf) = cf.
Proof.
  intros Ha Hcf Hpf. unfold RB, PROD_FLAGS, CONS_FLAGS, FLAG_MASK.
  change 63 with (Z.ones 6). change 7 with (Z.ones 3).
  split; [|split]; apply Z.bits_inj'; intros k Hk.
  - rewrite Z.land_spec, Z.lnot_spec, !Z.lor_spec, Z.shiftl_spec by lia.
    destruct (Z.lt_ge_cases k 6).
    + rewrite Z.ones_spec_low, (aligned_bits p k Ha) by lia.
      simpl. apply andb_false_r.
    + rewrite Z.ones_spec_high by lia.
      rewrite (testbit_small cf 3 (k - 3)), (testbit_small pf 3 k) by lia.
      simpl. rewrite !orb_false_r. apply andb_true_r.
  - rewrite Z.land_spec, !Z.lor_spec.
    destruct (Z.lt_ge_cases k 3).
    + rewrite Z.ones_spec_low, (aligned_bits p k Ha), Z.shiftl_spec_low by lia.
      simpl. apply andb_true_r.
    + rewrite Z.ones_spec_high, (testbit_small pf 3 k) by lia. apply andb_false_r.
  - rewrite Z.land_spec, Z.shiftr_spec, !Z.lor_spec, Z.shiftl_spec by lia.
    replace (k + 3 - 3) with k by lia.
    destruct (Z.lt_ge_cases k 3).
    + rewrite Z.ones_spec_low, (aligned_bits p (k + 3) Ha),
        (testbit_small pf 3 (k + 3)) by lia.
      simpl. rewrite orb_false_r. apply andb_true_r.
    + rewrite Z.ones_spec_high, (testbit_small cf 3 k) by lia. apply andb_false_r.
Qed.

Lemma free_cases rb w o :
  rb <> NULL -> heap w !! RB rb = Some o ->
  p64_ringbuf_free rb w =
  if negb (cur (head (prod o)) =? cur (head (cons o)))
  then Ret tt {| heap := heap w;
                 errors := errors w ++ [not_empty_report (RB rb)];
                 cas_failures := cas_failures w |}
  else Ret tt {| heap := delete (RB rb) (heap w); errors := errors w;
                 cas_failures := cas_failures w |}.
Proof.
  intros Hrb Hh. unfold p64_ringbuf_free.
  destruct (Z.eqb_spec rb NULL) as [|_]; [contradiction|].
  simpl. unfold bind, p64_mfree. rewrite Hh.
  destruct (negb (cur (head (prod o)) =? cur (head (cons o)))); reflexivity.
Qed.

Section Handle.
Context `{FL : ringbuf_flags}.

Lemma mode_flags_range flags :
  0 <= prod_flags_of flags < 8 /\ 0 <= cons_flags_of flags < 8.
Proof.
  unfold prod_flags_of, cons_flags_of, FLAG_BLK, FLAG_NONBLK, FLAG_LOCKFREE.
  repeat match goal with |- context [negb ?b] => destruct (negb b) end;
    repeat match goal with
           | |- context [Z.lor ?a ?b] =>
               let v := eval vm_compute in (Z.lor a b) in change (Z.lor a b) with v
           end;
    lia.
Qed.

Lemma handle_decode p flags :
  Z.land p 63 = 0 ->
  RB (handle_of p flags) = p
  /\ PROD_FLAGS (handle_of p flags) = prod_flags_of flags
  /\ CONS_FLAGS (handle_of p flags) = cons_flags_of flags.
Proof.
  intros Ha. destruct (mode_flags_range flags) as [Hp Hc].
  apply handle_decode_bits; assumption.
Qed.

(** X6: the handle of [p64_ringbuf_alloc] carries the block and the
    modes.  On valid arguments and a 64-byte aligned block the handle
    returned decodes, by [RB], [PROD_FLAGS] and [CONS_FLAGS], to the block
    (which holds the ring buffer just set up) and to the producer and
    consumer mode bits chosen from [flags]: single over non-blocking over
    blocking, and the lock-free bit beside the consumer's. *)
Theorem X6_alloc_handle p ring0 nelems flags esize w :
  ~ invalid_args nelems flags ->
  p <> NULL -> Z.land p 63 = 0 ->
  exists h w',
    p64_ringbuf_alloc p ring0 nelems flags esize w = Ret h w'
    /\ RB h = p /\ heap w' !! RB h = Some (fresh_ring ring0 nelems)
    /\ PROD_FLAGS h = (if negb (Z.land flags P64_RINGBUF_F_SPENQ =? 0) then 0
                       else if negb (Z.land flags P64_RINGBUF_F_NBENQ =? 0) then FLAG_NONBLK
                       else FLAG_BLK)
    /\ CONS_FLAGS h = Z.lor
                        (if negb (Z.land flags P64_RINGBUF_F_SCDEQ =? 0) then 0
                         else if negb (Z.land flags P64_RINGBUF_F_NBDEQ =? 0) then FLAG_NONBLK
                         else FLAG_BLK)
                        (if negb (Z.land flags P64_RINGBUF_F_LFDEQ =? 0)
                         then FLAG_LOCKFREE else 0).
Proof.
  intros Hv Hp Ha. rewrite alloc_cases.
  assert (invalid_argsb nelems flags = false) as Hb.
  { destruct (invalid_argsb nelems flags) eqn:E; [|reflexivity].
    apply invalid_args_reflect in E. contradiction. }
  assert (((nelems =? 0) || (nelems >? MAXELEMS)) = false) as ->.
  { unfold invalid_argsb in Hb.
    destruct ((nelems =? 0) || (nelems >? MAXELEMS)); [discriminate | reflexivity]. }
  rewrite Hb. destruct (Z.eqb_spec p NULL) as [|_]; [contradiction|].
  destruct (handle_decode p flags Ha) as (Hrb & Hpf & Hcf).
  eexists _, _. split; [reflexivity|]. split; [exact Hrb|].
  split; [rewrite Hrb; simpl; apply lookup_insert_eq|].
  split; [exact Hpf | exact Hcf].
Qed.

(** X7: allocating and freeing at once gives the heap back.  On valid
    arguments and a fresh aligned block, [p64_ringbuf_free] of the handle
    just returned by [p64_ringbuf_alloc] reports nothing and leaves the
    heap and the error log as they were before the allocation. *)
Theorem X7_alloc_free p ring0 nelems flags esize w :
  ~ invalid_args nelems flags ->
  p <> NULL -> Z.land p 63 = 0 -> heap w !! p = None ->
  exists h w1 w2,
    p64_ringbuf_alloc p ring0 nelems flags esize w = Ret h w1
    /\ p64_ringbuf_free h w1 = Ret tt w2
    /\ heap w2 = heap w /\ errors w2 = errors w.
Proof.
  intros Hv Hp Ha Hfresh. rewrite alloc_cases.
  assert (invalid_argsb nelems flags = false) as Hb.
  { destruct (invalid_argsb nelems flags) eqn:E; [|reflexivity].
    apply invalid_args_reflect in E. contradiction. }
  assert (((nelems =? 0) || (nelems >? MAXELEMS)) = false) as ->.
  { unfold invalid_argsb in Hb.
    destruct ((nelems =? 0) || (nelems >? MAXELEMS)); [discriminate | reflexivity]. }
  rewrite Hb. destruct (Z.eqb_spec p NULL) as [|_]; [contradiction|].
  destruct (handle_decode p flags Ha) as (Hrb & _ & _).
  assert (handle_of p flags <> NULL) as Hh
    by (unfold handle_of; apply lor_nonzero_l, lor_nonzero_l, Hp).
  eexists _, _, _. split; [reflexivity|].
  rewrite (free_cases _ _ (fresh_ring ring0 nelems) Hh)
    by (rewrite Hrb; simpl; apply lookup_insert_eq).
  simpl. split; [reflexivity|]. simpl. rewrite Hrb.
  split; [apply delete_insert_id; exact Hfresh | reflexivity].
Qed.

End Handle.

Lemma sample_valid : ~ @invalid_args sample_flags 4 3.
Proof.
  intros H. apply (@invalid_args_reflect sample_flags) in H.
  vm_compute in H. discriminate.
Qed.

Lemma X6_alloc_handle_witness :
  4096 <> NULL /\ Z.land 4096 63 = 0
  /\ exists h w',
       @p64_ringbuf_alloc sample_flags 4096 (one 0) 4 3 8 empty_world = Ret h w'
       /\ RB h = 4096.
Proof.
  assert (4096 <> NULL) as Hp by (unfold NULL; lia).
  split; [exact Hp|]. split; [reflexivity|].
  destruct (@X6_alloc_handle sample_flags 4096 (one 0) 4 3 8 empty_world
              sample_valid Hp eq_refl) as (h & w' & H1 & H2 & _).
  exists h, w'. split; assumption.
Defined.

Lemma X7_alloc_free_witness :
  4096 <> NULL /\ Z.land 4096 63 = 0 /\ heap empty_world !! 4096 = None
  /\ exists h w1 w2,
       @p64_ringbuf_alloc sample_flags 4096 (one 0) 4 3 8 empty_world = Ret h w1
       /\ p64_ringbuf_free h w1 = Ret tt w2 /\ heap w2 = heap empty_world.
Proof.
  assert (4096 <> NULL) as Hp by (unfold NULL; lia).
  split; [exact Hp|]. split; [reflexivity|]. split; [reflexivity|].
  destruct (@X7_alloc_free sample_flags 4096 (one 0) 4 3 8 empty_world
              sample_valid Hp eq_refl eq_refl) as (h & w1 & w2 & H1 & H2 & H3 & _).
  exists h, w1, w2. repeat split; assumption.
Defined.

(** *** Calls that take nothing *)

Lemma MIN_le_l a b : MIN a b <= a.
Proof. unfold MIN. destruct (Z.ltb_spec a b); lia. Qed.

Lemma MIN_le_r a b : MIN a b <= b.
Proof. unfold MIN. destruct (Z.ltb_spec a b); lia. Qed.

Lemma with_rb_same {A} rb (c : ST mach A) w o a :
  heap w !! rb = Some o ->
  c {| obj := o; spurious := cas_failures w |}
    = Ret a {| obj := o; spurious := cas_failures w |} ->
  with_rb rb c w = Ret a w.
Proof.
  intros Hh Hc. unfold with_rb. rewrite Hh, Hc. cbn [obj spurious].
  rewrite (insert_id _ _ _ Hh). destruct w; reflexivity.
Qed.

Lemma acquire_loop_none fuel sd n hd cap msk tl m :
  MIN n (to_int (u32 (cap + hd - tl))) <= 0 ->
  acquire_loop fuel sd n hd cap msk tl m = Ret no_slots m.
Proof.
  intros H. destruct fuel; cbn [acquire_loop];
    rewrite (proj2 (Z.leb_le _ _) H); reflexivity.
Qed.

Lemma acquire_slots_mtsafe_none sd n m :
  MIN n (to_int (u32 (capacity (endpoint_of sd (obj m))
                      + cur (head (endpoint_of sd (obj m)))
                      - tail (endpoint_of sd (obj m))))) <= 0 ->
  acquire_slots_mtsafe sd n m = Ret no_slots m.
Proof.
  intros H. unfold acquire_slots_mtsafe, bind, load_tail, load_cur, gets.
  apply acquire_loop_none. exact H.
Qed.

Lemma acquire_slots_none headp tailp msk n cap m :
  MIN n (to_int (u32 (cap + cur (head (endpoint_of headp (obj m)))
                      - cur (head (endpoint_of tailp (obj m)))))) <= 0 ->
  acquire_slots headp tailp msk n cap m = Ret no_slots m.
Proof.
  intros H. rewrite acquire_slots_eval. cbv zeta.
  rewrite (proj2 (Z.leb_le _ _) H). reflexivity.
Qed.

Lemma lfdeq_loop_none fuel num hd tl ev m :
  MIN (to_int num) (to_int (u32 (tl - hd))) <= 0 ->
  lfdeq_loop fuel num hd tl ev m = Ret (0, ev, None) m.
Proof.
  intros H. destruct fuel; cbn [lfdeq_loop];
    rewrite (proj2 (Z.leb_le _ _) H); reflexivity.
Qed.

Lemma enqueue_nothing rb ev num w o :
  heap w !! RB rb = Some o ->
  MIN (to_int num) (to_int (u32 (capacity (prod o) + cur (head (prod o))
                                 - cur (head (cons o))))) <= 0 ->
  MIN (to_int num) (to_int (u32 (capacity (prod o) + cur (head (prod o))
                                 - tail (prod o)))) <= 0 ->
  p64_ringbuf_enqueue rb ev num w = Ret 0 w.
Proof.
  intros Hh Hsp Hmt. unfold p64_ringbuf_enqueue.
  apply (with_rb_same _ _ _ o); [exact Hh|].
  set (m := {| obj := o; spurious := cas_failures w |}).
  assert ((if Z.land (PROD_FLAGS rb) (Z.lor FLAG_BLK FLAG_NONBLK) =? 0
           then bind (gets (fun m => prod_mask (obj m))) (fun msk =>
                bind (gets (fun m => capacity (prod (obj m)))) (fun cap =>
                acquire_slots Prod Cons msk (to_int num) cap))
           else acquire_slots_mtsafe Prod (to_int num)) m = Ret no_slots m) as Hacq.
  { destruct (Z.land (PROD_FLAGS rb) (Z.lor FLAG_BLK FLAG_NONBLK) =? 0).
    - unfold bind at 1, gets at 1. unfold bind at 1, gets at 1.
      apply acquire_slots_none. exact Hsp.
    - apply acquire_slots_mtsafe_none. exact Hmt. }
  rewrite (bind_ret _ _ _ _ _ Hacq). reflexivity.
Qed.

Lemma dequeue_nothing rb out num w o :
  heap w !! RB rb = Some o ->
  MIN (to_int num) (to_int (u32 (cur (head (cons o)) - cur (head (prod o))))) <= 0 ->
  MIN (to_int num) (to_int (u32 (capacity (cons o) + cur (head (cons o))
                                 - tail (cons o)))) <= 0 ->
  p64_ringbuf_dequeue rb out num w = Ret (0, out, None) w.
Proof.
  intros Hh Hsc Hmt. unfold p64_ringbuf_dequeue.
  apply (with_rb_same _ _ _ o); [exact Hh|].
  set (m := {| obj := o; spurious := cas_failures w |}).
  destruct (negb (Z.land (CONS_FLAGS rb) FLAG_LOCKFREE =? 0)).
  - unfold bind at 1, load_cur at 1, gets at 1.
    unfold bind at 1, load_cur at 1, gets at 1.
    unfold bind at 1, gets at 1.
    apply lfdeq_loop_none. exact Hsc.
  - assert ((if Z.land (CONS_FLAGS rb) (Z.lor FLAG_BLK FLAG_NONBLK) =? 0
             then bind (gets (fun m => cons_mask (obj m))) (fun msk =>
                  acquire_slots Cons Prod msk (to_int num) 0)
             else acquire_slots_mtsafe Cons (to_int num)) m = Ret no_slots m) as Hacq.
    { destruct (Z.land (CONS_FLAGS rb) (Z.lor FLAG_BLK FLAG_NONBLK) =? 0).
      - unfold bind at 1, gets at 1.
        apply acquire_slots_none. rewrite Z.add_0_l. exact Hsc.
      - apply acquire_slots_mtsafe_none. exact Hmt. }
    rewrite (bind_ret _ _ _ _ _ Hacq). reflexivity.
Qed.

(** X8: a request for nothing changes nothing.  Whatever the mode and
    the state of the ring buffer, [p64_ringbuf_enqueue] and
    [p64_ringbuf_dequeue] called with a count that is not positive as an
    [int] (zero, or [2^31] and more) return 0 and leave the ring buffer,
    the caller's array and [*index] untouched. *)
Theorem X8_nothing_requested rb ev out num w o :
  heap w !! RB rb = Some o ->
  to_int num <= 0 ->
  p64_ringbuf_enqueue rb ev num w = Ret 0 w
  /\ p64_ringbuf_dequeue rb out num w = Ret (0, out, None) w.
Proof.
  intros Hh Hn. split.
  - apply (enqueue_nothing rb ev num w o Hh);
      (etransitivity; [apply MIN_le_l | exact Hn]).
  - apply (dequeue_nothing rb out num w o Hh);
      (etransitivity; [apply MIN_le_l | exact Hn]).
Qed.

Lemma X8_nothing_requested_witness :
  let w := {| heap := {[ 4096 := fresh_ring (one 0) 4 ]}; errors := [];
              cas_failures := [] |} in
  heap w !! RB 4100 = Some (fresh_ring (one 0) 4)
  /\ to_int (2 ^ 31) <= 0
  /\ p64_ringbuf_enqueue 4100 (one 65) (2 ^ 31) w = Ret 0 w.
Proof.
  intros w.
  assert (heap w !! RB 4100 = Some (fresh_ring (one 0) 4)) as Hh by reflexivity.
  assert (to_int (2 ^ 31) <= 0) as Hn by (vm_compute; discriminate).
  split; [exact Hh|]. split; [exact Hn|].
  exact (proj1 (X8_nothing_requested 4100 (one 65) (one 0) (2 ^ 31) w _ Hh Hn)).
Defined.

(** *** Calls made one at a time *)

Lemma fresh_between rb ring0 nelems :
  between_calls rb (fresh_ring ring0 nelems) 0 0.
Proof.
  unfold between_calls, fresh_ring.
  cbn [prod cons head tail capacity prod_mask cons_mask].
  repeat split; try lia; reflexivity.
Qed.

Lemma queued_same c : queued c c = 0.
Proof. unfold queued. rewrite Z.sub_diag. reflexivity. Qed.

Lemma queued_more d e a :
  0 <= queued d e + a < 2 ^ 32 -> queued d (u32 (e + a)) = queued d e + a.
Proof.
  intros H. unfold queued in *. rewrite u32_sub_l.
  rewrite <- (u32_small (u32 (e - d) + a)) by exact H.
  unfold u32. rewrite Zplus_mod_idemp_l. f_equal. lia.
Qed.

Lemma queued_less d e b :
  0 <= queued d e - b < 2 ^ 32 -> queued (u32 (d + b)) e = queued d e - b.
Proof.
  intros H. unfold queued in *.
  rewrite <- (u32_small (u32 (e - d) - b)) by exact H.
  rewrite u32_sub_l. unfold u32. rewrite Zminus_mod_idemp_r. f_equal. lia.
Qed.

Lemma room_left cap d e :
  queued d e <= cap -> cap < 2 ^ 31 ->
  to_int (u32 (cap + d - e)) = cap - queued d e.
Proof.
  intros Hq Hcap. pose proof (u32_range (e - d)) as Hk. unfold queued in *.
  assert (u32 (cap + d - e) = cap - u32 (e - d)) as ->.
  { rewrite <- (u32_small (cap - u32 (e - d))) by lia.
    unfold u32. rewrite Zminus_mod_idemp_r. f_equal. lia. }
  apply to_int_small. lia.
Qed.

Lemma MIN_min a b : MIN a b = Z.min a b.
Proof. unfold MIN. destruct (Z.ltb_spec a b); lia. Qed.

(** An enqueue between calls, with room for an element: it takes what
    fits, and leaves the ring buffer between calls again. *)
Lemma enqueue_between rb ev num w o d e a :
  heap w !! RB rb = Some o ->
  between_calls rb o d e ->
  queued d e < capacity (prod o) -> capacity (prod o) < 2 ^ 31 ->
  1 <= num < 2 ^ 31 ->
  a = Z.min num (capacity (prod o) - queued d e) ->
  exists w' o',
    p64_ringbuf_enqueue rb ev num w = Ret a w'
    /\ heap w' = <[RB rb := o']> (heap w) /\ errors w' = errors w
    /\ between_calls rb o' d (u32 (e + a))
    /\ queued d (u32 (e + a)) = queued d e + a
    /\ capacity (prod o') = capacity (prod o)
    /\ prod_mask o' = prod_mask o
    /\ (ring o' = nbenq_write (ring o) ev
                    {| index := e; actual := a; mask := prod_mask o |}
        \/ write_slots (ring o) ev {| index := e; actual := a; mask := prod_mask o |}
           = Some (ring o')).
Proof.
  intros Hh (Hd & He & Hph & Hch & Hpt & Hct & Hmm) Hroom Hcap Hnum Ha.
  destruct o as [[ph pt pcap] pm [ch ct ccap] cm rg].
  cbn [prod cons head tail capacity prod_mask cons_mask ring] in *. subst ph ch pm.
  pose proof (u32_range (e - d)) as Hk. fold (queued d e) in Hk.
  assert (1 <= a < 2 ^ 31) as Har by lia.
  assert (MIN (to_int num) (to_int (u32 (pcap + d - e))) = a) as Hact.
  { rewrite room_left, (to_int_small num), MIN_min by lia. lia. }
  set (o := {| prod := {| head := {| cur := d; pend := 0 |}; tail := pt; capacity := pcap |};
               prod_mask := cm;
               cons := {| head := {| cur := e; pend := 0 |}; tail := ct;
                          capacity := ccap |};
               cons_mask := cm; ring := rg |}) in *.
  set (r := {| index := e; actual := a; mask := cm |}).
  assert (exists o1 sps1,
            (if Z.land (PROD_FLAGS rb) (Z.lor FLAG_BLK FLAG_NONBLK) =? 0
             then bind (gets (fun m => prod_mask (obj m))) (fun msk =>
                  bind (gets (fun m => capacity (prod (obj m)))) (fun cap =>
                  acquire_slots Prod Cons msk (to_int num) cap))
             else acquire_slots_mtsafe Prod (to_int num))
              {| obj := o; spurious := cas_failures w |}
            = Ret r {| obj := o1; spurious := sps1 |}
            /\ ((o1 = o /\ mt_prod rb = false)
                \/ (o1 = set_tail Prod (u32 (e + a)) o /\ mt_prod rb = true)))
    as (o1 & sps1 & Hacq & Ho1).
  { unfold mt_prod in *.
    destruct (Z.land (PROD_FLAGS rb) (Z.lor FLAG_BLK FLAG_NONBLK) =? 0) eqn:Hf.
    - exists o, (cas_failures w). split; [|left; split; reflexivity].
      unfold bind at 1, gets at 1. unfold bind at 1, gets at 1.
      rewrite acquire_slots_eval. unfold o. rbsimpl. cbv zeta. rewrite Hact.
      destruct (Z.leb_spec a 0); [lia | reflexivity].
    - assert (pt = e) as Hpe by (apply Hpt; reflexivity).
      destruct (acquire_slots_mtsafe_eval Prod (to_int num) o (cas_failures w))
        as [sps' Hs].
      { unfold o. rbsimpl. rewrite Hpe, Hact. lia. }
      exists (set_tail Prod (u32 (e + a)) o), sps'. split; [|right; split; reflexivity].
      rewrite Hs. unfold o. rbsimpl. rewrite Hpe, Hact. reflexivity. }
  destruct (write_slots_total rg ev r) as [rgw Hw].
  set (rg' := if negb (Z.land (PROD_FLAGS rb) FLAG_NONBLK =? 0)
              then nbenq_write rg ev r else rgw).
  exists {| heap := <[RB rb := set_head Cons {| cur := u32 (e + a); pend := 0 |}
                               (set_ring rg' o1)]> (heap w);
            errors := errors w; cas_failures := sps1 |},
         (set_head Cons {| cur := u32 (e + a); pend := 0 |} (set_ring rg' o1)).
  split.
  - unfold p64_ringbuf_enqueue, with_rb. rewrite Hh.
    rewrite (bind_ret _ _ _ _ _ Hacq).
    unfold r at 1. cbn [actual]. destruct (Z.eqb_spec a 0) as [|_]; [lia|].
    unfold bind at 1, gets at 1. cbn [obj].
    assert (ring o1 = rg) as -> by (destruct Ho1 as [[-> _]|[-> _]]; reflexivity).
    assert ((if negb (Z.land (PROD_FLAGS rb) FLAG_NONBLK =? 0)
             then store_ring (nbenq_write rg ev r)
             else bind (lift_assert (write_slots rg ev r)) (fun rg'0 => store_ring rg'0))
              {| obj := o1; spurious := sps1 |}
            = Ret tt {| obj := set_ring rg' o1; spurious := sps1 |}) as Hwr.
    { unfold rg'. destruct (negb (Z.land (PROD_FLAGS rb) FLAG_NONBLK =? 0)).
      - reflexivity.
      - rewrite Hw. reflexivity. }
    rewrite (bind_ret _ _ _ _ _ Hwr).
    unfold bind at 1. fold r. cbn [index actual].
    rewrite release_slots_quiet; [reflexivity | exact He |].
    destruct Ho1 as [[-> _]|[-> _]]; reflexivity.
  - rbsimpl. split; [reflexivity|]. split; [reflexivity|].
    split.
    { unfold between_calls.
      split; [exact Hd|]. split; [apply u32_range|].
      destruct Ho1 as [[-> Hm]|[-> Hm]]; unfold o; rbsimpl;
        (split; [reflexivity|]); (split; [reflexivity|]);
        (split; [|split; [exact Hct | reflexivity]]).
      - intros Hc. rewrite Hm in Hc. discriminate.
      - intros _. reflexivity. }
    split; [apply queued_more; lia|].
    destruct Ho1 as [[-> _]|[-> _]]; unfold o; rbsimpl;
      (split; [reflexivity|]); (split; [reflexivity|]);
      unfold rg'; destruct (negb (Z.land (PROD_FLAGS rb) FLAG_NONBLK =? 0));
      [left; reflexivity | right; exact Hw | left; reflexivity | right; exact Hw].
Qed.

(** A dequeue between calls from a ring buffer that holds an element: it
    takes what is there, from the consumer's index on, and leaves the
    ring buffer between calls again. *)
Lemma dequeue_between rb out num w o d e b :
  heap w !! RB rb = Some o ->
  between_calls rb o d e ->
  1 <= queued d e < 2 ^ 31 ->
  1 <= num < 2 ^ 31 ->
  b = Z.min num (queued d e) ->
  exists w' o' out' ev0,
    p64_ringbuf_dequeue rb out num w = Ret (b, out', Some d) w'
    /\ heap w' = <[RB rb := o']> (heap w) /\ errors w' = errors w
    /\ read_slots (ring o) ev0 {| index := d; actual := b; mask := cons_mask o |}
       = Some out'
    /\ between_calls rb o' (u32 (d + b)) e
    /\ queued (u32 (d + b)) e = queued d e - b
    /\ ring o' = ring o
    /\ capacity (prod o') = capacity (prod o)
    /\ prod_mask o' = prod_mask o.
Proof.
  intros Hh (Hd & He & Hph & Hch & Hpt & Hct & Hmm) Hk Hnum Hb.
  destruct o as [[ph pt pcap] pm [ch ct ccap] cm rg].
  cbn [prod cons head tail capacity prod_mask cons_mask ring] in *. subst ph ch pm.
  assert (1 <= b < 2 ^ 31) as Hbr by lia.
  assert (MIN (to_int num) (to_int (u32 (e - d))) = b) as Hact.
  { fold (queued d e). rewrite !to_int_small, MIN_min by lia. lia. }
  set (o := {| prod := {| head := {| cur := d; pend := 0 |}; tail := pt; capacity := pcap |};
               prod_mask := cm;
               cons := {| head := {| cur := e; pend := 0 |}; tail := ct;
                          capacity := ccap |};
               cons_mask := cm; ring := rg |}) in *.
  set (r := {| index := d; actual := b; mask := cm |}).
  assert (forall o', head (prod o') = {| cur := u32 (d + b); pend := 0 |} ->
            head (cons o') = {| cur := e; pend := 0 |} ->
            tail (prod o') = pt ->
            (mt_cons rb = true -> tail (cons o') = u32 (d + b) /\ capacity (cons o') = 0) ->
            prod_mask o' = cons_mask o' ->
            between_calls rb o' (u32 (d + b)) e) as Hnext.
  { intros o' H1 H2 H3 H4 H5. unfold between_calls.
    split; [apply u32_range|]. split; [exact He|].
    split; [exact H1|]. split; [exact H2|].
    split; [rewrite H3; exact Hpt|]. split; [exact H4 | exact H5]. }
  assert (queued (u32 (d + b)) e = queued d e - b) as Hless
    by (apply queued_less; lia).
  unfold p64_ringbuf_dequeue, with_rb. rewrite Hh.
  unfold mt_cons in *.
  destruct (Z.land (CONS_FLAGS rb) FLAG_LOCKFREE =? 0) eqn:Hlf; cbn [negb andb] in *.
  - assert (exists o1 sps1,
              (if Z.land (CONS_FLAGS rb) (Z.lor FLAG_BLK FLAG_NONBLK) =? 0
               then bind (gets (fun m => cons_mask (obj m))) (fun msk =>
                    acquire_slots Cons Prod msk (to_int num) 0)
               else acquire_slots_mtsafe Cons (to_int num))
                {| obj := o; spurious := cas_failures w |}
              = Ret r {| obj := o1; spurious := sps1 |}
              /\ ((o1 = o
                   /\ (Z.land (CONS_FLAGS rb) (Z.lor FLAG_BLK FLAG_NONBLK) =? 0) = true)
                  \/ (o1 = set_tail Cons (u32 (d + b)) o /\ ccap = 0)))
      as (o1 & sps1 & Hacq & Ho1).
    { destruct (Z.land (CONS_FLAGS rb) (Z.lor FLAG_BLK FLAG_NONBLK) =? 0) eqn:Hf;
        cbn [negb] in *.
      - exists o, (cas_failures w). split; [|left; split; reflexivity].
        unfold bind at 1, gets at 1.
        rewrite acquire_slots_eval. unfold o. rbsimpl. cbv zeta.
        rewrite Z.add_0_l, Hact.
        destruct (Z.leb_spec b 0); [lia | reflexivity].
      - destruct (Hct eq_refl) as [Hcd Hc0].
        destruct (acquire_slots_mtsafe_eval Cons (to_int num) o (cas_failures w))
          as [sps' Hs].
        { unfold o. rbsimpl. rewrite Hcd, Hc0, Z.add_0_l, Hact. lia. }
        exists (set_tail Cons (u32 (d + b)) o), sps'.
        split; [|right; split; [reflexivity | exact Hc0]].
        rewrite Hs. unfold o. rbsimpl. rewrite Hcd, Hc0, Z.add_0_l, Hact.
        reflexivity. }
    destruct (read_slots_total rg out r) as [out' Hr].
    rewrite (bind_ret _ _ _ _ _ Hacq).
    unfold r at 1. cbn [actual]. destruct (Z.eqb_spec b 0) as [|_]; [lia|].
    unfold bind at 1, gets at 1. cbn [obj].
    assert (ring o1 = rg) as -> by (destruct Ho1 as [[-> _]|[-> _]]; reflexivity).
    rewrite Hr. unfold bind at 1, lift_assert, ret at 1.
    unfold bind at 1. fold r. cbn [index actual].
    rewrite release_slots_quiet;
      [| exact Hd | destruct Ho1 as [[-> _]|[-> _]]; reflexivity].
    unfold ret. eexists _, _, out', out. split; [reflexivity|].
    rbsimpl. split; [reflexivity|]. split; [reflexivity|]. split; [exact Hr|].
    split.
    { apply Hnext; destruct Ho1 as [[-> Hm]|[-> Hm]]; unfold o; rbsimpl;
        try reflexivity.
      - intros Hc. rewrite Hm in Hc. discriminate.
      - intros _. split; [reflexivity | exact Hm]. }
    split; [exact Hless|].
    destruct Ho1 as [[-> _]|[-> _]]; unfold o; rbsimpl; repeat split.
  - (* lock-free dequeue *)
    destruct (lfdeq_loop_eval num d e (cas_failures w)
                (S (S (length (cas_failures w)))) o out ltac:(lia) eq_refl)
      as (sps' & ev0 & ev' & Hs & Hr).
    { rewrite Hact. lia. }
    rewrite Hact in Hs, Hr.
    unfold bind at 1, load_cur at 1, gets at 1.
    unfold bind at 1, load_cur at 1, gets at 1.
    unfold bind at 1, gets at 1. unfold o at 1 2 3. rbsimpl. fold o.
    rewrite Hs.
    eexists _, _, ev', ev0. split; [reflexivity|].
    rbsimpl. split; [reflexivity|]. split; [reflexivity|].
    split; [exact Hr|].
    split.
    { apply Hnext; unfold o; rbsimpl; try reflexivity. intros Hc. discriminate. }
    split; [exact Hless|]. unfold o. rbsimpl. repeat split.
Qed.

(** A dequeue finds nothing when the path of the handle sees no element. *)
Lemma dequeue_nothing_for rb out num w o :
  heap w !! RB rb = Some o ->
  (mt_cons rb = false ->
   MIN (to_int num) (to_int (u32 (cur (head (cons o)) - cur (head (prod o))))) <= 0) ->
  (mt_cons rb = true ->
   MIN (to_int num) (to_int (u32 (capacity (cons o) + cur (head (cons o))
                                  - tail (cons o)))) <= 0) ->
  p64_ringbuf_dequeue rb out num w = Ret (0, out, None) w.
Proof.
  intros Hh Hsc Hmt. unfold p64_ringbuf_dequeue.
  apply (with_rb_same _ _ _ o); [exact Hh|].
  set (m := {| obj := o; spurious := cas_failures w |}).
  unfold mt_cons in *.
  destruct (Z.land (CONS_FLAGS rb) FLAG_LOCKFREE =? 0) eqn:Hlf; cbn [negb andb] in *.
  - assert ((if Z.land (CONS_FLAGS rb) (Z.lor FLAG_BLK FLAG_NONBLK) =? 0
             then bind (gets (fun m => cons_mask (obj m))) (fun msk =>
                  acquire_slots Cons Prod msk (to_int num) 0)
             else acquire_slots_mtsafe Cons (to_int num)) m = Ret no_slots m) as Hacq.
    { destruct (Z.land (CONS_FLAGS rb) (Z.lor FLAG_BLK FLAG_NONBLK) =? 0);
        cbn [negb] in *.
      - unfold bind at 1, gets at 1.
        apply acquire_slots_none. rewrite Z.add_0_l. apply Hsc. reflexivity.
      - apply acquire_slots_mtsafe_none. apply Hmt. reflexivity. }
    rewrite (bind_ret _ _ _ _ _ Hacq). reflexivity.
  - unfold bind at 1, load_cur at 1, gets at 1.
    unfold bind at 1, load_cur at 1, gets at 1.
    unfold bind at 1, gets at 1.
    apply lfdeq_loop_none. apply Hsc. reflexivity.
Qed.

(** One element through a ring buffer between calls that holds no
    element, fresh or drained, of capacity from 1 to [2^31 - 1], in every
    mode: the enqueue takes it, the dequeue returns it, and the ring
    buffer is between calls and empty again. *)
Lemma round_trip_between rb v ev out w o c :
  heap w !! RB rb = Some o ->
  between_calls rb o c c ->
  1 <= capacity (prod o) < 2 ^ 31 ->
  ev 0 = v ->
  exists w1 w2 o2 out',
    p64_ringbuf_enqueue rb ev 1 w = Ret 1 w1
    /\ p64_ringbuf_dequeue rb out 1 w1 = Ret (1, out', Some c) w2
    /\ out' 0 = v
    /\ heap w2 !! RB rb = Some o2
    /\ between_calls rb o2 (u32 (c + 1)) (u32 (c + 1))
    /\ capacity (prod o2) = capacity (prod o).
Proof.
  intros Hh Hq Hcap Hv.
  pose proof Hq as (Hc & _).
  destruct (enqueue_between rb ev 1 w o c c 1 Hh Hq)
    as (w1 & o1 & Henq & Hheap1 & _ & Hb1 & Hq1 & Hcap1 & Hpm1 & Hring1);
    rewrite ?queued_same; try lia.
  rewrite queued_same, Z.add_0_l in Hq1.
  pose proof Hb1 as (_ & _ & _ & _ & _ & _ & Hmm1).
  assert (heap w1 !! RB rb = Some o1) as Hh1
    by (rewrite Hheap1; apply lookup_insert_eq).
  destruct (dequeue_between rb out 1 w1 o1 c (u32 (c + 1)) 1 Hh1 Hb1)
    as (w2 & o2 & out' & ev0 & Hdeq & Hheap2 & _ & Hread & Hb2 & _ & _ & Hcap2 & _);
    rewrite ?Hq1; try lia.
  exists w1, w2, o2, out'. split; [exact Henq|]. split; [exact Hdeq|].
  split.
  { rewrite <- Hmm1, Hpm1 in Hread.
    assert (ring o1 (Z.land c (prod_mask o)) = v) as Hslot.
    { destruct Hring1 as [Hr|Hr].
      - rewrite Hr. unfold nbenq_write. cbn [index actual mask Z.sub Z.to_nat].
        change (Z.to_nat (1 - 1)) with 0%nat. cbn [nbenq_from].
        rewrite Z.add_0_r, (u32_small c Hc), upd_same. exact Hv.
      - unfold write_slots in Hr. cbn [index actual mask] in Hr.
        change (1 <=? 1) with true in Hr. cbv iota in Hr.
        injection Hr as <-. rewrite upd_same. exact Hv. }
    unfold read_slots in Hread. cbn [index actual mask] in Hread.
    change (1 <=? 1) with true in Hread. cbv iota in Hread.
    injection Hread as <-. rewrite upd_same. exact Hslot. }
  split; [rewrite Hheap2; apply lookup_insert_eq|].
  split; [exact Hb2|]. rewrite Hcap2. exact Hcap1.
Qed.

(** C5 at [nelems = 2^31], which [p64_ringbuf_alloc] accepts
    ([MAXELEMS] is [2^32-1]): in each of the twelve modes the allocation
    returns a handle, the enqueue of [v] on the fresh, empty ring buffer
    returns 0, and the dequeue after it returns 0 and leaves the caller's
    array alone, where the claim has the dequeue return [v]; one
    element fewer, at [nelems = 2^31 - 1], [v] comes back in each of
    them. *)
Theorem C5_round_trip_sign_overflow :
  forallb (fun flags => @round_trip_refused sample_flags flags (2 ^ 31) 65)
    [0; 1; 4; 2; 3; 6; 8; 9; 12; 16; 17; 20] = true
  /\ forallb (fun flags => @round_trip_returns sample_flags flags (2 ^ 31 - 1) 65)
       [0; 1; 4; 2; 3; 6; 8; 9; 12; 16; 17; 20] = true
  /\ exists w0 w1,
       @p64_ringbuf_alloc sample_flags 4096 (one 0) (2 ^ 31) 0 8 empty_world
       = Ret 4105 w0
       /\ 4105 <> NULL
       /\ p64_ringbuf_enqueue 4105 (one 65) 1 w0 = Ret 0 w1
       /\ p64_ringbuf_dequeue 4105 (one 0) 1 w1 = Ret (0, one 0, None) w1.
Proof.
  split; [vm_compute; reflexivity|]. split; [vm_compute; reflexivity|].
  eexists _, _. split; [vm_compute; reflexivity|].
  split; [unfold NULL; lia|]. split; [vm_compute; reflexivity|].
  vm_compute. reflexivity.
Qed.

(** X9: dequeueing from an empty ring buffer.  In every mode,
    [p64_ringbuf_dequeue] on a ring buffer between calls that holds no
    element, fresh or drained, returns 0 whatever the count asked for, and
    leaves the ring buffer, the caller's array and [*index] untouched. *)
Theorem X9_dequeue_empty rb out num w o c :
  heap w !! RB rb = Some o ->
  between_calls rb o c c ->
  p64_ringbuf_dequeue rb out num w = Ret (0, out, None) w.
Proof.
  intros Hh (Hc & _ & Hph & Hch & _ & Hct & _).
  apply (dequeue_nothing_for rb out num w o Hh).
  - intros _. rewrite Hph, Hch. cbn [cur]. replace (c - c) with 0 by lia.
    change (to_int (u32 0)) with 0. apply MIN_le_r.
  - intros Hm. destruct (Hct Hm) as [Ht Hc0]. rewrite Hch, Ht, Hc0. cbn [cur].
    replace (0 + c - c) with 0 by lia.
    change (to_int (u32 0)) with 0. apply MIN_le_r.
Qed.

Ltac between_here :=
  unfold between_calls, mt_prod, mt_cons;
  cbn [prod cons head tail capacity prod_mask cons_mask];
  repeat match goal with |- _ /\ _ => split end;
  try lia; try reflexivity;
  try (let Hm := fresh in intros Hm; vm_compute in Hm; discriminate Hm);
  try (intros _; vm_compute; repeat split; reflexivity).

Lemma X9_dequeue_empty_witness :
  exists h w o,
    @after_round_trip sample_flags 3 4 65 = Some (h, w)
    /\ heap w !! RB h = Some o
    /\ between_calls h o 1 1
    /\ tail (prod o) = 0 /\ tail (cons o) = 0
    /\ p64_ringbuf_dequeue h (one 7) 3 w = Ret (0, one 7, None) w.
Proof.
  eexists _, _, _.
  split; [vm_compute; reflexivity|].
  split; [vm_compute; reflexivity|].
  split; [between_here|].
  split; [reflexivity|]. split; [reflexivity|].
  eapply (X9_dequeue_empty _ _ _ _ _ 1); [vm_compute; reflexivity | between_here].
Defined.

(** After one element went through, the ring buffer of each of the twelve
    modes is between calls and empty, at index 1. *)
Lemma drained_between :
  Forall (fun flags =>
            exists h w o,
              @after_round_trip sample_flags flags 4 65 = Some (h, w)
              /\ heap w !! RB h = Some o /\ between_calls h o 1 1)
    [0; 1; 4; 2; 3; 6; 8; 9; 12; 16; 17; 20].
Proof.
  repeat (apply List.Forall_cons;
          [eexists _, _, _;
           split; [vm_compute; reflexivity|];
           split; [vm_compute; reflexivity | between_here]|]).
  apply List.Forall_nil.
Qed.

(** *** Batches *)

Lemma nb_slot_is_slot r k i :
  mask r = Z.ones k -> 0 <= k <= 32 -> 0 <= i < 2 ^ k ->
  nb_slot r i = slot_of r i.
Proof.
  intros Hm Hk Hi. unfold nb_slot, slot_of, seg0_of. rewrite Hm.
  rewrite !Z.land_ones by lia. rewrite Z.ones_equiv.
  assert (0 < 2 ^ k) as Hpos by (apply Z.pow_pos_nonneg; lia).
  assert (u32 (index r + i) mod 2 ^ k = (index r + i) mod 2 ^ k) as ->.
  { unfold u32. apply Z.mod_mod_divide.
    exists (2 ^ (32 - k)). rewrite <- Z.pow_add_r by lia. f_equal. lia. }
  pose proof (Z.mod_pos_bound (index r) (2 ^ k) Hpos) as Hb.
  rewrite <- Zplus_mod_idemp_l.
  destruct (Z.ltb_spec i (Z.pred (2 ^ k) + 1 - index r mod 2 ^ k)).
  - apply Z.mod_small. lia.
  - symmetry. apply Z.mod_unique with (q := 1); lia.
Qed.

Lemma nbenq_from_spec ev r : forall todo i0 rg,
  (forall i1 i2, i0 <= i1 < i0 + Z.of_nat todo -> i0 <= i2 < i0 + Z.of_nat todo ->
     nb_slot r i1 = nb_slot r i2 -> i1 = i2) ->
  (forall i, i0 <= i < i0 + Z.of_nat todo ->
     nbenq_from todo i0 rg ev r (nb_slot r i) = ev i)
  /\ (forall j, (forall i, i0 <= i < i0 + Z.of_nat todo -> nb_slot r i <> j) ->
        nbenq_from todo i0 rg ev r j = rg j).
Proof.
  induction todo as [|todo IH]; intros i0 rg Hinj.
  - split; [intros i Hi; simpl in Hi; lia | reflexivity].
  - rewrite Nat2Z.inj_succ in *. cbn [nbenq_from].
    fold (nb_slot r i0).
    destruct (IH (i0 + 1) (upd rg (nb_slot r i0) (ev i0))) as [Hin Hout].
    { intros i1 i2 H1 H2. apply Hinj; lia. }
    split.
    + intros i Hi. destruct (Z.eq_dec i i0) as [->|Hne].
      * rewrite Hout; [apply upd_same|].
        intros i' Hi' Heq. apply Hinj in Heq; lia.
      * apply Hin. lia.
    + intros j Hj. rewrite Hout by (intros i' Hi'; apply Hj; lia).
      unfold upd. destruct (Z.eqb_spec j (nb_slot r i0)) as [He|]; [|reflexivity].
      exfalso. apply (Hj i0); [lia | symmetry; exact He].
Qed.

Lemma nbenq_write_at rg ev r k :
  mask r = Z.ones k -> 0 <= k <= 32 -> 1 <= actual r <= 2 ^ k ->
  forall i, 0 <= i < actual r -> nbenq_write rg ev r (slot_of r i) = ev i.
Proof.
  intros Hm Hk Ha i Hi.
  assert (0 <= mask r < 2 ^ 32) as Hmr.
  { rewrite Hm, Z.ones_equiv.
    assert (2 ^ k <= 2 ^ 32) by (apply Z.pow_le_mono_r; lia).
    pose proof (Z.pow_pos_nonneg 2 k). lia. }
  assert (actual r <= mask r + 1) as Ham by (rewrite Hm, Z.ones_equiv; lia).
  assert (forall i1 i2, 0 <= i1 < actual r -> 0 <= i2 < actual r ->
            nb_slot r i1 = nb_slot r i2 -> i1 = i2) as Hinj.
  { intros i1 i2 H1 H2. rewrite !(nb_slot_is_slot r k) by (try assumption; lia).
    apply slot_of_inj; assumption. }
  destruct (nbenq_from_spec ev r (Z.to_nat (actual r - 1)) 1 rg) as [Hin _].
  { intros i1 i2 H1 H2. rewrite Z2Nat.id in H1, H2 by lia. apply Hinj; lia. }
  rewrite <- (nb_slot_is_slot r k) by (try assumption; lia).
  unfold nbenq_write. fold (nb_slot r 0).
  destruct (Z.eq_dec i 0) as [->|Hne]; [apply upd_same|].
  unfold upd. destruct (Z.eqb_spec (nb_slot r i) (nb_slot r 0)) as [He|_].
  - apply Hinj in He; lia.
  - apply Hin. rewrite Z2Nat.id by lia. lia.
Qed.

Lemma write_slots_at rg ev r rg' :
  0 <= mask r < 2 ^ 32 -> 1 <= actual r <= mask r + 1 -> actual r < 2 ^ 32 ->
  write_slots rg ev r = Some rg' ->
  forall i, 0 <= i < actual r -> rg' (slot_of r i) = ev i.
Proof.
  intros Hm Ha Ha32 Hw i Hi.
  destruct (write_slots_spec rg ev r Hm Ha Ha32) as (rg1 & Hw1 & Hspec).
  rewrite Hw in Hw1. injection Hw1 as <-.
  destruct (code_seg0 r Hm) as [Hb _].
  rewrite Hspec. unfold slot_of, seg0_of. bool_cases; try lia; f_equal; lia.
Qed.

(** X10: an enqueue of more than fits takes what fits.  On a ring buffer
    between calls that holds no element, fresh or drained, of capacity
    [cap] from 1 to [2^31 - 1], in every mode, [p64_ringbuf_enqueue] of
    [num] elements returns [min(num, cap)] and advances the index the
    consumer sees by as much. *)
Theorem X10_enqueue_partial rb ev num w o c :
  heap w !! RB rb = Some o ->
  between_calls rb o c c ->
  1 <= num < 2 ^ 31 -> 1 <= capacity (prod o) < 2 ^ 31 ->
  exists w' o',
    p64_ringbuf_enqueue rb ev num w = Ret (Z.min num (capacity (prod o))) w'
    /\ heap w' !! RB rb = Some o'
    /\ head (cons o') = {| cur := u32 (c + Z.min num (capacity (prod o))); pend := 0 |}
    /\ head (prod o') = head (prod o).
Proof.
  intros Hh Hq Hnum Hcap.
  destruct (enqueue_between rb ev num w o c c (Z.min num (capacity (prod o))) Hh Hq)
    as (w' & o' & Henq & Hheap & _ & Hb & _);
    rewrite ?queued_same; try lia.
  exists w', o'. split; [exact Henq|].
  split; [rewrite Hheap; apply lookup_insert_eq|].
  destruct Hb as (_ & _ & Hph' & Hch' & _).
  split; [exact Hch'|].
  destruct Hq as (_ & _ & Hph0 & _). rewrite Hph', Hph0. reflexivity.
Qed.

Lemma X10_enqueue_partial_witness :
  exists h w o w',
    @after_round_trip sample_flags 1 4 65 = Some (h, w)
    /\ heap w !! RB h = Some o
    /\ between_calls h o 1 1
    /\ tail (prod o) = 0 /\ tail (cons o) = 1
    /\ p64_ringbuf_enqueue h (one 65) 9 w = Ret 4 w'.
Proof.
  eexists _, _, _.
  match goal with |- exists w', ?A /\ ?B /\ ?C /\ ?D /\ ?E /\ _ =>
    assert (A) as Ha by (vm_compute; reflexivity);
    assert (B) as Hh by (vm_compute; reflexivity);
    assert (C) as Hb by between_here
  end.
  destruct (X10_enqueue_partial _ (one 65) 9 _ _ 1 Hh Hb) as (w' & _ & He & _);
    [lia | cbn; lia |].
  exists w'. split; [exact Ha|]. split; [exact Hh|]. split; [exact Hb|].
  split; [reflexivity|]. split; [reflexivity|]. exact He.
Defined.

(** X11: batches come back in order, in every mode.  On a ring buffer
    between calls that holds no element, fresh or drained, whose mask is a
    power of two minus one, at least as large as the capacity [cap], itself
    from 1 to [2^31 - 1], an enqueue of [num] elements followed by a
    dequeue of [num'] returns [min(num, cap)] and then
    [min(num', min(num, cap))], and the elements dequeued are the first
    elements enqueued, in the order of the caller's array, whether the
    range wraps around the end of the ring or not. *)
Theorem X11_batch_round_trip rb ev out w o c num num' k :
  heap w !! RB rb = Some o ->
  between_calls rb o c c ->
  prod_mask o = Z.ones k -> 0 <= k <= 32 ->
  1 <= capacity (prod o) <= 2 ^ k -> capacity (prod o) < 2 ^ 31 ->
  1 <= num < 2 ^ 31 -> 1 <= num' < 2 ^ 31 ->
  exists w1 w2 out',
    p64_ringbuf_enqueue rb ev num w = Ret (Z.min num (capacity (prod o))) w1
    /\ p64_ringbuf_dequeue rb out num' w1
       = Ret (Z.min num' (Z.min num (capacity (prod o))), out', Some c) w2
    /\ forall i, 0 <= i < Z.min num' (Z.min num (capacity (prod o))) -> out' i = ev i.
Proof.
  intros Hh Hq Hmask Hk Hcap Hcap31 Hnum Hnum'.
  set (a := Z.min num (capacity (prod o))).
  destruct (enqueue_between rb ev num w o c c a Hh Hq)
    as (w1 & o1 & Henq & Hheap1 & _ & Hb1 & Hq1 & _ & Hpm & Hring);
    rewrite ?queued_same; try (unfold a; lia).
  rewrite queued_same, Z.add_0_l in Hq1.
  assert (heap w1 !! RB rb = Some o1) as Hh1
    by (rewrite Hheap1; apply lookup_insert_eq).
  destruct (dequeue_between rb out num' w1 o1 c (u32 (c + a)) (Z.min num' a) Hh1 Hb1)
    as (w2 & o2 & out' & ev0 & Hdeq & _ & _ & Hread & _);
    rewrite ?Hq1; try (unfold a; lia).
  set (b := Z.min num' a) in *.
  exists w1, w2, out'. split; [exact Henq|]. split; [exact Hdeq|].
  assert (0 <= Z.ones k < 2 ^ 32) as Hmr.
  { rewrite Z.ones_equiv.
    assert (2 ^ k <= 2 ^ 32) by (apply Z.pow_le_mono_r; lia).
    pose proof (Z.pow_pos_nonneg 2 k). lia. }
  assert (Z.ones k + 1 = 2 ^ k) as Hsz by (rewrite Z.ones_equiv; lia).
  assert (cons_mask o1 = Z.ones k) as Hcm1.
  { destruct Hb1 as (_ & _ & _ & _ & _ & _ & Hmm1). rewrite <- Hmm1, Hpm. exact Hmask. }
  rewrite Hcm1 in Hread.
  assert (forall i, 0 <= i < a ->
            ring o1 (slot_of {| index := c; actual := a; mask := Z.ones k |} i) = ev i)
    as Hslots.
  { rewrite Hmask in Hring. intros i Hi. destruct Hring as [Hr|Hr].
    - rewrite Hr.
      apply (nbenq_write_at (ring o) ev
               {| index := c; actual := a; mask := Z.ones k |} k);
        cbn [mask actual]; try reflexivity; unfold a in *; lia.
    - apply (write_slots_at (ring o) ev
               {| index := c; actual := a; mask := Z.ones k |} (ring o1));
        cbn [mask actual]; try exact Hr; unfold a in *; lia. }
  destruct (read_slots_spec (ring o1) ev0 {| index := c; actual := b; mask := Z.ones k |})
    as (out1 & Hr1 & Hspec); cbn [mask actual]; try (unfold b, a; lia).
  rewrite Hread in Hr1. injection Hr1 as <-.
  intros i Hi. rewrite Hspec. cbn [actual].
  destruct (Z.leb_spec 0 i), (Z.ltb_spec i b); try lia. cbn [andb].
  apply (Hslots i). unfold b in *. lia.
Qed.

Lemma X11_batch_round_trip_witness :
  exists h w o w1 w2 out',
    @after_round_trip sample_flags 16 4 65 = Some (h, w)
    /\ heap w !! RB h = Some o
    /\ between_calls h o 1 1
    /\ tail (prod o) = 1 /\ tail (cons o) = 0
    /\ p64_ringbuf_enqueue h (fun i => 100 + i) 9 w = Ret 4 w1
    /\ p64_ringbuf_dequeue h (one 0) 3 w1 = Ret (3, out', Some 1) w2
    /\ out' 0 = 100 /\ out' 2 = 102.
Proof.
  eexists _, _, _.
  match goal with |- exists w1 w2 out', ?A /\ ?B /\ ?C /\ _ =>
    assert (A) as Ha by (vm_compute; reflexivity);
    assert (B) as Hh by (vm_compute; reflexivity);
    assert (C) as Hb by between_here
  end.
  destruct (X11_batch_round_trip _ (fun i => 100 + i) (one 0) _ _ 1 9 3 2
              Hh Hb eq_refl)
    as (w1 & w2 & out' & He & Hd & Hout); try (cbn; lia).
  exists w1, w2, out'. split; [exact Ha|]. split; [exact Hh|]. split; [exact Hb|].
  split; [reflexivity|]. split; [reflexivity|].
  split; [exact He|]. split; [exact Hd|].
  split; [apply (Hout 0) | apply (Hout 2)]; cbn; lia.
Defined.

(** X12: the assertions of the slot copies hold.  For every range
    [{index, actual, mask}], well formed or not, neither [write_slots] nor
    [read_slots] stops at an [assert]: the first segment as computed never
    reaches past the end of the ring, and the two-segment branch is only
    taken with a shorter first segment. *)
Theorem X12_copy_asserts_hold rg ev r :
  write_slots rg ev r <> None /\ read_slots rg ev r <> None.
Proof.
  split.
  - destruct (write_slots_total rg ev r) as [rg' ->]. discriminate.
  - destruct (read_slots_total rg ev r) as [ev' ->]. discriminate.
Qed.

(** *** Releases out of order *)

Lemma u32_add_l a b : u32 (u32 a + b) = u32 (a + b).
Proof. unfold u32. apply Zplus_mod_idemp_l. Qed.

Lemma release_pending_alone idx n c p neu :
  0 <= idx < 2 ^ 32 -> 0 <= c < 2 ^ 32 -> 0 <= p < 2 ^ 32 ->
  ~ (c = idx /\ p = 0) ->
  u32 (idx + n - c) <= PENDMAX ->
  pending_update idx n (load64 {| cur := c; pend := p |}) = Some neu ->
  release_nonblk_alone idx n (load64 {| cur := c; pend := p |}) = inr neu.
Proof.
  intros Hi Hc Hp Hne Hd Hupd. unfold release_nonblk_alone.
  rewrite release_nonblk_step_miss by assumption.
  rewrite (proj2 (Z.leb_le _ _) Hd). cbv beta iota.
  unfold release_nonblk_step. rewrite Hupd. unfold cas.
  rewrite Z.eqb_refl. reflexivity.
Qed.

(** X13: two non-blocking releases out of order add up.  With the cell at
    [{c, 0}], one releaser holding the [n1] slots at [c] and another the
    [n2] slots after them ([n1 + n2 <= PENDMAX]): when the second releases
    first, [cur] stays at [c] and exactly the bits [n1 .. n1+n2-1] of
    [pend] are set; the release of the first range then moves [cur] past
    both ranges and leaves no bit pending, also when the index wraps
    around [2^32]. *)
Theorem X13_releases_coalesce c n1 n2 :
  0 <= c < 2 ^ 32 -> 1 <= n1 -> 1 <= n2 -> n1 + n2 <= PENDMAX ->
  exists mid,
    0 < mid < 2 ^ 32
    /\ release_nonblk_alone (u32 (c + n1)) n2 (load64 {| cur := c; pend := 0 |})
       = inr (load64 {| cur := c; pend := mid |})
    /\ (forall k, 0 <= k -> Z.testbit mid k = in_window n1 n2 k)
    /\ release_nonblk_alone c n1 (load64 {| cur := c; pend := mid |})
       = inr (load64 {| cur := u32 (c + n1 + n2); pend := 0 |}).
Proof.
  unfold PENDMAX. intros Hc Hn1 Hn2 Hsum.
  assert (u32 (u32 (c + n1) - c) = n1) as Hoff.
  { rewrite u32_sub_l. replace (c + n1 - c) with n1 by lia. apply u32_small. lia. }
  assert (u32 (c - c) = 0) as Hz by (rewrite Z.sub_diag; reflexivity).
  pose proof (u32_range (c + n1)) as Hidx.
  destruct (pending_update_spec (u32 (c + n1)) n2 c 0)
    as (np & io & Hbits & Hio & Hlow & Hhi & Hupd & Hrange);
    try (unfold PENDMAX; lia).
  { intros k _. apply Z.testbit_0_l. }
  rewrite Hoff in Hbits.
  assert (forall k, 0 <= k -> Z.testbit np k = in_window n1 n2 k) as Hnp.
  { intros k Hk. rewrite Hbits by lia. rewrite Z.testbit_0_l. reflexivity. }
  assert (io = 0) as ->.
  { destruct (Z.eq_dec io 0) as [|Hne]; [assumption|].
    specialize (Hlow 0 ltac:(lia)). rewrite Hnp in Hlow by lia.
    unfold in_window in Hlow. destruct (Z.leb_spec n1 0); [lia | discriminate]. }
  rewrite Z.add_0_r, (u32_small c Hc), Z.shiftr_0_r in Hupd.
  rewrite Z.shiftr_0_r in Hrange.
  assert (np <> 0) as Hnz.
  { intros ->. specialize (Hnp n1 ltac:(lia)). rewrite Z.testbit_0_l in Hnp.
    unfold in_window in Hnp.
    destruct (Z.leb_spec n1 n1), (Z.ltb_spec n1 (n1 + n2)); try lia; discriminate. }
  exists np. split; [lia|]. split.
  { apply release_pending_alone; try assumption; try lia.
    - intros [He _]. rewrite <- He, Hz in Hoff. lia.
    - replace (u32 (c + n1) + n2 - c) with (u32 (c + n1) + (n2 - c)) by lia.
      rewrite u32_add_l. replace (c + n1 + (n2 - c)) with (n1 + n2) by lia.
      rewrite u32_small by lia. unfold PENDMAX. lia. }
  split; [exact Hnp|].
  destruct (pending_update_spec c n1 c np)
    as (np' & io' & Hbits' & Hio' & Hlow' & Hhi' & Hupd' & Hrange');
    try (unfold PENDMAX; lia).
  { rewrite Hz. intros k Hk. rewrite Hnp by lia. unfold in_window.
    destruct (Z.leb_spec n1 k); [lia | reflexivity]. }
  rewrite Hz in Hbits'.
  assert (forall k, 0 <= k -> Z.testbit np' k = (k <? n1 + n2)) as Hb.
  { intros k Hk. rewrite Hbits', Hnp by lia. unfold in_window.
    destruct (Z.leb_spec n1 k), (Z.ltb_spec k (n1 + n2)), (Z.leb_spec 0 k),
      (Z.ltb_spec k (0 + n1)); cbn [andb orb]; try reflexivity; lia. }
  assert (io' = n1 + n2) as ->.
  { destruct (Z.lt_trichotomy io' (n1 + n2)) as [Hlt | [He | Hgt]]; [|exact He|].
    - rewrite Hb in Hhi' by lia.
      destruct (Z.ltb_spec io' (n1 + n2)); [discriminate | lia].
    - specialize (Hlow' (n1 + n2) ltac:(lia)). rewrite Hb in Hlow' by lia.
      destruct (Z.ltb_spec (n1 + n2) (n1 + n2)); [lia | discriminate]. }
  assert (Z.shiftr np' (n1 + n2) = 0) as Hs.
  { apply Z.bits_inj'. intros k Hk. rewrite Z.shiftr_spec by lia.
    rewrite Hb by lia. rewrite Z.testbit_0_l. apply Z.ltb_ge. lia. }
  rewrite Hs, Z.add_assoc in Hupd'.
  apply release_pending_alone; try assumption; try lia.
  replace (c + n1 - c) with n1 by lia. rewrite u32_small by lia.
  unfold PENDMAX. lia.
Qed.

Lemma X13_releases_coalesce_witness :
  0 <= 4294967295 < 2 ^ 32 /\ 1 + 2 <= PENDMAX
  /\ release_nonblk_alone 4294967295 1 (load64 {| cur := 4294967295; pend := 6 |})
     = inr (load64 {| cur := 2; pend := 0 |}).
Proof.
  split; [lia|]. split; [unfold PENDMAX; lia|].
  destruct (X13_releases_coalesce 4294967295 1 2) as (mid & Hr & _ & Hbits & Hrel);
    try (unfold PENDMAX; lia).
  assert (mid = 6) as ->; [|exact Hrel].
  apply Z.bits_inj'. intros k Hk. rewrite Hbits by lia.
  destruct (Z.eq_dec k 0) as [->|]; [reflexivity|].
  destruct (Z.eq_dec k 1) as [->|]; [reflexivity|].
  destruct (Z.eq_dec k 2) as [->|]; [reflexivity|].
  unfold in_window. destruct (Z.leb_spec 1 k), (Z.ltb_spec k (1 + 2)); try lia.
  cbn [andb]. symmetry. apply Z.bits_above_log2; [lia | cbn; lia].
Defined.

(** X14: a multi-thread-safe acquire alone returns.  However many times the
    weak compare-and-swap fails spuriously, [acquire_slots_mtsafe] run
    with no other thread ends: it returns [min(n, (int)(capacity + head -
    tail))] slots when that is positive, at the old [tail] and with the
    endpoint's mask, having moved [tail] by exactly that number; otherwise
    it returns no slot and stores nothing. *)
Theorem X14_acquire_mtsafe_returns sd n o sps :
  exists r sps',
    acquire_slots_mtsafe sd n {| obj := o; spurious := sps |}
    = Ret r {| obj := (if actual r =? 0 then o
                       else set_tail sd (u32 (tail (endpoint_of sd o) + actual r)) o);
               spurious := sps' |}
    /\ actual r
       = Z.max 0 (Z.min n (to_int (u32 (capacity (endpoint_of sd o)
                                        + cur (head (endpoint_of sd o))
                                        - tail (endpoint_of sd o)))))
    /\ (0 < actual r ->
        index r = tail (endpoint_of sd o) /\ mask r = mask_after sd o).
Proof.
  set (avail := to_int (u32 (capacity (endpoint_of sd o)
                             + cur (head (endpoint_of sd o))
                             - tail (endpoint_of sd o)))).
  assert (MIN n avail = Z.min n avail) as Hmin.
  { unfold MIN. destruct (Z.ltb_spec n avail); lia. }
  destruct (Z.le_gt_cases (MIN n avail) 0) as [Hle | Hgt].
  - exists no_slots, sps.
    rewrite acquire_slots_mtsafe_none by exact Hle.
    cbn [actual no_slots]. split; [reflexivity|]. split; lia.
  - destruct (acquire_slots_mtsafe_eval sd n o sps) as [sps' He]; [exact Hgt|].
    fold avail in He.
    exists {| index := tail (endpoint_of sd o); actual := MIN n avail;
              mask := mask_after sd o |}, sps'.
    rewrite He. cbn [actual index mask].
    destruct (Z.eqb_spec (MIN n avail) 0); [lia|].
    split; [reflexivity|]. split; [lia|]. intros _. split; reflexivity.
Qed.

(** *** The two-phase interface *)

Lemma bind_ext {S A B} (c : ST S A) (k1 k2 : A -> ST S B) s :
  (forall a s', c s = Ret a s' -> k1 a s' = k2 a s') ->
  bind c k1 s = bind c k2 s.
Proof.
  intros H. unfold bind. destruct (c s) as [a s'|f]; [|reflexivity].
  apply H. reflexivity.
Qed.

Lemma with_rb_ext {A} rb (c1 c2 : ST mach A) w :
  (forall m, c1 m = c2 m) -> with_rb rb c1 w = with_rb rb c2 w.
Proof.
  intros H. unfold with_rb. destruct (heap w !! rb); [|reflexivity].
  rewrite H. reflexivity.
Qed.

Lemma with_rb_bind {A B} rb (c : ST mach A) (k : A -> ST mach B) w :
  with_rb rb (bind c k) w = bind (with_rb rb c) (fun a => with_rb rb (k a)) w.
Proof.
  unfold with_rb, bind. destruct (heap w !! rb) as [o|]; [|reflexivity].
  destruct (c _) as [a [o1 s1]|f]; [|reflexivity].
  cbn [heap errors cas_failures obj spurious]. rewrite lookup_insert_eq.
  destruct (k a _) as [b m2|f]; [|reflexivity].
  rewrite insert_insert_eq. reflexivity.
Qed.

Lemma with_rb_bind_ret {A B} rb (c : ST mach A) (f : A -> B) w :
  with_rb rb (bind c (fun a => ret (f a))) w
  = bind (with_rb rb c) (fun a => ret (f a)) w.
Proof.
  unfold with_rb, bind, ret. destruct (heap w !! rb) as [o|]; [|reflexivity].
  destruct (c _) as [a m|e]; reflexivity.
Qed.

Lemma with_rb_bind_ret_then {A B C} rb (c : ST mach A) (f : A -> B)
    (k : B -> ST world C) w :
  bind (with_rb rb (bind c (fun a => ret (f a)))) k w
  = bind (with_rb rb c) (fun a => k (f a)) w.
Proof.
  unfold with_rb, bind, ret. destruct (heap w !! rb) as [o|]; [|reflexivity].
  destruct (c _) as [a m|e]; reflexivity.
Qed.

Lemma with_rb_ret_after {A B} rb (c : ST mach A) w a w1 (x : B) :
  with_rb rb c w = Ret a w1 -> with_rb rb (ret x) w1 = Ret x w1.
Proof.
  unfold with_rb. destruct (heap w !! rb) as [o|]; [|discriminate].
  destruct (c _) as [a' [o1 s1]|f]; [|discriminate].
  intros [= _ <-]. cbn [heap errors cas_failures obj spurious].
  rewrite lookup_insert_eq. unfold ret. cbn [obj spurious].
  rewrite insert_insert_eq. reflexivity.
Qed.

(** X15: the two-phase enqueue is the enqueue.  On every handle, in every
    mode and state, [p64_ringbuf_acquire_(rb, num, true)] followed, when
    slots were acquired, by the stores of step 2 and by
    [p64_ringbuf_release_(rb, r, true)] returns the same number, leaves
    the same state, and stops on the same fault as
    [p64_ringbuf_enqueue(rb, ev, num)]. *)
Theorem X15_two_phase_enqueue rb ev num w :
  enqueue_two_phase rb ev num w = p64_ringbuf_enqueue rb ev num w.
Proof.
  unfold enqueue_two_phase, p64_ringbuf_acquire_, p64_ringbuf_enqueue,
    write_acquired, p64_ringbuf_release_.
  cbv zeta. cbv iota.
  set (ACQ := if Z.land (PROD_FLAGS rb) (Z.lor FLAG_BLK FLAG_NONBLK) =? 0
              then _ else _).
  etransitivity;
    [apply (with_rb_bind_ret_then (RB rb) ACQ (fun r => (r, RB rb)))|].
  etransitivity; [|symmetry; apply with_rb_bind].
  apply bind_ext. intros r w1 E. cbv beta. cbn [fst].
  destruct (actual r =? 0).
  { symmetry. exact (with_rb_ret_after _ _ _ _ _ 0 E). }
  symmetry.
  rewrite (with_rb_ext (RB rb) _
             (bind (bind (gets (fun m => ring (obj m)))
                      (fun rg => if negb (Z.land (PROD_FLAGS rb) FLAG_NONBLK =? 0)
                                 then store_ring (nbenq_write rg ev r)
                                 else bind (lift_assert (write_slots rg ev r))
                                        (fun rg' => store_ring rg')))
                (fun _ => bind (release_slots Cons (index r) (actual r) false
                                  (PROD_FLAGS rb))
                            (fun _ => ret (actual r)))))
    by (intros m; reflexivity).
  rewrite with_rb_bind. apply bind_ext. intros u w2 _.
  rewrite (with_rb_bind_ret (RB rb) _ (fun _ => actual r)).
  symmetry.
  apply (with_rb_bind_ret_then (RB rb) _ (fun _ => true)
           (fun _ => ret (actual r))).
Qed.

(** *** From allocation to free *)

Lemma u32_succ_ne c : 0 <= c < 2 ^ 32 -> u32 (c + 1) <> c.
Proof.
  intros Hc. destruct (Z.eq_dec c (2 ^ 32 - 1)) as [->|].
  - vm_compute. discriminate.
  - rewrite u32_small; lia.
Qed.

(** X16: no free between enqueue and dequeue.  On a ring buffer between
    calls that holds no element, fresh or drained, of capacity from 1 to
    [2^31 - 1], in every mode: after one [p64_ringbuf_enqueue],
    [p64_ringbuf_free] reports "ring buffer not empty" and frees nothing;
    the element can still be dequeued, and after the
    [p64_ringbuf_dequeue] the same call of [p64_ringbuf_free] frees the
    ring buffer without a report. *)
Theorem X16_free_after_drain rb ev out w o c :
  rb <> NULL ->
  heap w !! RB rb = Some o ->
  between_calls rb o c c ->
  1 <= capacity (prod o) < 2 ^ 31 ->
  exists w1 w2 w3 w4 out',
    p64_ringbuf_enqueue rb ev 1 w = Ret 1 w1
    /\ p64_ringbuf_free rb w1 = Ret tt w2
    /\ errors w2 = errors w ++ [not_empty_report (RB rb)]
    /\ heap w2 = heap w1
    /\ p64_ringbuf_dequeue rb out 1 w2 = Ret (1, out', Some c) w3
    /\ out' 0 = ev 0
    /\ p64_ringbuf_free rb w3 = Ret tt w4
    /\ heap w4 !! RB rb = None
    /\ errors w4 = errors w2.
Proof.
  intros Hrb Hh Hq Hcap.
  pose proof Hq as (Hc & _).
  destruct (enqueue_between rb ev 1 w o c c 1 Hh Hq)
    as (w1 & o1 & Henq & Hheap1 & Herr1 & Hb1 & Hq1 & _ & Hpm1 & Hring1);
    rewrite ?queued_same; try lia.
  rewrite queued_same, Z.add_0_l in Hq1.
  pose proof Hb1 as (_ & _ & Hph1 & Hcons1 & _ & _ & Hmm1).
  assert (heap w1 !! RB rb = Some o1) as Hh1
    by (rewrite Hheap1; apply lookup_insert_eq).
  pose proof (free_cases rb w1 o1 Hrb Hh1) as Hfree1.
  rewrite Hph1, Hcons1 in Hfree1. cbn [cur head] in Hfree1.
  destruct (Z.eqb_spec c (u32 (c + 1))) as [He|_];
    [symmetry in He; apply u32_succ_ne in He; [contradiction | exact Hc]|].
  cbn [negb] in Hfree1.
  set (w2 := {| heap := heap w1; errors := errors w1 ++ [not_empty_report (RB rb)];
                cas_failures := cas_failures w1 |}) in *.
  assert (heap w2 !! RB rb = Some o1) as Hh2 by exact Hh1.
  destruct (dequeue_between rb out 1 w2 o1 c (u32 (c + 1)) 1 Hh2 Hb1)
    as (w3 & o3 & out' & ev0 & Hdeq & Hheap3 & Herr3 & Hread & Hb3 & _);
    rewrite ?Hq1; try lia.
  destruct Hb3 as (_ & _ & Hph3 & Hch3 & _).
  assert (heap w3 !! RB rb = Some o3) as Hh3
    by (rewrite Hheap3; apply lookup_insert_eq).
  pose proof (free_cases rb w3 o3 Hrb Hh3) as Hfree3.
  rewrite Hph3, Hch3 in Hfree3. cbn [cur head] in Hfree3.
  rewrite Z.eqb_refl in Hfree3. cbn [negb] in Hfree3.
  eexists w1, w2, w3, _, out'.
  split; [exact Henq|]. split; [exact Hfree1|].
  split; [unfold w2; cbn [errors]; rewrite Herr1; reflexivity|].
  split; [reflexivity|]. split; [exact Hdeq|].
  split.
  { rewrite <- Hmm1, Hpm1 in Hread.
    assert (ring o1 (Z.land c (prod_mask o)) = ev 0) as Hslot.
    { destruct Hring1 as [Hr|Hr].
      - rewrite Hr. unfold nbenq_write. cbn [index actual mask nbenq_from Z.to_nat].
        replace (Z.to_nat (1 - 1)) with 0%nat by reflexivity. cbn [nbenq_from].
        rewrite Z.add_0_r, (u32_small c Hc). apply upd_same.
      - unfold write_slots in Hr. cbn [index actual mask] in Hr.
        cbn in Hr. injection Hr as <-. apply upd_same. }
    unfold read_slots in Hread. cbn [index actual mask] in Hread. cbn in Hread.
    injection Hread as <-. rewrite upd_same. exact Hslot. }
  split; [exact Hfree3|].
  split; [cbn [heap]; apply lookup_delete_eq|].
  cbn [errors]. exact Herr3.
Qed.

Lemma X16_free_after_drain_witness :
  exists h w o w1 w2 w3 w4 out',
    @after_round_trip sample_flags 2 4 65 = Some (h, w)
    /\ h <> NULL /\ heap w !! RB h = Some o
    /\ between_calls h o 1 1
    /\ tail (prod o) = 1 /\ tail (cons o) = 0
    /\ p64_ringbuf_enqueue h (one 7) 1 w = Ret 1 w1
    /\ p64_ringbuf_free h w1 = Ret tt w2
    /\ errors w2 = [not_empty_report (RB h)]
    /\ p64_ringbuf_dequeue h (one 0) 1 w2 = Ret (1, out', Some 1) w3
    /\ p64_ringbuf_free h w3 = Ret tt w4
    /\ heap w4 !! RB h = None.
Proof.
  eexists _, _, _.
  match goal with |- exists w1 w2 w3 w4 out', ?A /\ ?N /\ ?B /\ ?C /\ _ =>
    assert (A) as Ha by (vm_compute; reflexivity);
    assert (N) as Hn by (unfold NULL; lia);
    assert (B) as Hh by (vm_compute; reflexivity);
    assert (C) as Hb by between_here
  end.
  destruct (X16_free_after_drain _ (one 7) (one 0) _ _ 1 Hn Hh Hb)
    as (w1 & w2 & w3 & w4 & out' & He & Hf & Herr & _ & Hd & _ & Hf' & Hnone & _);
    [cbn; lia|].
  exists w1, w2, w3, w4, out'.
  split; [exact Ha|]. split; [exact Hn|]. split; [exact Hh|]. split; [exact Hb|].
  split; [reflexivity|]. split; [reflexivity|].
  split; [exact He|]. split; [exact Hf|]. split; [exact Herr|].
  split; [exact Hd|]. split; [exact Hf' | exact Hnone].
Defined.

(** *** The capacity below [2^31] *)

Section CapacityBelow.
Context `{FL : ringbuf_flags}.

(** X17: the capacity is [nelems] below [2^31].  A ring buffer from
    [p64_ringbuf_alloc(nelems, SPENQ|SCDEQ, esize)] with
    [1 <= nelems < 2^31] takes exactly [nelems] one-element enqueues, also
    when [nelems] is no power of two; the next enqueue returns 0, and
    [nelems] one-element dequeues then return the elements in the order of
    the enqueues. *)
Theorem X17_spsc_capacity_below p ring0 nelems esize w vs v :
  flags_wf ->
  p <> NULL -> Z.land p 63 = 0 ->
  1 <= nelems < 2 ^ 31 ->
  Z.of_nat (length vs) = nelems ->
  exists h w0 w1 w2 w3,
    p64_ringbuf_alloc p ring0 nelems
      (Z.lor P64_RINGBUF_F_SPENQ P64_RINGBUF_F_SCDEQ) esize w = Ret h w0
    /\ h <> NULL
    /\ enqueue_each h vs w0 = Ret (replicate (length vs) 1) w1
    /\ p64_ringbuf_enqueue h (one v) 1 w1 = Ret 0 w2
    /\ dequeue_times h (length vs) w2 = Ret (map (fun x => (1, x)) vs) w3.
Proof.
  intros Hwf Hp Hal Hn Hlen.
  exact (spsc_capacity p ring0 nelems esize w vs v Hwf Hp Hal Hn Hlen).
Qed.

End CapacityBelow.

Lemma X17_spsc_capacity_below_witness :
  @flags_wf sample_flags /\ 4096 <> NULL /\ Z.land 4096 63 = 0
  /\ exists h w0 w1,
       @p64_ringbuf_alloc sample_flags 4096 (one 0) 3 3 8 empty_world = Ret h w0
       /\ enqueue_each h [65; 66; 67] w0 = Ret [1; 1; 1] w1.
Proof.
  assert (4096 <> NULL) as Hn by (unfold NULL; lia).
  split; [exact sample_flags_wf|]. split; [exact Hn|]. split; [reflexivity|].
  destruct (@X17_spsc_capacity_below sample_flags 4096 (one 0) 3 8 empty_world
              [65; 66; 67] 68 sample_flags_wf Hn eq_refl)
    as (h & w0 & w1 & _ & _ & Ha & _ & He & _); [lia | reflexivity |].
  exists h, w0, w1. split; [exact Ha | exact He].
Defined.

(** X26: the two-phase dequeue.  Without the lock-free flag,
    [p64_ringbuf_acquire_(rb, num, false)] followed, when slots were
    acquired, by the loads of step 2 and by
    [p64_ringbuf_release_(rb, r, false)] gives the same result, the same
    final state and the same fault as [p64_ringbuf_dequeue(rb, ev, num)].
    With the lock-free flag the acquire is speculative: it returns the
    range at [prod.head.cur] (or no slot and a null [ring]) and writes
    nothing. *)
Theorem X26_two_phase_dequeue rb ev num w :
  (Z.land (CONS_FLAGS rb) FLAG_LOCKFREE = 0 ->
   dequeue_two_phase rb ev num w = p64_ringbuf_dequeue rb ev num w)
  /\ (Z.land (CONS_FLAGS rb) FLAG_LOCKFREE <> 0 ->
      forall o, heap w !! RB rb = Some o ->
      p64_ringbuf_acquire_ rb num false w
      = Ret (let act := MIN (to_int num)
                          (to_int (u32 (cur (head (cons o)) - cur (head (prod o))))) in
             if act <=? 0 then (no_slots, NULL)
             else ({| index := cur (head (prod o)); actual := act;
                      mask := cons_mask o |}, RB rb)) w).
Proof.
  split.
  - intros Hlf.
    unfold dequeue_two_phase, p64_ringbuf_acquire_, p64_ringbuf_dequeue,
      read_acquired, p64_ringbuf_release_.
    cbv zeta. rewrite Hlf. change (negb (0 =? 0)) with false. cbv iota.
    set (ACQ := if Z.land (CONS_FLAGS rb) (Z.lor FLAG_BLK FLAG_NONBLK) =? 0
                then _ else _).
    etransitivity;
      [apply (with_rb_bind_ret_then (RB rb) ACQ (fun r => (r, RB rb)))|].
    etransitivity; [|symmetry; apply with_rb_bind].
    apply bind_ext. intros r w1 E. cbv beta. cbn [fst].
    destruct (actual r =? 0).
    { symmetry. exact (with_rb_ret_after _ _ _ _ _ (0, ev, None) E). }
    symmetry.
    rewrite (with_rb_ext (RB rb) _
               (bind (bind (gets (fun m => ring (obj m)))
                        (fun rg => lift_assert (read_slots rg ev r)))
                  (fun ev' => bind (release_slots Prod (index r) (actual r) true
                                      (CONS_FLAGS rb))
                                (fun _ => ret (actual r, ev', Some (index r))))))
      by (intros m; reflexivity).
    rewrite with_rb_bind. apply bind_ext. intros ev' w2 _.
    rewrite (with_rb_bind_ret (RB rb) _ (fun _ => (actual r, ev', Some (index r)))).
    symmetry.
    apply (with_rb_bind_ret_then (RB rb) _ (fun _ => true)
             (fun _ => ret (actual r, ev', Some (index r)))).
  - intros Hlf o Hh. unfold p64_ringbuf_acquire_. cbv zeta.
    destruct (Z.eqb_spec (Z.land (CONS_FLAGS rb) FLAG_LOCKFREE) 0) as [|_];
      [contradiction|].
    cbn [negb]. apply (with_rb_same _ _ _ o _ Hh).
    unfold load_cur. unfold bind, gets, ret. cbv beta iota zeta.
    cbn [obj endpoint_of]. destruct (_ <=? 0); reflexivity.
Qed.

Lemma X26_two_phase_dequeue_witness :
  let w := {| heap := {[ 4096 := fresh_ring (one 0) 4 ]}; errors := [];
              cas_failures := [] |} in
  exists w1 w2 out' wl o,
    p64_ringbuf_enqueue 4105 (one 65) 1 w = Ret 1 w1
    /\ Z.land (CONS_FLAGS 4105) FLAG_LOCKFREE = 0
    /\ p64_ringbuf_dequeue 4105 (one 0) 1 w1 = Ret (1, out', Some 0) w2
    /\ out' 0 = 65
    /\ dequeue_two_phase 4105 (one 0) 1 w1 = Ret (1, out', Some 0) w2
    /\ p64_ringbuf_enqueue 4121 (one 65) 1 w = Ret 1 wl
    /\ Z.land (CONS_FLAGS 4121) FLAG_LOCKFREE <> 0
    /\ heap wl !! RB 4121 = Some o
    /\ p64_ringbuf_acquire_ 4121 1 false wl
       = Ret ({| index := 0; actual := 1; mask := 3 |}, 4096) wl.
Proof.
  intros w. eexists _, _, _, _, _.
  match goal with |- ?A /\ ?B /\ ?C /\ ?D /\ _ /\ ?E /\ ?F /\ ?G /\ _ =>
    assert (A) as Ha by (vm_compute; reflexivity);
    assert (B) as Hb by reflexivity;
    assert (C) as Hc by (vm_compute; reflexivity);
    assert (D) as Hd by reflexivity;
    assert (E) as He by (vm_compute; reflexivity);
    assert (F) as Hf by (vm_compute; discriminate);
    assert (G) as Hg by (vm_compute; reflexivity)
  end.
  split; [exact Ha|]. split; [exact Hb|]. split; [exact Hc|]. split; [exact Hd|].
  split.
  { rewrite (proj1 (X26_two_phase_dequeue 4105 (one 0) 1 _) Hb). exact Hc. }
  split; [exact He|]. split; [exact Hf|]. split; [exact Hg|].
  rewrite (proj2 (X26_two_phase_dequeue 4121 (one 0) 1 _) Hf _ Hg). reflexivity.
Defined.

End RingbufProps.

Module BenchmarkProps.
Import Arch Benchmark.

(** *** The random numbers *)

Lemma u64_bits x k : 0 <= k -> Z.testbit (u64 x) k = (k <? 64) && Z.testbit x k.
Proof.
  intros Hk. unfold u64. destruct (Z.ltb_spec k 64).
  - rewrite Z.mod_pow2_bits_low by lia. reflexivity.
  - rewrite Z.mod_pow2_bits_high by lia. reflexivity.
Qed.

Lemma u64_range x : 0 <= u64 x < 2 ^ 64.
Proof. unfold u64. apply Z.mod_pos_bound. lia. Qed.

Lemma lxor_range a b : 0 <= a < 2 ^ 64 -> 0 <= b < 2 ^ 64 -> 0 <= Z.lxor a b < 2 ^ 64.
Proof.
  intros Ha Hb. assert (0 <= Z.lxor a b) as Hn by (apply Z.lxor_nonneg; lia).
  split; [exact Hn|].
  destruct (Z.eq_dec (Z.lxor a b) 0) as [->|Hne]; [lia|].
  apply Z.log2_lt_pow2; [lia|].
  pose proof (Z.log2_lxor a b ltac:(lia) ltac:(lia)) as Hl.
  assert (Z.log2 a < 64).
  { destruct (Z.eq_dec a 0) as [->|]; [cbn; lia|]. apply Z.log2_lt_pow2; lia. }
  assert (Z.log2 b < 64).
  { destruct (Z.eq_dec b 0) as [->|]; [cbn; lia|]. apply Z.log2_lt_pow2; lia. }
  lia.
Qed.

Lemma shiftr_range x n : 0 <= n -> 0 <= x < 2 ^ 64 -> 0 <= Z.shiftr x n < 2 ^ 64.
Proof.
  intros Hn Hx. rewrite Z.shiftr_div_pow2 by lia.
  assert (0 < 2 ^ n) by (apply Z.pow_pos_nonneg; lia).
  split; [apply Z.div_pos; lia|].
  apply Z.le_lt_trans with x; [|lia].
  apply Z.div_le_upper_bound; [lia|]. nia.
Qed.

(** The three steps of the generator and the final product. *)
Definition xs_right (n x : Z) : Z := Z.lxor x (Z.shiftr x n).
Definition xs_left (n x : Z) : Z := Z.lxor x (u64 (Z.shiftl x n)).

Lemma xorshift64star_steps x :
  xorshift64star x
  = (xs_right 27 (xs_left 25 (xs_right 12 x)),
     u64 (xs_right 27 (xs_left 25 (xs_right 12 x)) * 0x2545F4914F6CDD1D)).
Proof. reflexivity. Qed.

Lemma xs_right_range n x : 0 <= n -> 0 <= x < 2 ^ 64 -> 0 <= xs_right n x < 2 ^ 64.
Proof. intros Hn Hx. apply lxor_range; [exact Hx | apply shiftr_range; assumption]. Qed.

Lemma xs_left_range n x : 0 <= x < 2 ^ 64 -> 0 <= xs_left n x < 2 ^ 64.
Proof. intros Hx. apply lxor_range; [exact Hx | apply u64_range]. Qed.

Lemma xs_right_lin n x y :
  0 <= n -> Z.lxor (xs_right n x) (xs_right n y) = xs_right n (Z.lxor x y).
Proof.
  intros Hn. unfold xs_right. apply Z.bits_inj'. intros k Hk.
  rewrite !Z.lxor_spec, !Z.shiftr_spec, !Z.lxor_spec by lia.
  destruct (Z.testbit x k), (Z.testbit y k), (Z.testbit x (k + n)),
    (Z.testbit y (k + n)); reflexivity.
Qed.

Lemma xs_left_lin n x y :
  0 <= n -> Z.lxor (xs_left n x) (xs_left n y) = xs_left n (Z.lxor x y).
Proof.
  intros Hn. unfold xs_left. apply Z.bits_inj'. intros k Hk.
  rewrite !Z.lxor_spec, !u64_bits, !Z.shiftl_spec, !Z.lxor_spec by lia.
  destruct (k <? 64), (Z.testbit x k), (Z.testbit y k), (Z.testbit x (k - n)),
    (Z.testbit y (k - n)); reflexivity.
Qed.

Lemma xs_right_zero n z : 0 < n -> 0 <= z -> xs_right n z = 0 -> z = 0.
Proof.
  intros Hn Hz H. apply Z.lxor_eq in H. rewrite Z.shiftr_div_pow2 in H by lia.
  destruct (Z.eq_dec z 0) as [|Hne]; [assumption|].
  assert (2 <= 2 ^ n) by (change 2 with (2 ^ 1) at 1; apply Z.pow_le_mono_r; lia).
  assert (z / 2 ^ n < z) by (apply Z.div_lt; lia). lia.
Qed.

Lemma odd_unit m c :
  0 <= m -> Z.odd c = true -> forall z, (2 ^ m | z * c) -> (2 ^ m | z).
Proof.
  intros Hm Hc. pattern m. apply natlike_ind; [| |exact Hm].
  - intros z _. exists z. lia.
  - intros k Hk IH z [q Hq]. rewrite Z.pow_succ_r in * by lia.
    assert (Z.even z = true) as He.
    { assert (Z.even (z * c) = true) as E.
      { rewrite Hq, !Z.even_mul. change (Z.even 2) with true.
        apply orb_true_r. }
      rewrite Z.even_mul, <- (Z.negb_odd c), Hc, orb_false_r in E. exact E. }
    apply Z.even_spec in He. destruct He as [z' ->].
    destruct (IH z') as [r Hr]; [exists q; nia|].
    exists r. nia.
Qed.

Lemma xs_left_zero n z : 0 < n -> xs_left n z = 0 -> z = 0.
Proof.
  intros Hn H. unfold xs_left in H. apply Z.lxor_eq in H.
  pose proof (u64_range (Z.shiftl z n)) as Hr. rewrite <- H in Hr.
  unfold u64 in H. rewrite Z.shiftl_mul_pow2 in H by lia.
  assert (2 ^ 64 | z * (2 ^ n - 1)) as Hd.
  { exists (z * 2 ^ n / 2 ^ 64).
    pose proof (Z.div_mod (z * 2 ^ n) (2 ^ 64) ltac:(lia)). lia. }
  apply odd_unit in Hd; [|lia|].
  - destruct Hd as [q Hq]. nia.
  - rewrite Z.odd_sub, Z.odd_pow by lia. reflexivity.
Qed.

Lemma lxor_zero_eq x y : Z.lxor x y = 0 -> x = y.
Proof. apply Z.lxor_eq. Qed.

Lemma xs_right_inj n x y :
  0 < n -> 0 <= x -> 0 <= y -> xs_right n x = xs_right n y -> x = y.
Proof.
  intros Hn Hx Hy H. apply lxor_zero_eq.
  apply (xs_right_zero n); [lia | apply Z.lxor_nonneg; lia |].
  rewrite <- xs_right_lin by lia. rewrite H. apply Z.lxor_nilpotent.
Qed.

Lemma xs_left_inj n x y : 0 < n -> xs_left n x = xs_left n y -> x = y.
Proof.
  intros Hn H. apply lxor_zero_eq. apply (xs_left_zero n); [lia|].
  rewrite <- xs_left_lin by lia. rewrite H. apply Z.lxor_nilpotent.
Qed.

Lemma star_inj x y :
  0 <= x < 2 ^ 64 -> 0 <= y < 2 ^ 64 ->
  u64 (x * 0x2545F4914F6CDD1D) = u64 (y * 0x2545F4914F6CDD1D) -> x = y.
Proof.
  intros Hx Hy H. unfold u64 in H.
  assert (2 ^ 64 | (x - y) * 0x2545F4914F6CDD1D) as Hd.
  { exists (x * 0x2545F4914F6CDD1D / 2 ^ 64 - y * 0x2545F4914F6CDD1D / 2 ^ 64).
    pose proof (Z.div_mod (x * 0x2545F4914F6CDD1D) (2 ^ 64) ltac:(lia)).
    pose proof (Z.div_mod (y * 0x2545F4914F6CDD1D) (2 ^ 64) ltac:(lia)). lia. }
  apply odd_unit in Hd; [|lia|reflexivity].
  destruct Hd as [q Hq]. nia.
Qed.

Lemma xorshift64star_range x :
  0 <= x < 2 ^ 64 -> 0 <= fst (xorshift64star x) < 2 ^ 64.
Proof.
  intros Hx. rewrite xorshift64star_steps. cbn [fst].
  apply xs_right_range; [lia|]. apply xs_left_range. apply xs_right_range; lia.
Qed.

Lemma xorshift64star_inj x y :
  0 <= x < 2 ^ 64 -> 0 <= y < 2 ^ 64 ->
  fst (xorshift64star x) = fst (xorshift64star y) -> x = y.
Proof.
  intros Hx Hy. rewrite !xorshift64star_steps. cbn [fst]. intros H.
  pose proof (xs_right_range 12 x ltac:(lia) Hx).
  pose proof (xs_right_range 12 y ltac:(lia) Hy).
  pose proof (xs_left_range 25 (xs_right 12 x) ltac:(assumption)).
  pose proof (xs_left_range 25 (xs_right 12 y) ltac:(assumption)).
  apply xs_right_inj in H; try lia.
  apply xs_left_inj in H; try lia.
  apply xs_right_inj in H; lia.
Qed.

Lemma xorshift64star_out_inj x y :
  0 <= x < 2 ^ 64 -> 0 <= y < 2 ^ 64 ->
  snd (xorshift64star x) = snd (xorshift64star y) ->
  fst (xorshift64star x) = fst (xorshift64star y).
Proof.
  intros Hx Hy.
  pose proof (xorshift64star_range x Hx) as Rx.
  pose proof (xorshift64star_range y Hy) as Ry.
  rewrite !xorshift64star_steps in *. cbn [fst snd] in *.
  apply star_inj; assumption.
Qed.

Lemma xor_state_at_range lap seed :
  0 <= seed < 2 ^ 64 -> 0 <= xor_state_at lap seed < 2 ^ 64.
Proof.
  intros Hs. induction lap as [|lap IH]; [exact Hs|].
  cbn [xor_state_at]. apply xorshift64star_range. exact IH.
Qed.

Lemma xor_state_at_zero lap : xor_state_at lap 0 = 0.
Proof. induction lap as [|lap IH]; [reflexivity|]. cbn [xor_state_at]. rewrite IH. reflexivity. Qed.

(** X21: the generator never merges two streams and never gets stuck.
    [xorshift64star] is injective on the 64-bit states and so is the
    value it returns: at every lap, two generators seeded differently are
    in different states and return different numbers; and a generator
    seeded with a non-zero value, as [thr_execute] seeds it, never
    reaches the state zero and never returns zero. *)
Theorem X21_xorshift_streams (lap : nat) x y :
  0 <= x < 2 ^ 64 -> 0 <= y < 2 ^ 64 ->
  (x <> y ->
   xor_state_at lap x <> xor_state_at lap y
   /\ snd (xorshift64star (xor_state_at lap x))
      <> snd (xorshift64star (xor_state_at lap y)))
  /\ (x <> 0 ->
      xor_state_at lap x <> 0 /\ snd (xorshift64star (xor_state_at lap x)) <> 0).
Proof.
  intros Hx Hy.
  assert (forall a b, 0 <= a < 2 ^ 64 -> 0 <= b < 2 ^ 64 -> a <> b ->
            forall n, xor_state_at n a <> xor_state_at n b) as Hst.
  { intros a b Ha Hb Hne. induction n as [|n IH]; [exact Hne|].
    cbn [xor_state_at]. intros H.
    apply xorshift64star_inj in H; [contradiction | |];
      apply xor_state_at_range; assumption. }
  assert (forall a b, 0 <= a < 2 ^ 64 -> 0 <= b < 2 ^ 64 -> a <> b ->
            forall n, snd (xorshift64star (xor_state_at n a))
                      <> snd (xorshift64star (xor_state_at n b))) as Hout.
  { intros a b Ha Hb Hne n H. apply (Hst a b Ha Hb Hne (S n)). cbn [xor_state_at].
    apply xorshift64star_out_inj; [| |exact H];
      apply xor_state_at_range; assumption. }
  split.
  - intros Hne. split; [apply Hst | apply Hout]; assumption.
  - intros Hnz. split.
    + rewrite <- (xor_state_at_zero lap). apply Hst; [assumption | lia | assumption].
    + pose proof (Hout x 0 Hx ltac:(lia) Hnz lap) as H.
      rewrite xor_state_at_zero in H. exact H.
Qed.

Lemma X21_xorshift_streams_witness :
  0 <= 1 < 2 ^ 64 /\ 0 <= 2 < 2 ^ 64
  /\ xor_state_at 3 1 <> xor_state_at 3 2 /\ xor_state_at 3 1 <> 0.
Proof.
  split; [lia|]. split; [lia|].
  pose proof (X21_xorshift_streams 3 1 2 ltac:(lia) ltac:(lia)) as [Ha Hb].
  split; [exact (proj1 (Ha ltac:(lia))) | exact (proj1 (Hb ltac:(lia)))].
Defined.

(** *** The barrier *)

Lemma all_but_bits idx k :
  0 <= idx -> 0 <= k ->
  Z.testbit (all_but idx) k = (k <? 64) && negb (k =? idx).
Proof.
  intros Hi Hk. unfold all_but.
  rewrite u64_bits, Z.lnot_spec, Z.shiftl_1_l, Z.pow2_bits_eqb by lia.
  rewrite (Z.eqb_sym idx k). reflexivity.
Qed.

Lemma begin_bits n b0 k :
  0 <= n < 64 -> 0 <= k ->
  Z.testbit (THREAD_BARRIER (barrier_all_begin n b0)) k = (k <? n).
Proof.
  intros Hn Hk. cbn [barrier_all_begin THREAD_BARRIER].
  rewrite Z.shiftl_1_l, Z.sub_1_r, <- Z.ones_equiv.
  assert (u64 (Z.ones n) = Z.ones n) as ->.
  { unfold u64. apply Z.mod_small. rewrite Z.ones_equiv.
    assert (2 ^ n < 2 ^ 64) by (apply Z.pow_lt_mono_r; lia).
    pose proof (Z.pow_pos_nonneg 2 n). lia. }
  apply Z.testbit_ones_nonneg; lia.
Qed.

Lemma threads_done_snoc l x b :
  threads_done (l ++ [x]) b = barrier_thr_done (Z.of_nat x) (threads_done l b).
Proof.
  exact (foldl_snoc (fun b idx => barrier_thr_done (Z.of_nat idx) b) b l x).
Qed.

Lemma done_bits n b0 done k :
  0 <= n < 64 -> 0 <= k ->
  Z.testbit (THREAD_BARRIER (threads_done done (barrier_all_begin n b0))) k
  = (k <? n) && negb (bool_decide (Z.to_nat k ∈ done)).
Proof.
  intros Hn Hk. induction done as [|x l IH] using rev_ind.
  - cbn [threads_done foldl]. rewrite begin_bits by lia.
    rewrite bool_decide_eq_false_2 by (apply not_elem_of_nil).
    symmetry. apply andb_true_r.
  - rewrite threads_done_snoc. cbn [barrier_thr_done THREAD_BARRIER].
    rewrite Z.land_spec, IH, all_but_bits by lia.
    assert (bool_decide (Z.to_nat k ∈ l ++ [x])
            = bool_decide (Z.to_nat k ∈ l) || (k =? Z.of_nat x)) as ->.
    { destruct (decide (Z.to_nat k ∈ l)) as [Hin|Hout].
      - rewrite !bool_decide_eq_true_2; [reflexivity | exact Hin |].
        apply elem_of_app. left. exact Hin.
      - rewrite (bool_decide_eq_false_2 _ Hout). cbn [orb].
        destruct (Z.eqb_spec k (Z.of_nat x)) as [He|Hne].
        + apply bool_decide_eq_true_2, elem_of_app. right.
          apply list_elem_of_singleton. lia.
        + apply bool_decide_eq_false_2. intros Hin.
          apply elem_of_app in Hin. destruct Hin as [Hin|Hin]; [contradiction|].
          apply list_elem_of_singleton in Hin. lia. }
    destruct (Z.ltb_spec k n), (Z.ltb_spec k 64); try lia;
      destruct (bool_decide (Z.to_nat k ∈ l)), (k =? Z.of_nat x); reflexivity.
Qed.

Lemma barrier_zero_iff (n : nat) order done rest b0 :
  (n < 64)%nat -> Permutation order (seq 0 n) -> order = done ++ rest ->
  THREAD_BARRIER (threads_done done (barrier_all_begin (Z.of_nat n) b0)) = 0
  <-> rest = [].
Proof.
  intros Hn Hperm Horder. split.
  - intros Hz. destruct rest as [|y rest]; [reflexivity|]. exfalso.
    assert (NoDup order) as Hnd by (rewrite Hperm; apply NoDup_seq).
    assert (y ∈ order) as Hy.
    { rewrite Horder. apply elem_of_app. right. constructor. }
    rewrite Hperm in Hy. apply elem_of_seq in Hy.
    rewrite Horder in Hnd. apply NoDup_app in Hnd. destruct Hnd as (_ & Hdis & _).
    pose proof (done_bits (Z.of_nat n) b0 done (Z.of_nat y) ltac:(lia) ltac:(lia)) as Hb.
    rewrite Hz, Z.bits_0, Nat2Z.id in Hb.
    destruct (Z.ltb_spec (Z.of_nat y) (Z.of_nat n)); [|lia].
    rewrite bool_decide_eq_false_2 in Hb; [discriminate|].
    intros Hin. apply (Hdis y Hin). constructor.
  - intros ->. rewrite app_nil_r in Horder. subst done.
    apply Z.bits_inj'. intros k Hk.
    rewrite (done_bits (Z.of_nat n)), Z.bits_0 by lia.
    destruct (Z.ltb_spec k (Z.of_nat n)); [|reflexivity].
    rewrite bool_decide_eq_true_2; [reflexivity|].
    rewrite Hperm. apply elem_of_seq. lia.
Qed.

(** X22: the last thread, and only the last, wakes the main thread.  With
    [1 <= numthreads < 64], the store of [barrier_all_begin] lets exactly
    the threads [0 .. numthreads-1] pass [barrier_thr_begin]; and in
    whatever order the threads then call [barrier_thr_done], the barrier
    word is non-zero and the semaphore [ALL_DONE] is untouched until the
    last call, which leaves the word zero and posts the semaphore once. *)
Theorem X22_last_thread_posts (n : nat) order done rest b0 :
  (1 <= n < 64)%nat ->
  Permutation order (seq 0 n) ->
  order = done ++ rest ->
  ALL_DONE b0 = 0 ->
  (forall idx, 0 <= idx < 64 ->
     barrier_thr_begin idx (barrier_all_begin (Z.of_nat n) b0) = (idx <? Z.of_nat n))
  /\ (THREAD_BARRIER (threads_done done (barrier_all_begin (Z.of_nat n) b0)) = 0
      <-> rest = [])
  /\ ALL_DONE (threads_done done (barrier_all_begin (Z.of_nat n) b0))
     = match rest with [] => 1 | _ => 0 end.
Proof.
  intros Hn Hperm Horder Hsem. split; [|split].
  - intros idx Hidx. unfold barrier_thr_begin.
    pose proof (begin_bits (Z.of_nat n) b0 idx ltac:(lia) ltac:(lia)) as Hb.
    rewrite <- Hb.
    set (w := THREAD_BARRIER (barrier_all_begin (Z.of_nat n) b0)).
    rewrite Z.shiftl_1_l.
    destruct (Z.testbit w idx) eqn:Ht.
    + destruct (Z.eqb_spec (Z.land w (2 ^ idx)) 0) as [He|]; [|reflexivity].
      assert (Z.testbit (Z.land w (2 ^ idx)) idx = false) as H0
        by (rewrite He; apply Z.bits_0).
      rewrite Z.land_spec, Ht, Z.pow2_bits_true in H0 by lia. discriminate.
    + destruct (Z.eqb_spec (Z.land w (2 ^ idx)) 0) as [|Hne]; [reflexivity|].
      exfalso. apply Hne. apply Z.bits_inj'. intros k Hk.
      rewrite Z.land_spec, Z.pow2_bits_eqb, Z.bits_0 by lia.
      destruct (Z.eqb_spec idx k) as [<-|]; [rewrite Ht|]; apply andb_false_r || reflexivity.
  - apply (barrier_zero_iff n order); [lia | assumption | assumption].
  - revert rest Horder. induction done as [|x l IH] using rev_ind; intros rest Horder.
    + cbn [threads_done foldl barrier_all_begin ALL_DONE]. rewrite Hsem.
      destruct rest; [|reflexivity].
      apply Permutation_length in Hperm. rewrite Horder, length_seq in Hperm.
      cbn in Hperm. lia.
    + rewrite threads_done_snoc.
      pose proof (IH (x :: rest) ltac:(rewrite Horder, <- app_assoc; reflexivity)) as Hl.
      pose proof (barrier_zero_iff n order (l ++ [x]) rest b0 ltac:(lia) Hperm Horder)
        as Hz.
      rewrite threads_done_snoc in Hz.
      cbn [barrier_thr_done THREAD_BARRIER ALL_DONE] in *. rewrite Hl.
      destruct (Z.eqb_spec (Z.land (THREAD_BARRIER (threads_done l
                  (barrier_all_begin (Z.of_nat n) b0))) (all_but (Z.of_nat x))) 0)
        as [He|Hne].
      * rewrite (proj1 Hz He). reflexivity.
      * destruct rest; [exfalso; apply Hne; apply Hz; reflexivity | reflexivity].
Qed.

Lemma X22_last_thread_posts_witness :
  let b0 := {| THREAD_BARRIER := 0; ALL_DONE := 0 |} in
  (1 <= 3 < 64)%nat /\ Permutation [2; 0; 1]%nat (seq 0 3)
  /\ ALL_DONE (threads_done [2; 0]%nat (barrier_all_begin 3 b0)) = 0
  /\ ALL_DONE (threads_done [2; 0; 1]%nat (barrier_all_begin 3 b0)) = 1.
Proof.
  intros b0.
  assert (Permutation [2; 0; 1]%nat (seq 0 3)) as Hp.
  { cbn [seq]. etransitivity; [apply Permutation_swap|].
    apply Permutation_skip. apply Permutation_swap. }
  split; [lia|]. split; [exact Hp|]. split.
  - exact (proj2 (proj2 (X22_last_thread_posts 3 [2; 0; 1]%nat [2; 0]%nat [1%nat] b0
                            ltac:(lia) Hp eq_refl eq_refl))).
  - exact (proj2 (proj2 (X22_last_thread_posts 3 [2; 0; 1]%nat [2; 0; 1]%nat [] b0
                            ltac:(lia) Hp eq_refl eq_refl))).
Defined.

(** *** The CPU of each thread *)

Lemma lowest_bit aff :
  0 <= aff -> aff <> 0 -> (forall k, 64 <= k -> Z.testbit aff k = false) ->
  let c := builtin_ffsl aff - 1 in
  0 <= c < 64 /\ Z.testbit aff c = true
  /\ forall j, 0 <= j < c -> Z.testbit aff j = false.
Proof.
  intros H0 Hne Hhi. unfold builtin_ffsl.
  rewrite (proj2 (Z.eqb_neq _ _) Hne).
  replace (Ringbuf.ctz_from 64 0 aff + 1 - 1) with (Ringbuf.ctz_from 64 0 aff) by lia.
  destruct (RingbufProps.ctz_from_spec 64 0 aff ltac:(lia)) as (Hr & Hb & Hl).
  { exists (Z.log2 aff). pose proof (Z.bit_log2 aff ltac:(lia)) as Hb.
    pose proof (Z.log2_nonneg aff).
    split; [|exact Hb].
    change (Z.of_nat 64) with 64.
    destruct (Z.lt_ge_cases (Z.log2 aff) 64); [lia|].
    rewrite Hhi in Hb by lia. discriminate. }
  change (Z.of_nat 64) with 64 in Hr.
  cbv zeta. split; [lia|]. split; [exact Hb|]. exact Hl.
Qed.

Lemma create_threads_none n : create_threads n 0 = replicate n (-1).
Proof. induction n as [|n IH]; [reflexivity|]. cbn. rewrite IH. reflexivity. Qed.

Lemma create_threads_spec : forall (numthr : nat) aff,
  0 <= aff -> (forall k, 64 <= k -> Z.testbit aff k = false) ->
  (forall i c, create_threads numthr aff !! i = Some c ->
     c = -1 \/ (0 <= c < 64 /\ Z.testbit aff c = true))
  /\ (forall (i j : nat) ci cj, (i < j)%nat ->
        create_threads numthr aff !! i = Some ci ->
        create_threads numthr aff !! j = Some cj ->
        cj <> -1 -> ci <> -1 /\ ci < cj)
  /\ (forall (i : nat), create_threads numthr aff !! i = Some (-1) ->
        forall k, 0 <= k -> Z.testbit aff k = true ->
        exists i' : nat, (i' < i)%nat /\ create_threads numthr aff !! i' = Some k).
Proof.
  induction numthr as [|n IH]; intros aff H0 Hhi.
  { cbn [create_threads]. repeat split; intros; discriminate. }
  cbn [create_threads]. destruct (Z.eqb_spec aff 0) as [->|Hne]; cbn [negb].
  - rewrite create_threads_none.
    change ((-1) :: replicate n (-1)) with (replicate (S n) (-1)).
    split; [|split].
    + intros i c Hc. apply lookup_replicate in Hc. left. tauto.
    + intros i j ci cj _ _ Hj Hcj. apply lookup_replicate in Hj. tauto.
    + intros i _ k _ Hk. rewrite Z.bits_0 in Hk. discriminate.
  - destruct (lowest_bit aff H0 Hne Hhi) as (Hc & Hb & Hl).
    set (c := builtin_ffsl aff - 1) in *.
    assert (forall k, 0 <= k ->
              Z.testbit (Z.land aff (all_but c)) k
              = Z.testbit aff k && negb (k =? c)) as Hbits.
    { intros k Hk. rewrite Z.land_spec, all_but_bits by lia.
      destruct (Z.ltb_spec k 64); [reflexivity|].
      rewrite Hhi by lia. reflexivity. }
    destruct (IH (Z.land aff (all_but c))) as (I1 & I2 & I3).
    { apply Z.land_nonneg. left. exact H0. }
    { intros k Hk. rewrite Hbits, Hhi by lia. reflexivity. }
    assert (forall i x, create_threads n (Z.land aff (all_but c)) !! i = Some x ->
              x <> -1 -> 0 <= x < 64 /\ Z.testbit aff x = true /\ c < x) as Hlater.
    { intros i x Hx Hx1. destruct (I1 i x Hx) as [|[Hr Ht]]; [contradiction|].
      rewrite Hbits in Ht by lia. apply andb_true_iff in Ht. destruct Ht as [Ht Hn].
      split; [exact Hr|]. split; [exact Ht|].
      destruct (Z.eqb_spec x c); [discriminate|].
      destruct (Z.lt_ge_cases x c) as [Hlt|]; [|lia].
      rewrite Hl in Ht by lia. discriminate. }
    split; [|split].
    + intros [|i] x Hx; cbn in Hx.
      * injection Hx as <-. right. split; [exact Hc | exact Hb].
      * destruct (Z.eq_dec x (-1)) as [|Hx1]; [left; assumption|].
        right. destruct (Hlater i x Hx Hx1) as (? & ? & _). split; assumption.
    + intros [|i] [|j] ci cj Hij Hi Hj Hcj; cbn in Hi, Hj; try lia.
      * injection Hi as <-. destruct (Hlater j cj Hj Hcj) as (_ & _ & ?). lia.
      * apply (I2 i j ci cj); [lia | assumption..].
    + intros [|i] Hi k Hk Ht; cbn in Hi.
      * injection Hi as Hi. lia.
      * destruct (Z.eq_dec k c) as [->|Hkc].
        -- exists 0%nat. split; [lia | reflexivity].
        -- destruct (I3 i Hi k Hk) as (i' & Hlt & Hi').
           { rewrite Hbits by lia. rewrite Ht.
             destruct (Z.eqb_spec k c); [contradiction | reflexivity]. }
           exists (S i'). split; [lia | exact Hi'].
Qed.

(** X23: no two threads on one CPU.  For a 64-bit affinity mask,
    [create_threads] pins the threads to the CPUs whose bits are set, in
    increasing order and each CPU to one thread; once the mask is used up
    the remaining threads are left unpinned ([cpu = -1]), and no thread is
    left unpinned while a CPU of the mask is free. *)
Theorem X23_distinct_cpus (numthr : nat) affinity :
  0 <= affinity < 2 ^ 64 ->
  length (create_threads numthr affinity) = numthr
  /\ (forall i c, create_threads numthr affinity !! i = Some c ->
        c = -1 \/ (0 <= c < 64 /\ Z.testbit affinity c = true))
  /\ (forall (i j : nat) ci cj, (i < j)%nat ->
        create_threads numthr affinity !! i = Some ci ->
        create_threads numthr affinity !! j = Some cj ->
        cj <> -1 -> ci <> -1 /\ ci < cj)
  /\ (forall (i : nat), create_threads numthr affinity !! i = Some (-1) ->
        forall k, 0 <= k -> Z.testbit affinity k = true ->
        exists i' : nat, (i' < i)%nat
                         /\ create_threads numthr affinity !! i' = Some k).
Proof.
  intros Ha. split.
  - revert affinity Ha. induction numthr as [|n IH]; intros aff Ha; [reflexivity|].
    cbn [create_threads].
    assert (forall x, length (create_threads n x) = n) as Hlen.
    { clear. induction n as [|n IH]; intros x; [reflexivity|].
      cbn [create_threads]. destruct (negb (x =? 0)); cbn [length]; rewrite IH;
        reflexivity. }
    destruct (negb (aff =? 0)); cbn [length]; rewrite Hlen; reflexivity.
  - apply create_threads_spec; [lia|].
    intros k Hk. apply (RingbufProps.testbit_small affinity 64); lia.
Qed.

Lemma X23_distinct_cpus_witness :
  0 <= 20 < 2 ^ 64 /\ create_threads 3 20 = [2; 4; -1]
  /\ length (create_threads 3 20) = 3%nat.
Proof.
  split; [lia|]. split; [reflexivity|].
  exact (proj1 (X23_distinct_cpus 3 20 ltac:(lia))).
Defined.

(** *** The checks of the benchmark on the reader/writer lock *)

Lemma tally_bounds {A} (f : A -> bool) l : 0 <= tally f l <= Z.of_nat (length l).
Proof. induction l as [|x l IH]; cbn [tally length]; [lia|]. destruct (f x); lia. Qed.

Lemma tally_insert {A} (f : A -> bool) l i x y :
  l !! i = Some x ->
  tally f (<[i := y]> l) = tally f l - (if f x then 1 else 0) + (if f y then 1 else 0).
Proof.
  revert i. induction l as [|z l IH]; intros [|i] H; simpl in *; try discriminate.
  - injection H as ->. lia.
  - rewrite (IH i H). lia.
Qed.

Lemma tally_le {A} (f h : A -> bool) l :
  (forall x, f x = true -> h x = true) -> tally f l <= tally h l.
Proof.
  intros Hfh. induction l as [|x l IH]; cbn [tally]; [lia|].
  destruct (f x) eqn:Hf; [rewrite (Hfh _ Hf); lia|]. destruct (h x); lia.
Qed.

Lemma tally_lookup {A} (f : A -> bool) l i x :
  l !! i = Some x -> f x = true -> 1 <= tally f l.
Proof.
  revert i. induction l as [|z l IH]; intros [|i] H Hf; simpl in *; try discriminate.
  - injection H as ->. rewrite Hf. pose proof (tally_bounds f l). lia.
  - pose proof (IH i H Hf). destruct (f z); lia.
Qed.

Lemma tally_strict {A} (f h : A -> bool) l i x :
  (forall y, f y = true -> h y = true) ->
  l !! i = Some x -> h x = true -> f x = false ->
  tally f l + 1 <= tally h l.
Proof.
  intros Hfh. revert i. induction l as [|z l IH]; intros [|i] H Hh Hf; simpl in *;
    try discriminate.
  - injection H as ->. rewrite Hh, Hf. pose proof (tally_le f h l Hfh). lia.
  - pose proof (IH i H Hh Hf). destruct (f z) eqn:Hz; [rewrite (Hfh _ Hz); lia|].
    destruct (h z); lia.
Qed.

Lemma tally_none {A} (f : A -> bool) l :
  (forall x, x ∈ l -> f x = false) -> tally f l = 0.
Proof.
  induction l as [|x l IH]; intros H; cbn [tally]; [reflexivity|].
  rewrite (H x ltac:(constructor)), IH; [reflexivity|].
  intros y Hy. apply H. constructor. exact Hy.
Qed.

Lemma cnt_fmap {A} (f : RWLock.pc -> bool) (g : A -> RWLock.pc) l :
  RWLock.cnt f (g <$> l) = tally (fun x => f (g x)) l.
Proof.
  induction l as [|x l IH]; cbn; [reflexivity|]. rewrite <- IH. reflexivity.
Qed.

(** The invariant of the benchmark: each lock word counts the threads
    inside its lock functions and sections, each counter the threads
    between its increment and decrement, and no thread has seen a
    failure. *)
Record BInv (s : bench) : Prop := {
  b_len : Z.of_nat (length (thrs s)) < 2 ^ 31;
  b_lock : forall k o, OBJS s !! k = Some o ->
           RWLock.Inv (RWLock.State (rwl o) (view k <$> thrs s) false);
  b_rd : forall k o, OBJS s !! k = Some o -> count_rd o = tally (in_rd k) (thrs s);
  b_wr : forall k o, OBJS s !! k = Some o -> count_wr o = tally (in_wr k) (thrs s);
  b_ok : Forall thread_ok (thrs s)
}.

Lemma inv_flag w l a b :
  RWLock.Inv (RWLock.State w l a) -> RWLock.Inv (RWLock.State w l b).
Proof. intros [H1 H2 H3 H4]. split; assumption. Qed.

Lemma lock_step_inv w l i a w' l' ab :
  Z.of_nat (length l) < 2 ^ 31 ->
  RWLock.Inv (RWLock.State w l false) ->
  RWLock.step i a (RWLock.State w l false) = Some (RWLock.State w' l' ab) ->
  RWLock.Inv (RWLock.State w' l' false).
Proof.
  intros Hl HI Hs. apply (inv_flag _ _ ab).
  exact (RWLockProps.inv_step i a (RWLock.State w l false) _ Hl HI Hs).
Qed.

Lemma view_here t : view (obj t) t = lock_pc (at_pc t).
Proof. unfold view. rewrite Nat.eqb_refl. reflexivity. Qed.

Lemma view_other k t : obj t <> k -> view k t = RWLock.Idle.
Proof. intros H. unfold view. rewrite (proj2 (Nat.eqb_neq _ _) H). reflexivity. Qed.

Lemma view_idle k t : lock_pc (at_pc t) = RWLock.Idle -> view k t = RWLock.Idle.
Proof. intros H. unfold view. rewrite H. destruct (Nat.eqb (obj t) k); reflexivity. Qed.

Lemma in_rd_here t : in_rd (obj t) t = counts_rd (at_pc t).
Proof. unfold in_rd. rewrite Nat.eqb_refl. reflexivity. Qed.

Lemma in_wr_here t : in_wr (obj t) t = counts_wr (at_pc t).
Proof. unfold in_wr. rewrite Nat.eqb_refl. reflexivity. Qed.

Lemma in_rd_other k t : obj t <> k -> in_rd k t = false.
Proof. intros H. unfold in_rd. rewrite (proj2 (Nat.eqb_neq _ _) H). reflexivity. Qed.

Lemma in_wr_other k t : obj t <> k -> in_wr k t = false.
Proof. intros H. unfold in_wr. rewrite (proj2 (Nat.eqb_neq _ _) H). reflexivity. Qed.

Lemma counts_rd_held p : counts_rd p = true -> RWLock.holds_rd (lock_pc p) = true.
Proof. destruct p; try discriminate. reflexivity. Qed.

Lemma counts_wr_held p : counts_wr p = true -> RWLock.holds_wr (lock_pc p) = true.
Proof. destruct p; try discriminate; reflexivity. Qed.

Lemma in_rd_view k t : in_rd k t = true -> RWLock.holds_rd (view k t) = true.
Proof.
  unfold in_rd, view. destruct (Nat.eqb (obj t) k); [|discriminate].
  apply counts_rd_held.
Qed.

Lemma in_wr_view k t : in_wr k t = true -> RWLock.holds_wr (view k t) = true.
Proof.
  unfold in_wr, view. destruct (Nat.eqb (obj t) k); [|discriminate].
  apply counts_wr_held.
Qed.

(** While a thread is in a shared section of an object no thread is
    counted in [count_wr]; while one is in an exclusive section none is
    counted in [count_rd], and [count_wr] counts that thread alone. *)
Lemma reader_excl s i t o :
  BInv s -> thrs s !! i = Some t -> OBJS s !! obj t = Some o ->
  RWLock.holds_rd (lock_pc (at_pc t)) = true ->
  count_wr o = 0.
Proof.
  intros [_ HL _ HW _] Hi Ho Hh.
  destruct (HL _ _ Ho) as [_ _ Hx _]. cbn [RWLock.threads] in Hx.
  rewrite (HW _ _ Ho).
  pose proof (tally_bounds (in_wr (obj t)) (thrs s)) as Hb.
  pose proof (tally_le (in_wr (obj t)) (fun x => RWLock.holds_wr (view (obj t) x))
                (thrs s) (in_wr_view (obj t))) as Hle.
  rewrite <- cnt_fmap in Hle.
  assert (1 <= RWLock.cnt RWLock.holds_rd (view (obj t) <$> thrs s)) as Hrd.
  { rewrite cnt_fmap. apply (tally_lookup _ _ i t Hi). rewrite view_here. exact Hh. }
  pose proof (RWLockProps.cnt_bounds RWLock.holds_wr (view (obj t) <$> thrs s)).
  destruct (Z.eq_dec (RWLock.cnt RWLock.holds_wr (view (obj t) <$> thrs s)) 0);
    [lia|].
  rewrite Hx in Hrd by lia. lia.
Qed.

Lemma writer_excl s i t o :
  BInv s -> thrs s !! i = Some t -> OBJS s !! obj t = Some o ->
  RWLock.holds_wr (lock_pc (at_pc t)) = true ->
  count_rd o = 0 /\ count_wr o = (if counts_wr (at_pc t) then 1 else 0).
Proof.
  intros [_ HL HR HW _] Hi Ho Hh.
  destruct (HL _ _ Ho) as [_ H1 Hx _]. cbn [RWLock.threads] in Hx, H1.
  rewrite (HR _ _ Ho), (HW _ _ Ho).
  set (l := view (obj t) <$> thrs s) in *.
  assert (1 <= RWLock.cnt RWLock.holds_wr l) as Hwr.
  { unfold l. rewrite cnt_fmap. apply (tally_lookup _ _ i t Hi).
    rewrite view_here. exact Hh. }
  pose proof (RWLockProps.cnt_le RWLock.holds_wr RWLock.flagged l
                RWLockProps.holds_wr_flagged) as Hfl.
  split.
  - pose proof (tally_bounds (in_rd (obj t)) (thrs s)).
    pose proof (tally_le (in_rd (obj t)) (fun x => RWLock.holds_rd (view (obj t) x))
                  (thrs s) (in_rd_view (obj t))) as Hle.
    rewrite <- cnt_fmap in Hle. fold l in Hle. rewrite (Hx Hwr) in Hle. lia.
  - pose proof (tally_bounds (in_wr (obj t)) (thrs s)).
    destruct (counts_wr (at_pc t)) eqn:Hc.
    + pose proof (tally_lookup (in_wr (obj t)) _ i t Hi
                    ltac:(rewrite in_wr_here; exact Hc)).
      pose proof (tally_le (in_wr (obj t)) (fun x => RWLock.holds_wr (view (obj t) x))
                    (thrs s) (in_wr_view (obj t))) as Hle.
      rewrite <- cnt_fmap in Hle. fold l in Hle. lia.
    + assert (RWLock.holds_wr (view (obj t) t) = true) as Hvt
        by (rewrite view_here; exact Hh).
      assert (in_wr (obj t) t = false) as Hnt by (rewrite in_wr_here; exact Hc).
      pose proof (tally_strict (in_wr (obj t))
                    (fun x => RWLock.holds_wr (view (obj t) x)) (thrs s) i t
                    (in_wr_view (obj t)) Hi Hvt Hnt) as Hst.
      rewrite <- cnt_fmap in Hst. fold l in Hst. lia.
Qed.

(** A step that leaves the objects alone and the thread outside the
    lock, or has it call an acquire function. *)
Lemma binv_call s i t t' q :
  BInv s -> thrs s !! i = Some t ->
  lock_pc (at_pc t) = RWLock.Idle ->
  (lock_pc (at_pc t') = RWLock.Idle \/ lock_pc (at_pc t') = RWLock.RdWait
   \/ lock_pc (at_pc t') = RWLock.WrWait) ->
  thread_ok t' ->
  BInv {| NUMLAPS := NUMLAPS s; OBJS := OBJS s; QUIT := q;
          thrs := <[i := t']> (thrs s); crashed := false |}.
Proof.
  intros [Hlen HL HR HW Hok] Hi Hidle Hnew Hok'.
  assert (counts_rd (at_pc t) = false /\ counts_wr (at_pc t) = false) as [Hr0 Hw0]
    by (destruct (at_pc t); try discriminate; split; reflexivity).
  assert (counts_rd (at_pc t') = false /\ counts_wr (at_pc t') = false) as [Hr1 Hw1]
    by (destruct (at_pc t'); cbn in Hnew; split; try reflexivity;
        destruct Hnew as [|[|]]; discriminate).
  split; cbn [thrs OBJS].
  - rewrite length_insert. exact Hlen.
  - intros k o Ho. rewrite list_fmap_insert.
    pose proof (HL k o Ho) as HI.
    assert ((view k <$> thrs s) !! i = Some RWLock.Idle) as Hv.
    { rewrite list_lookup_fmap, Hi. cbn. rewrite (view_idle k t Hidle). reflexivity. }
    assert (Z.of_nat (length (view k <$> thrs s)) < 2 ^ 31) as Hl
      by (rewrite length_fmap; exact Hlen).
    unfold view at 1. destruct (Nat.eqb (obj t') k).
    + destruct Hnew as [-> | [-> | ->]].
      * rewrite list_insert_id by exact Hv. exact HI.
      * apply (lock_step_inv _ _ i RWLock.CallAcquireRd _ _ false Hl HI).
        unfold RWLock.step. cbn [RWLock.aborted RWLock.threads RWLock.word].
        rewrite Hv. reflexivity.
      * apply (lock_step_inv _ _ i RWLock.CallAcquireWr _ _ false Hl HI).
        unfold RWLock.step. cbn [RWLock.aborted RWLock.threads RWLock.word].
        rewrite Hv. reflexivity.
    + rewrite list_insert_id by exact Hv. exact HI.
  - intros k o Ho. rewrite (tally_insert _ _ _ _ _ Hi), (HR k o Ho).
    unfold in_rd. rewrite Hr0, Hr1, !andb_false_r. lia.
  - intros k o Ho. rewrite (tally_insert _ _ _ _ _ Hi), (HW k o Ho).
    unfold in_wr. rewrite Hw0, Hw1, !andb_false_r. lia.
  - apply Forall_insert; assumption.
Qed.

(** A step on the object of the thread. *)
Lemma binv_object s i t o t' o' q c :
  BInv s -> thrs s !! i = Some t -> OBJS s !! obj t = Some o ->
  obj t' = obj t ->
  RWLock.Inv (RWLock.State (rwl o')
                (<[i := lock_pc (at_pc t')]> (view (obj t) <$> thrs s)) false) ->
  count_rd o' = count_rd o - (if counts_rd (at_pc t) then 1 else 0)
                + (if counts_rd (at_pc t') then 1 else 0) ->
  count_wr o' = count_wr o - (if counts_wr (at_pc t) then 1 else 0)
                + (if counts_wr (at_pc t') then 1 else 0) ->
  thread_ok t' ->
  BInv {| NUMLAPS := NUMLAPS s; OBJS := <[obj t := o']> (OBJS s); QUIT := q;
          thrs := <[i := t']> (thrs s); crashed := c |}.
Proof.
  intros [Hlen HL HR HW Hok] Hi Ho Hobj HI' Hrd Hwr Hok'.
  assert (obj t < length (OBJS s))%nat as Hlt by (apply lookup_lt_Some in Ho; exact Ho).
  split; cbn [thrs OBJS].
  - rewrite length_insert. exact Hlen.
  - intros k ok Hk. rewrite list_fmap_insert.
    destruct (Nat.eq_dec k (obj t)) as [->|Hne].
    + rewrite list_lookup_insert_eq in Hk by exact Hlt. injection Hk as <-.
      assert (view (obj t) t' = lock_pc (at_pc t')) as ->
        by (rewrite <- Hobj; apply view_here).
      exact HI'.
    + rewrite list_lookup_insert_ne in Hk by congruence.
      rewrite (view_other k t') by congruence.
      rewrite list_insert_id; [exact (HL k ok Hk)|].
      rewrite list_lookup_fmap, Hi. cbn. rewrite (view_other k t) by congruence.
      reflexivity.
  - intros k ok Hk. rewrite (tally_insert _ _ _ _ _ Hi).
    destruct (Nat.eq_dec k (obj t)) as [->|Hne].
    + rewrite list_lookup_insert_eq in Hk by exact Hlt. injection Hk as <-.
      assert (in_rd (obj t) t' = counts_rd (at_pc t')) as ->
        by (rewrite <- Hobj; apply in_rd_here).
      rewrite in_rd_here, Hrd, (HR _ _ Ho). reflexivity.
    + rewrite list_lookup_insert_ne in Hk by congruence.
      rewrite (in_rd_other k t), (in_rd_other k t'), (HR k ok Hk) by congruence. lia.
  - intros k ok Hk. rewrite (tally_insert _ _ _ _ _ Hi).
    destruct (Nat.eq_dec k (obj t)) as [->|Hne].
    + rewrite list_lookup_insert_eq in Hk by exact Hlt. injection Hk as <-.
      assert (in_wr (obj t) t' = counts_wr (at_pc t')) as ->
        by (rewrite <- Hobj; apply in_wr_here).
      rewrite in_wr_here, Hwr, (HW _ _ Ho). reflexivity.
    + rewrite list_lookup_insert_ne in Hk by congruence.
      rewrite (in_wr_other k t), (in_wr_other k t'), (HW k ok Hk) by congruence. lia.
  - apply Forall_insert; assumption.
Qed.

(** A step inside a section: the lock is not touched. *)
Lemma binv_section s i t o t' o' :
  BInv s -> thrs s !! i = Some t -> OBJS s !! obj t = Some o ->
  obj t' = obj t -> rwl o' = rwl o ->
  lock_pc (at_pc t') = lock_pc (at_pc t) ->
  count_rd o' = count_rd o - (if counts_rd (at_pc t) then 1 else 0)
                + (if counts_rd (at_pc t') then 1 else 0) ->
  count_wr o' = count_wr o - (if counts_wr (at_pc t) then 1 else 0)
                + (if counts_wr (at_pc t') then 1 else 0) ->
  thread_ok t' ->
  BInv {| NUMLAPS := NUMLAPS s; OBJS := <[obj t := o']> (OBJS s); QUIT := QUIT s;
          thrs := <[i := t']> (thrs s); crashed := false |}.
Proof.
  intros HI Hi Ho Hobj Hw Hpc Hrd Hwr Hok'.
  apply (binv_object s i t o t' o'); try assumption.
  rewrite Hw, Hpc, list_insert_id; [exact (b_lock s HI _ _ Ho)|].
  rewrite list_lookup_fmap, Hi. cbn. rewrite view_here. reflexivity.
Qed.

Lemma lock_pc_after_lock t p' : lock_pc (at_pc (after_lock t p')) = p'.
Proof. destruct p'; reflexivity. Qed.

Lemma after_lock_plain t p' :
  obj (after_lock t p') = obj t
  /\ counts_rd (at_pc (after_lock t p')) = false
  /\ counts_wr (at_pc (after_lock t p')) = false
  /\ (thread_ok t -> thread_ok (after_lock t p')).
Proof.
  destruct p'; cbn [after_lock with_pc obj at_pc counts_rd counts_wr];
    (split; [reflexivity|]); (split; [reflexivity|]); (split; [reflexivity|]);
    intros (H1 & H2 & _); unfold thread_ok; cbn; repeat split; assumption.
Qed.

Lemma u32_small_z x : 0 <= x < 2 ^ 32 -> u32 x = x.
Proof. unfold u32. apply Z.mod_small. Qed.

Ltac ok_thread :=
  unfold thread_ok;
  cbn [with_pc fail_rd fail_wr mult_rd numfailrd numfailwr at_pc];
  repeat split; try assumption; try reflexivity.

Lemma binv_step i sp s s' : BInv s -> bstep i sp s = Some s' -> BInv s'.
Proof.
  intros HI Hs. unfold bstep in Hs.
  destruct (crashed s); [discriminate|].
  destruct (thrs s !! i) as [t|] eqn:Hi; [|discriminate].
  pose proof (proj1 (Forall_lookup _ _) (b_ok s HI) i t Hi) as (Hfr & Hfw & Hloc).
  destruct (at_pc t) as [|p| | | | | |v| | |v| | |] eqn:Hpc; try discriminate;
    try (destruct (OBJS s !! obj t) as [o|] eqn:Ho; [|discriminate];
         unfold on_object in Hs; rewrite Hpc in Hs).
  - (* the loop test *)
    injection Hs as <-.
    apply (binv_call s i t); [assumption | assumption | rewrite Hpc; reflexivity | |].
    + unfold next_lap. destruct (_ && _); [|left; reflexivity].
      destruct (xorshift64star (xor_state t)) as [st r]. cbn [at_pc].
      destruct (negb _); [right; left | right; right]; reflexivity.
    + unfold next_lap. destruct (_ && _).
      * destruct (xorshift64star (xor_state t)) as [st r].
        unfold thread_ok. cbn [numfailrd numfailwr at_pc].
        repeat split; try assumption. destruct (negb _); exact I.
      * ok_thread.
  - (* inside a lock function *)
    assert ((view (obj t) <$> thrs s) !! i = Some p) as Hv.
    { rewrite list_lookup_fmap, Hi. cbn. rewrite view_here, Hpc. reflexivity. }
    assert (Z.of_nat (length (view (obj t) <$> thrs s)) < 2 ^ 31) as Hl
      by (rewrite length_fmap; exact (b_len s HI)).
    pose proof (b_lock s HI _ _ Ho) as HIo.
    destruct (RWLock.thread_step (RWLock.Run sp) p (rwl o)) as [[p' w'|w']|] eqn:Hts;
      [| |discriminate]; injection Hs as <-.
    + destruct (after_lock_plain t p') as (Hobj & Hr & Hw & Hok).
      apply (binv_object s i t o); try assumption.
      * rewrite lock_pc_after_lock.
        apply (lock_step_inv _ _ i (RWLock.Run sp) _ _ false Hl HIo).
        unfold RWLock.step. cbn [RWLock.aborted RWLock.threads RWLock.word].
        rewrite Hv, Hts. reflexivity.
      * rewrite Hpc, Hr. cbn. lia.
      * rewrite Hpc, Hw. cbn. lia.
      * apply Hok. unfold thread_ok. rewrite Hpc. repeat split; assumption.
    + apply (binv_object s i t o); try assumption; try reflexivity.
      * cbn [with_pc at_pc lock_pc].
        apply (lock_step_inv _ _ i (RWLock.Run sp) _ _ true Hl HIo).
        unfold RWLock.step. cbn [RWLock.aborted RWLock.threads RWLock.word].
        rewrite Hv, Hts. reflexivity.
      * rewrite Hpc. cbn. lia.
      * rewrite Hpc. cbn. lia.
      * ok_thread.
  - (* RdCheck1 *)
    injection Hs as <-.
    pose proof (reader_excl s i t o HI Hi Ho ltac:(rewrite Hpc; reflexivity)) as H0.
    apply (binv_section s i t o); try assumption; try reflexivity;
      rewrite ?Hpc, ?H0; cbn; try reflexivity; try lia. ok_thread.
  - (* RdEnter *)
    injection Hs as <-.
    pose proof (b_rd s HI _ _ Ho) as Hc.
    pose proof (tally_bounds (in_rd (obj t)) (thrs s)) as Hb.
    pose proof (b_len s HI).
    apply (binv_section s i t o); try assumption; try reflexivity;
      rewrite ?Hpc; cbn; try reflexivity; try lia;
      try (rewrite u32_small_z by lia; lia).
    ok_thread.
  - (* RdLeave *)
    injection Hs as <-.
    pose proof (b_rd s HI _ _ Ho) as Hc.
    pose proof (tally_bounds (in_rd (obj t)) (thrs s)) as Hb.
    pose proof (tally_lookup (in_rd (obj t)) _ i t Hi
                  ltac:(rewrite in_rd_here, Hpc; reflexivity)) as Hge.
    pose proof (b_len s HI).
    apply (binv_section s i t o); try assumption; try reflexivity;
      rewrite ?Hpc; cbn; try reflexivity; try lia;
      try (rewrite u32_small_z by lia; lia).
    ok_thread.
  - (* RdCheck2 *)
    injection Hs as <-.
    pose proof (reader_excl s i t o HI Hi Ho ltac:(rewrite Hpc; reflexivity)) as H0.
    apply (binv_section s i t o); try assumption; try reflexivity;
      rewrite ?Hpc, ?H0; cbn; try reflexivity; try lia. ok_thread.
  - (* WrLoad1 *)
    injection Hs as <-.
    destruct (writer_excl s i t o HI Hi Ho ltac:(rewrite Hpc; reflexivity)) as [Hr0 Hw0].
    rewrite Hpc in Hw0. cbn in Hw0.
    apply (binv_section s i t o); try assumption; try reflexivity;
      rewrite ?Hpc; cbn; try reflexivity; try lia. ok_thread.
  - (* WrStore1 *)
    injection Hs as <-. cbn in Hloc. subst v.
    destruct (writer_excl s i t o HI Hi Ho ltac:(rewrite Hpc; reflexivity)) as [Hr0 Hw0].
    rewrite Hpc in Hw0. cbn in Hw0.
    apply (binv_section s i t o); try assumption; try reflexivity;
      rewrite ?Hpc; cbn; try reflexivity; try lia;
      try (rewrite Hw0; reflexivity). ok_thread.
  - (* WrCheck1 *)
    injection Hs as <-.
    destruct (writer_excl s i t o HI Hi Ho ltac:(rewrite Hpc; reflexivity)) as [Hr0 Hw0].
    apply (binv_section s i t o); try assumption; try reflexivity;
      rewrite ?Hpc, ?Hr0; cbn; try reflexivity; try lia. ok_thread.
  - (* WrLoad2 *)
    injection Hs as <-.
    destruct (writer_excl s i t o HI Hi Ho ltac:(rewrite Hpc; reflexivity)) as [Hr0 Hw0].
    rewrite Hpc in Hw0. cbn in Hw0.
    apply (binv_section s i t o); try assumption; try reflexivity;
      rewrite ?Hpc; cbn; try reflexivity; try lia;
      try (rewrite Hw0; reflexivity). ok_thread.
  - (* WrStore2 *)
    injection Hs as <-. cbn in Hloc. subst v.
    destruct (writer_excl s i t o HI Hi Ho ltac:(rewrite Hpc; reflexivity)) as [Hr0 Hw0].
    rewrite Hpc in Hw0. cbn in Hw0.
    apply (binv_section s i t o); try assumption; try reflexivity;
      rewrite ?Hpc; cbn; try reflexivity; try lia;
      try (rewrite Hw0; reflexivity). ok_thread.
  - (* WrCheck2 *)
    injection Hs as <-.
    destruct (writer_excl s i t o HI Hi Ho ltac:(rewrite Hpc; reflexivity)) as [Hr0 Hw0].
    apply (binv_section s i t o); try assumption; try reflexivity;
      rewrite ?Hpc, ?Hr0; cbn; try reflexivity; try lia. ok_thread.
  - (* Quitting *)
    injection Hs as <-.
    apply (binv_call s i t); [assumption | assumption | rewrite Hpc; reflexivity | |].
    + left. reflexivity.
    + ok_thread.
Qed.

Lemma binv_init numthreads numobjs numlaps :
  Z.of_nat numthreads < 2 ^ 31 -> BInv (binit numthreads numobjs numlaps).
Proof.
  intros Hn.
  assert (forall k, view k <$> (new_thread <$> seq 0 numthreads)
                    = replicate numthreads RWLock.Idle) as Hview.
  { intros k. rewrite <- list_fmap_compose.
    generalize 0%nat. induction numthreads as [|n IH]; intros a; [reflexivity|].
    cbn [seq fmap list_fmap replicate]. f_equal.
    - apply view_idle. reflexivity.
    - apply IH. lia. }
  split; cbn [binit thrs OBJS].
  - rewrite length_fmap, length_seq. exact Hn.
  - intros k o Ho. apply lookup_replicate in Ho as [-> _]. cbn [rwl].
    rewrite Hview. exact (RWLockProps.inv_init numthreads).
  - intros k o Ho. apply lookup_replicate in Ho as [-> _]. cbn [count_rd].
    symmetry. apply tally_none. intros t Ht.
    apply list_elem_of_fmap in Ht as (a & -> & _). unfold in_rd. cbn.
    apply andb_false_r.
  - intros k o Ho. apply lookup_replicate in Ho as [-> _]. cbn [count_wr].
    symmetry. apply tally_none. intros t Ht.
    apply list_elem_of_fmap in Ht as (a & -> & _). unfold in_wr. cbn.
    apply andb_false_r.
  - apply Forall_forall. intros t Ht.
    apply list_elem_of_fmap in Ht as (a & -> & _). repeat split.
Qed.

Lemma brun_inv sched : forall s s', BInv s -> brun sched s = Some s' -> BInv s'.
Proof.
  induction sched as [|[i sp] rest IH]; intros s s' HI Hrun; cbn in Hrun.
  - injection Hrun as <-. exact HI.
  - destruct (bstep i sp s) as [s1|] eqn:Hs; [|discriminate].
    exact (IH s1 s' (binv_step i sp s s1 HI Hs) Hrun).
Qed.

(** X24: the benchmark never catches the lock out.  Run with the
    reader/writer lock, under every interleaving of the threads and every
    choice of spurious failures of the weak exchange, no thread of
    [thr_execute] ever counts a failure: [numfailrd] and [numfailwr] stay
    zero, no [count_wr] exceeds one, and a [count_rd] is never non-zero
    while a thread is in the exclusive section of the object. *)
Theorem X24_no_failure_counted (numthreads numobjs : nat) numlaps sched s :
  Z.of_nat numthreads < 2 ^ 31 ->
  brun sched (binit numthreads numobjs numlaps) = Some s ->
  (forall i t, thrs s !! i = Some t -> numfailrd t = 0 /\ numfailwr t = 0)
  /\ (forall k o, OBJS s !! k = Some o -> 0 <= count_wr o <= 1)
  /\ (forall i t o, thrs s !! i = Some t -> OBJS s !! obj t = Some o ->
        RWLock.holds_wr (lock_pc (at_pc t)) = true -> count_rd o = 0).
Proof.
  intros Hn Hrun.
  pose proof (brun_inv sched _ _ (binv_init numthreads numobjs numlaps Hn) Hrun) as HI.
  split; [|split].
  - intros i t Hi.
    destruct (proj1 (Forall_lookup _ _) (b_ok s HI) i t Hi) as (H1 & H2 & _).
    split; assumption.
  - intros k o Ho. rewrite (b_wr s HI k o Ho).
    pose proof (tally_bounds (in_wr k) (thrs s)).
    pose proof (tally_le (in_wr k) (fun x => RWLock.holds_wr (view k x))
                  (thrs s) (in_wr_view k)) as Hle.
    rewrite <- cnt_fmap in Hle.
    destruct (b_lock s HI k o Ho) as [_ H1 _ _]. cbn [RWLock.threads] in H1.
    pose proof (RWLockProps.cnt_le RWLock.holds_wr RWLock.flagged
                  (view k <$> thrs s) RWLockProps.holds_wr_flagged). lia.
  - intros i t o Hi Ho Hh. exact (proj1 (writer_excl s i t o HI Hi Ho Hh)).
Qed.

Lemma X24_no_failure_counted_witness :
  Z.of_nat 2 < 2 ^ 31
  /\ exists s, brun (replicate 12 (0%nat, false)) (binit 2 1 1000000) = Some s
               /\ forall i t, thrs s !! i = Some t -> numfailrd t = 0 /\ numfailwr t = 0.
Proof.
  split; [reflexivity|].
  destruct (brun (replicate 12 (0%nat, false)) (binit 2 1 1000000)) as [s|] eqn:E;
    [|vm_compute in E; discriminate].
  exists s. split; [reflexivity|].
  exact (proj1 (X24_no_failure_counted 2 1 1000000 _ s eq_refl E)).
Defined.

Lemma crash_run rest numlaps :
  2 <= numlaps ->
  exists s,
    brun crash_schedule
      {| NUMLAPS := numlaps;
         OBJS := [{| rwl := 0; count_rd := 0; count_wr := 0 |}];
         QUIT := false;
         thrs := new_thread 0 :: new_thread 1 :: rest;
         crashed := false |} = Some s
    /\ crashed s = true
    /\ (at_pc <$> thrs s) !! 1%nat = Some (InLock RWLock.WrDrain).
Proof.
  intros Hl. destruct numlaps as [|[p|p|]|p]; try lia;
    vm_compute; eexists; (split; [reflexivity|]); split; reflexivity.
Qed.

(** X25: the benchmark can abort.  With one lock object (what [main]
    sets up for two threads), at least two threads and at least two laps,
    there is an interleaving of [thr_execute] that ends in the [abort()]
    of [p64_rwlock_release_rd]: thread 0, after its first lap, holds the
    lock for reading when thread 1 sets the writer flag, and releases
    while thread 1 waits for it. *)
Theorem X25_run_can_abort (n : nat) numlaps :
  2 <= numlaps ->
  exists s,
    brun crash_schedule (binit (S (S n)) 1 numlaps) = Some s
    /\ crashed s = true
    /\ (at_pc <$> thrs s) !! 1%nat = Some (InLock RWLock.WrDrain).
Proof.
  intros Hl.
  change (binit (S (S n)) 1 numlaps)
    with {| NUMLAPS := numlaps;
            OBJS := [{| rwl := 0; count_rd := 0; count_wr := 0 |}];
            QUIT := false;
            thrs := new_thread 0 :: new_thread 1 :: (new_thread <$> seq 2 n);
            crashed := false |}.
  apply crash_run. exact Hl.
Qed.

Lemma X25_run_can_abort_witness :
  2 <= 1000000
  /\ exists s, brun crash_schedule (binit 2 1 1000000) = Some s /\ crashed s = true.
Proof.
  split; [lia|].
  destruct (X25_run_can_abort 0 1000000 ltac:(lia)) as (s & Hr & Hc & _).
  exists s. split; assumption.
Defined.

End BenchmarkProps.
